(** * geogames: the country directory (data.js) and the round state (game.js)

    A shallow embedding of [src/data.js] and [src/game.js].

    - A JavaScript string that carries free text (a country name, an alias,
      what the player typed) is a list of UTF-16 code units, [jsstring].
    - A country code is only ever compared with [===] and used as an object
      key; it is a [string].
    - A JSON object used as a table is the list of its entries in the
      object's enumeration order ([Object.values], [Object.entries]).
    - A JavaScript [Set] of codes of which only [has], [add] and [size] are
      used is a [gset string].
    - Numbers are integers here (counters that start at zero and move by
      one); they are [Z]. *)

From stdpp Require Import gmap strings list sorting.
From Stdlib Require Import ZArith NArith Ascii.

Local Open Scope Z_scope.

(* ===================================================================== *)
(** ** JavaScript strings *)
(* ===================================================================== *)

Definition jsstring : Type := list N.

(** An ASCII literal as a JavaScript string. *)
Fixpoint js (s : string) : jsstring :=
  match s with
  | EmptyString => []
  | String a s' => N_of_ascii a :: js s'
  end.

Definition in_range (lo hi c : N) : bool := (N.leb lo c && N.leb c hi)%bool.

(** [String.prototype.toLowerCase], on the code units U+0000..U+00FF: the
    Unicode lower-case mapping of Basic Latin and Latin-1 Supplement
    (A-Z, and U+00C0..U+00DE without the multiplication sign U+00D7, move up
    by 32).  Code units above U+00FF are left as they are. *)
Definition lowerUnit (c : N) : N :=
  if in_range 65 90 c then (c + 32)%N
  else if (in_range 192 222 c && negb (N.eqb c 215))%bool then (c + 32)%N
  else c.

Definition toLowerCase (s : jsstring) : jsstring := map lowerUnit s.

(** The base letter and the combining mark of the canonical decomposition of
    a Latin-1 letter, indexed by its offset from U+00C0 (capital) or from
    U+00E0 (small); [None] where the letter has no canonical decomposition
    (AE, ETH, the multiplication and division signs, O with stroke, THORN,
    sharp s). *)
Definition latin1Decomposition (off : N) : option (N * N) :=
  match off with
  | 0%N => Some (0, 768)   | 1%N => Some (0, 769)   | 2%N => Some (0, 770)
  | 3%N => Some (0, 771)   | 4%N => Some (0, 776)   | 5%N => Some (0, 778)
  | 7%N => Some (2, 807)
  | 8%N => Some (4, 768)   | 9%N => Some (4, 769)   | 10%N => Some (4, 770)
  | 11%N => Some (4, 776)
  | 12%N => Some (8, 768)  | 13%N => Some (8, 769)  | 14%N => Some (8, 770)
  | 15%N => Some (8, 776)
  | 17%N => Some (13, 771)
  | 18%N => Some (14, 768) | 19%N => Some (14, 769) | 20%N => Some (14, 770)
  | 21%N => Some (14, 771) | 22%N => Some (14, 776)
  | 25%N => Some (20, 768) | 26%N => Some (20, 769) | 27%N => Some (20, 770)
  | 28%N => Some (20, 776)
  | 29%N => Some (24, 769)
  | _ => None
  end%N.

(** [normalize('NFD')] of one code unit, on U+0000..U+00FF.  The offset of the
    base letter counts from [A] (65) for capitals and from [a] (97) for small
    letters; U+00FF is y with diaeresis, the one small letter without a
    capital in Latin-1. *)
Definition nfdUnit (c : N) : list N :=
  if in_range 192 223 c then
    match latin1Decomposition (c - 192) with
    | Some (base, mark) => [65 + base; mark]
    | None => [c]
    end%N
  else if N.eqb c 255 then [121; 776]%N
  else if in_range 224 254 c then
    match latin1Decomposition (c - 224) with
    | Some (base, mark) => [97 + base; mark]
    | None => [c]
    end%N
  else [c].

Definition normalizeNFD (s : jsstring) : jsstring := flat_map nfdUnit s.

(** [\w] without the unicode flag: [A-Za-z0-9_]. *)
Definition isWord (c : N) : bool :=
  (in_range 48 57 c || in_range 65 90 c || N.eqb c 95 || in_range 97 122 c)%bool.

(** [\s], which is also what [trim] removes: the ECMAScript white space and
    line terminator code units. *)
Definition isSpace (c : N) : bool :=
  (in_range 9 13 c || N.eqb c 32 || N.eqb c 160 || N.eqb c 5760
   || in_range 8192 8202 c || N.eqb c 8232 || N.eqb c 8233 || N.eqb c 8239
   || N.eqb c 8287 || N.eqb c 12288 || N.eqb c 65279)%bool.

(** [/[\u0300-\u036f]/]: the combining diacritical marks. *)
Definition isCombiningMark (c : N) : bool := in_range 768 879 c.

(** [.replace(/\s+/g, ' ')]: every maximal run of white space becomes one
    space; [inRun] tells that the previous code unit was white space. *)
Fixpoint collapseSpaces (inRun : bool) (s : jsstring) : jsstring :=
  match s with
  | [] => []
  | c :: s' =>
      if isSpace c
      then (if inRun then collapseSpaces true s' else 32%N :: collapseSpaces true s')
      else c :: collapseSpaces false s'
  end.

Fixpoint dropSpaces (s : jsstring) : jsstring :=
  match s with
  | [] => []
  | c :: s' => if isSpace c then dropSpaces s' else s
  end.

Definition trim (s : jsstring) : jsstring :=
  rev (dropSpaces (rev (dropSpaces s))).

(** data.js, [normalizeName]. *)
Definition normalizeName (str : jsstring) : jsstring :=
  trim
    (collapseSpaces false
       (List.filter (fun c => (isWord c || isSpace c)%bool)
          (List.filter (fun c => negb (isCombiningMark c))
             (normalizeNFD (toLowerCase str))))).

Fixpoint startsWith (s t : jsstring) : bool :=
  match t, s with
  | [], _ => true
  | _ :: _, [] => false
  | d :: t', c :: s' => (N.eqb c d && startsWith s' t')%bool
  end.

(** [String.prototype.includes]: [t] occurs in [s] as a substring. *)
Fixpoint includes (s t : jsstring) : bool :=
  (startsWith s t ||
   match s with
   | [] => false
   | _ :: s' => includes s' t
   end)%bool.

(** [===] on strings. *)
Definition strEq (s t : jsstring) : bool := bool_decide (s = t).

(* ===================================================================== *)
(** ** data.js *)
(* ===================================================================== *)

(** An entry of countries.json.  [aliases] is [None] when the field is
    absent (the code tests [if (country.aliases)]; an array, even an empty
    one, is truthy). *)
Record Country : Type := mkCountry {
  code : string;
  name : jsstring;
  aliases : option (list jsstring)
}.

(** countries.json and neighbors.json after [JSON.parse]: the entries of the
    object in enumeration order.  The keys of an object are distinct. *)
Definition CountryTable : Type := list (string * Country).
Definition NeighborTable : Type := list (string * list string).

(** [table[key]]: the entry under [key], [undefined] when there is none. *)
Fixpoint getProp {A : Type} (table : list (string * A)) (key : string) : option A :=
  match table with
  | [] => None
  | (k, v) :: rest => if bool_decide (k = key) then Some v else getProp rest key
  end.

(** [getNeighbors]: [neighborsData[countryCode] || []]. *)
Definition getNeighbors (neighborsData : NeighborTable) (countryCode : string) : list string :=
  match getProp neighborsData countryCode with
  | Some ns => ns
  | None => []
  end.

(** The alias loop of [findCountryByName] and [searchCountries]: is there an
    alias that satisfies [test]?  No aliases field, no match. *)
Definition someAlias (test : jsstring -> bool) (country : Country) : bool :=
  match aliases country with
  | Some als => existsb test als
  | None => false
  end.

(** The [for ... of Object.values(countries)] loop of [findCountryByName]:
    the first country whose canonical name, or one of whose aliases,
    normalizes to [normalized]. *)
Fixpoint findNormalized (normalized : jsstring) (values : list Country) : option Country :=
  match values with
  | [] => None
  | country :: rest =>
      if strEq (normalizeName (name country)) normalized then Some country
      else if someAlias (fun alias => strEq (normalizeName alias) normalized) country
           then Some country
           else findNormalized normalized rest
  end.

(** [findCountryByName(name, countries = countriesData)]; [countries] is
    [None] while the data is not loaded. *)
Definition findCountryByName (nm : jsstring) (countries : option CountryTable) : option Country :=
  match countries with
  | None => None
  | Some table => findNormalized (normalizeName nm) (map snd table)
  end.

(** [getCountriesWithNeighbors], with both tables loaded. *)
Definition getCountriesWithNeighbors
    (countriesData : CountryTable) (neighborsData : NeighborTable) : list Country :=
  omap (fun entry : string * list string => getProp countriesData (fst entry))
       (List.filter (fun entry : string * list string =>
                       bool_decide (0 < Z.of_nat (length (snd entry))))
                    neighborsData).

(** [getRandomCountryWithNeighbors]; [draw] stands for the value of
    [Math.floor(Math.random() * candidates.length)], an index below the
    number of candidates. *)
Definition getRandomCountryWithNeighbors
    (countriesData : CountryTable) (neighborsData : NeighborTable) (draw : nat)
  : option Country :=
  let candidates := getCountriesWithNeighbors countriesData neighborsData in
  match candidates with
  | [] => None
  | _ :: _ => candidates !! (draw mod length candidates)%nat
  end.

Inductive MatchType : Type := matchName | matchAlias.

(** An element of the result of [searchCountries]:
    [{ ...country, code, matchType }]; the key of the entry overrides the
    [code] field of the country. *)
Record SearchResult : Type := mkSearchResult {
  sr_code : string;
  sr_name : jsstring;
  sr_aliases : option (list jsstring);
  sr_matchType : MatchType
}.

(** The scan of [searchCountries] over [Object.entries(countriesData)]. *)
Fixpoint searchScan (normalized : jsstring) (excludeCodes : list string)
    (entries : list (string * Country)) : list SearchResult :=
  match entries with
  | [] => []
  | (key, country) :: rest =>
      if bool_decide (key ∈ excludeCodes) then searchScan normalized excludeCodes rest
      else if includes (normalizeName (name country)) normalized
      then mkSearchResult key (name country) (aliases country) matchName
             :: searchScan normalized excludeCodes rest
      else if someAlias (fun alias => includes (normalizeName alias) normalized) country
      then mkSearchResult key (name country) (aliases country) matchAlias
             :: searchScan normalized excludeCodes rest
      else searchScan normalized excludeCodes rest
  end.

(** The comparator given to [results.sort]. *)
Definition searchCompare (normalized : jsstring) (a b : SearchResult) : Z :=
  let aName := normalizeName (sr_name a) in
  let bName := normalizeName (sr_name b) in
  let aExact := strEq aName normalized in
  let bExact := strEq bName normalized in
  if (aExact && negb bExact)%bool then -1
  else if (negb aExact && bExact)%bool then 1
  else Z.of_nat (length aName) - Z.of_nat (length bName).

(** [Array.prototype.sort] is stable: elements that compare equal keep their
    order.  With a comparator that orders the elements consistently the
    result is the one a stable insertion sort gives: [x], which came before
    every element of [sorted], goes in front of the first element it does
    not compare greater than. *)
Fixpoint sortInsert {A : Type} (cmp : A -> A -> Z) (x : A) (sorted : list A) : list A :=
  match sorted with
  | [] => [x]
  | y :: rest =>
      if bool_decide (cmp x y <= 0) then x :: sorted
      else y :: sortInsert cmp x rest
  end.

Definition arraySort {A : Type} (cmp : A -> A -> Z) (l : list A) : list A :=
  foldr (sortInsert cmp) [] l.

(** [searchCountries(query, excludeCodes = [])]. *)
Definition searchCountries (countriesData : option CountryTable)
    (query : jsstring) (excludeCodes : list string) : list SearchResult :=
  match countriesData, query with
  | None, _ => []
  | Some _, [] => []
  | Some table, _ :: _ =>
      let normalized := normalizeName query in
      arraySort (searchCompare normalized) (searchScan normalized excludeCodes table)
  end.


(* ===================================================================== *)
(** ** game.js: [GameState] *)
(* ===================================================================== *)

(** An element of [this.guesses]: [{ code, name, correct }], and
    [revealed: true] on the guesses that [submit] adds for missed
    neighbours ([guessRevealed] is [false] where the field is absent). *)
Record Guess : Type := mkGuess {
  guessCode : string;
  guessName : jsstring;
  correct : bool;
  guessRevealed : bool
}.

(** An element of [this.neighborCountries]: [{ ...countries[code], code }]. *)
Record NeighborCountry : Type := mkNeighborCountry {
  neighborEntry : option Country;
  neighborCode : string
}.

Record GameState : Type := mkGameState {
  targetCountry : option Country;
  targetCountryCode : option string;
  neighbors : list string;
  neighborCountries : list NeighborCountry;
  guesses : list Guess;
  correctGuesses : gset string;
  userCorrectGuesses : gset string;
  incorrectGuesses : gset string;
  submitted : bool;
  revealed : bool;
  score : Z;
  lastRoundGains : Z;
  lastRoundLosses : Z;
  round : Z
}.

(** The state after [reset()], which the constructor calls. *)
Definition reset : GameState :=
  {| targetCountry := None; targetCountryCode := None;
     neighbors := []; neighborCountries := [];
     guesses := []; correctGuesses := ∅; userCorrectGuesses := ∅;
     incorrectGuesses := ∅; submitted := false; revealed := false;
     score := 0; lastRoundGains := 0; lastRoundLosses := 0; round := 1 |}.

(** Assignments to single fields of [this]. *)
Definition setGuesses (gs : list Guess) (st : GameState) : GameState :=
  {| targetCountry := targetCountry st; targetCountryCode := targetCountryCode st;
     neighbors := neighbors st; neighborCountries := neighborCountries st;
     guesses := gs; correctGuesses := correctGuesses st;
     userCorrectGuesses := userCorrectGuesses st;
     incorrectGuesses := incorrectGuesses st; submitted := submitted st;
     revealed := revealed st; score := score st;
     lastRoundGains := lastRoundGains st; lastRoundLosses := lastRoundLosses st;
     round := round st |}.

Definition setCorrectGuesses (s : gset string) (st : GameState) : GameState :=
  {| targetCountry := targetCountry st; targetCountryCode := targetCountryCode st;
     neighbors := neighbors st; neighborCountries := neighborCountries st;
     guesses := guesses st; correctGuesses := s;
     userCorrectGuesses := userCorrectGuesses st;
     incorrectGuesses := incorrectGuesses st; submitted := submitted st;
     revealed := revealed st; score := score st;
     lastRoundGains := lastRoundGains st; lastRoundLosses := lastRoundLosses st;
     round := round st |}.

Definition setUserCorrectGuesses (s : gset string) (st : GameState) : GameState :=
  {| targetCountry := targetCountry st; targetCountryCode := targetCountryCode st;
     neighbors := neighbors st; neighborCountries := neighborCountries st;
     guesses := guesses st; correctGuesses := correctGuesses st;
     userCorrectGuesses := s;
     incorrectGuesses := incorrectGuesses st; submitted := submitted st;
     revealed := revealed st; score := score st;
     lastRoundGains := lastRoundGains st; lastRoundLosses := lastRoundLosses st;
     round := round st |}.

Definition setIncorrectGuesses (s : gset string) (st : GameState) : GameState :=
  {| targetCountry := targetCountry st; targetCountryCode := targetCountryCode st;
     neighbors := neighbors st; neighborCountries := neighborCountries st;
     guesses := guesses st; correctGuesses := correctGuesses st;
     userCorrectGuesses := userCorrectGuesses st;
     incorrectGuesses := s; submitted := submitted st;
     revealed := revealed st; score := score st;
     lastRoundGains := lastRoundGains st; lastRoundLosses := lastRoundLosses st;
     round := round st |}.

Definition setSubmitted (b : bool) (st : GameState) : GameState :=
  {| targetCountry := targetCountry st; targetCountryCode := targetCountryCode st;
     neighbors := neighbors st; neighborCountries := neighborCountries st;
     guesses := guesses st; correctGuesses := correctGuesses st;
     userCorrectGuesses := userCorrectGuesses st;
     incorrectGuesses := incorrectGuesses st; submitted := b;
     revealed := revealed st; score := score st;
     lastRoundGains := lastRoundGains st; lastRoundLosses := lastRoundLosses st;
     round := round st |}.

Definition setRevealed (b : bool) (st : GameState) : GameState :=
  {| targetCountry := targetCountry st; targetCountryCode := targetCountryCode st;
     neighbors := neighbors st; neighborCountries := neighborCountries st;
     guesses := guesses st; correctGuesses := correctGuesses st;
     userCorrectGuesses := userCorrectGuesses st;
     incorrectGuesses := incorrectGuesses st; submitted := submitted st;
     revealed := b; score := score st;
     lastRoundGains := lastRoundGains st; lastRoundLosses := lastRoundLosses st;
     round := round st |}.

Definition setRound (n : Z) (st : GameState) : GameState :=
  {| targetCountry := targetCountry st; targetCountryCode := targetCountryCode st;
     neighbors := neighbors st; neighborCountries := neighborCountries st;
     guesses := guesses st; correctGuesses := correctGuesses st;
     userCorrectGuesses := userCorrectGuesses st;
     incorrectGuesses := incorrectGuesses st; submitted := submitted st;
     revealed := revealed st; score := score st;
     lastRoundGains := lastRoundGains st; lastRoundLosses := lastRoundLosses st;
     round := n |}.

(** The three assignments that end [submit]. *)
Definition setScores (newScore gains losses : Z) (st : GameState) : GameState :=
  {| targetCountry := targetCountry st; targetCountryCode := targetCountryCode st;
     neighbors := neighbors st; neighborCountries := neighborCountries st;
     guesses := guesses st; correctGuesses := correctGuesses st;
     userCorrectGuesses := userCorrectGuesses st;
     incorrectGuesses := incorrectGuesses st; submitted := submitted st;
     revealed := revealed st; score := newScore;
     lastRoundGains := gains; lastRoundLosses := losses;
     round := round st |}.

(** The error strings of the failure results. *)
Inductive GameError : Type :=
| CountryNotFound
| AlreadyGuessed
| NoGuessesToSubmit.

Definition errorMessage (e : GameError) : string :=
  match e with
  | CountryNotFound => "Country not found"
  | AlreadyGuessed => "Already guessed"
  | NoGuessesToSubmit => "No guesses to submit"
  end.

(** How a method call ends: it returns, or it throws. *)
Inductive Completion : Type := Returned | Threw.

(** [{ success: false, error }] or [{ success: true, country, isCorrect }]. *)
Inductive AddGuessResult : Type :=
| AddGuessFailure (error : GameError)
| AddGuessSuccess (country : Country) (isCorrect : bool).

(** The success result of [submit]. *)
Record SubmitReport : Type := mkSubmitReport {
  gains : Z;
  losses : Z;
  totalCorrect : Z;
  totalNeighbors : Z;
  isComplete : bool
}.

Inductive SubmitResult : Type :=
| SubmitFailure (error : GameError)
| SubmitSuccess (report : SubmitReport).

(** [this] together with the local counters of [submit], as its two
    [forEach] loops see them. *)
Record SubmitLoop : Type := mkSubmitLoop {
  this : GameState;
  loopGains : Z;
  loopLosses : Z
}.

(** [this.guesses.find(g => g.code === code)]. *)
Definition findGuess (c : string) (gs : list Guess) : option Guess :=
  List.find (fun g => bool_decide (guessCode g = c)) gs.

(** [this.guesses.findIndex(g => g.code === countryCode)]; [None] is -1. *)
Fixpoint findGuessIndex (c : string) (gs : list Guess) : option nat :=
  match gs with
  | [] => None
  | g :: rest =>
      if bool_decide (guessCode g = c) then Some 0%nat
      else S <$> findGuessIndex c rest
  end.

Section GameState.

(** The tables of data.js.  main.js constructs the [GameState] after
    [loadGameData] has resolved, so both are loaded. *)
Variable countriesData : CountryTable.
Variable neighborsData : NeighborTable.

(** [startNewRound()]; [draw] is the random index (see
    [getRandomCountryWithNeighbors]).  It throws, before it assigns
    anything, when no country has a neighbour. *)
Definition startNewRound (draw : nat) (st : GameState) : GameState * Completion :=
  match getRandomCountryWithNeighbors countriesData neighborsData draw with
  | None => (st, Threw)
  | Some country =>
      let ns := getNeighbors neighborsData (code country) in
      ({| targetCountry := Some country;
          targetCountryCode := Some (code country);
          neighbors := ns;
          neighborCountries :=
            map (fun c => mkNeighborCountry (getProp countriesData c) c) ns;
          guesses := [];
          correctGuesses := ∅;
          userCorrectGuesses := ∅;
          incorrectGuesses := ∅;
          submitted := false;
          revealed := false;
          score := score st;
          lastRoundGains := 0;
          lastRoundLosses := 0;
          round := round st |}, Returned)
  end.

(** [addGuess(countryName)]. *)
Definition addGuess (countryName : jsstring) (st : GameState)
  : GameState * AddGuessResult :=
  match findCountryByName countryName (Some countriesData) with
  | None => (st, AddGuessFailure CountryNotFound)
  | Some country =>
      match findGuess (code country) (guesses st) with
      | Some existing => (st, AddGuessFailure AlreadyGuessed)
      | None =>
          let isCorrect := bool_decide (code country ∈ neighbors st) in
          (setGuesses
             (guesses st ++ [mkGuess (code country) (name country) isCorrect false])
             st,
           AddGuessSuccess country isCorrect)
      end
  end.

(** [removeGuess(countryCode)]; [splice(index, 1)] is [delete index]. *)
Definition removeGuess (countryCode : string) (st : GameState) : GameState * bool :=
  match findGuessIndex countryCode (guesses st) with
  | Some index => (setGuesses (delete index (guesses st)) st, true)
  | None => (st, false)
  end.

(** The body of the first loop of [submit], over [this.guesses]. *)
Definition tallyGuess (acc : SubmitLoop) (guess : Guess) : SubmitLoop :=
  let st := this acc in
  if correct guess then
    if bool_decide (guessCode guess ∈ correctGuesses st) then acc
    else
      mkSubmitLoop
        (setUserCorrectGuesses ({[guessCode guess]} ∪ userCorrectGuesses st)
           (setCorrectGuesses ({[guessCode guess]} ∪ correctGuesses st) st))
        (loopGains acc + 1) (loopLosses acc)
  else
    if bool_decide (guessCode guess ∈ incorrectGuesses st) then acc
    else
      mkSubmitLoop
        (setIncorrectGuesses ({[guessCode guess]} ∪ incorrectGuesses st) st)
        (loopGains acc) (loopLosses acc + 1).

(** The body of the second loop of [submit], over [this.neighbors]. *)
Definition revealMissed (acc : SubmitLoop) (c : string) : SubmitLoop :=
  let st := this acc in
  match findGuess c (guesses st) with
  | Some existing => acc
  | None =>
      let pushed :=
        match getProp countriesData c with
        | Some country => guesses st ++ [mkGuess c (name country) true true]
        | None => guesses st
        end in
      mkSubmitLoop
        (setCorrectGuesses ({[c]} ∪ correctGuesses st) (setGuesses pushed st))
        (loopGains acc) (loopLosses acc + 1)
  end.

(** [submit()]. *)
Definition submit (st : GameState) : GameState * SubmitResult :=
  match guesses st with
  | [] => (st, SubmitFailure NoGuessesToSubmit)
  | _ :: _ =>
      let marked := setRevealed true (setSubmitted true st) in
      let tallied := fold_left tallyGuess (guesses marked) (mkSubmitLoop marked 0 0) in
      let resolved := fold_left revealMissed (neighbors (this tallied)) tallied in
      let g := loopGains resolved in
      let l := loopLosses resolved in
      let final := setScores (score (this resolved) + (g - l)) g l (this resolved) in
      (final,
       SubmitSuccess
         {| gains := g; losses := l;
            totalCorrect := Z.of_nat (size (correctGuesses final));
            totalNeighbors := Z.of_nat (length (neighbors final));
            isComplete := true |})
  end.

(** The body of the loop of [reveal], over [this.neighbors]. *)
Definition revealNeighbor (st : GameState) (c : string) : GameState :=
  let pushed :=
    match findGuess c (guesses st) with
    | Some existing => guesses st
    | None =>
        match getProp countriesData c with
        | Some country => guesses st ++ [mkGuess c (name country) true false]
        | None => guesses st
        end
    end in
  setCorrectGuesses ({[c]} ∪ correctGuesses st) (setGuesses pushed st).

(** [reveal()]; the result is [{ totalNeighbors, revealed }]. *)
Definition reveal (st : GameState) : GameState * (Z * Z) :=
  let st' := fold_left revealNeighbor (neighbors st) (setRevealed true st) in
  let n := Z.of_nat (length (neighbors st')) in
  let s := Z.of_nat (size (correctGuesses st')) in
  (st', (n, n - (s - n + s))).

(** [nextRound()]: the round number moves before [startNewRound] can
    throw. *)
Definition nextRound (draw : nat) (st : GameState) : GameState * Completion :=
  startNewRound draw (setRound (round st + 1) st).

(** What [getState()] returns. *)
Record StateView : Type := mkStateView {
  view_targetCountry : option Country;
  view_targetCountryCode : option string;
  view_neighbors : list NeighborCountry;
  view_neighborCount : Z;
  view_guesses : list Guess;
  view_correctCount : Z;
  view_submitted : bool;
  view_revealed : bool;
  view_score : Z;
  view_lastRoundGains : Z;
  view_lastRoundLosses : Z;
  view_round : Z;
  view_canSubmit : bool;
  progress_found : Z;
  progress_total : Z
}.

Definition getState (st : GameState) : StateView :=
  {| view_targetCountry := targetCountry st;
     view_targetCountryCode := targetCountryCode st;
     view_neighbors := neighborCountries st;
     view_neighborCount := Z.of_nat (length (neighbors st));
     view_guesses := guesses st;
     view_correctCount := Z.of_nat (size (correctGuesses st));
     view_submitted := submitted st;
     view_revealed := revealed st;
     view_score := score st;
     view_lastRoundGains := lastRoundGains st;
     view_lastRoundLosses := lastRoundLosses st;
     view_round := round st;
     view_canSubmit :=
       (bool_decide (0 < Z.of_nat (length (guesses st))) && negb (revealed st))%bool;
     progress_found := Z.of_nat (size (userCorrectGuesses st));
     progress_total := Z.of_nat (length (neighbors st)) |}.

(** The states a [GameState] object goes through: the constructor, then
    any sequence of method calls. *)
Inductive Reachable : GameState -> Prop :=
| reach_reset : Reachable reset
| reach_startNewRound draw st :
    Reachable st -> Reachable (fst (startNewRound draw st))
| reach_nextRound draw st :
    Reachable st -> Reachable (fst (nextRound draw st))
| reach_addGuess countryName st :
    Reachable st -> Reachable (fst (addGuess countryName st))
| reach_removeGuess countryCode st :
    Reachable st -> Reachable (fst (removeGuess countryCode st))
| reach_submit st :
    Reachable st -> Reachable (fst (submit st))
| reach_reveal st :
    Reachable st -> Reachable (fst (reveal st)).

End GameState.

(** The two states of a round (section 4.2 of the specification):
    [Guessing] from the start of a round until it is submitted or revealed,
    [Finalized] once [submit] has succeeded. *)
Definition Guessing (st : GameState) : Prop :=
  submitted st = false /\ revealed st = false.

Definition Finalized (st : GameState) : Prop := submitted st = true.

(** ui.js, [renderChips]: a chip has no remove button when it [isLocked]. *)
Definition isLocked (st : GameState) (guess : Guess) : bool :=
  (revealed st || (submitted st && correct guess))%bool.

(** The codes that have a guess. *)
Definition guessCodes (gs : list Guess) : list string := map guessCode gs.

(** The neighbour codes of the round as a set: the answer set. *)
Definition answerSet (st : GameState) : gset string := list_to_set (neighbors st).

(** Every neighbour code of the adjacency table is a key of the country
    table. *)
Definition neighborsKnown (countriesData : CountryTable) (neighborsData : NeighborTable)
  : Prop :=
  ∀ key ns c, (key, ns) ∈ neighborsData -> c ∈ ns ->
              is_Some (getProp countriesData c).

(* ===================================================================== *)
(** ** Notions used in the statements *)
(* ===================================================================== *)

(** The codes of the guesses of [gs] that are marked correct, and of those
    that are not. *)
Definition correctCodes (gs : list Guess) : gset string :=
  list_to_set (guessCodes (List.filter correct gs)).

Definition incorrectCodes (gs : list Guess) : gset string :=
  list_to_set (guessCodes (List.filter (fun g => negb (correct g)) gs)).

(** What neither loop touches. *)
Definition sameRound (st st' : GameState) : Prop :=
  targetCountry st' = targetCountry st /\
  targetCountryCode st' = targetCountryCode st /\
  neighbors st' = neighbors st /\
  submitted st' = submitted st /\
  revealed st' = revealed st /\
  score st' = score st /\
  round st' = round st.

(** [t] occurs in [s] as a substring. *)
Definition isSubstring (t s : jsstring) : Prop := ∃ pre post, s = pre ++ t ++ post.

(** The canonical name of [country], or one of its aliases, normalizes to
    [normalized]. *)
Definition nameMatches (normalized : jsstring) (country : Country) : bool :=
  (strEq (normalizeName (name country)) normalized
   || someAlias (fun alias => strEq (normalizeName alias) normalized) country)%bool.

(** The entry is not excluded, and the normalized canonical name or some
    normalized alias of its country contains [normalized]. *)
Definition searchMatches (normalized : jsstring) (excludeCodes : list string)
    (entry : string * Country) : bool :=
  (negb (bool_decide (fst entry ∈ excludeCodes))
   && (includes (normalizeName (name (snd entry))) normalized
       || someAlias (fun alias => includes (normalizeName alias) normalized) (snd entry)))%bool.

(** What a search result shows of the table entry it was made from. *)
Definition resultEntry (r : SearchResult) : string * jsstring * option (list jsstring) :=
  (sr_code r, sr_name r, sr_aliases r).

Definition tableEntry (entry : string * Country)
  : string * jsstring * option (list jsstring) :=
  (fst entry, name (snd entry), aliases (snd entry)).

(** The normalized canonical name of the result is the normalized query. *)
Definition isExact (normalized : jsstring) (r : SearchResult) : bool :=
  strEq (normalizeName (sr_name r)) normalized.

(** The order of the search results: [a] may stand before [b] when [a] is an
    exact match, or neither is and the normalized canonical name of [a] is
    not the longer one. *)
Definition searchBefore (normalized : jsstring) (a b : SearchResult) : Prop :=
  isExact normalized a = true \/
  (isExact normalized b = false /\
   (length (normalizeName (sr_name a)) <= length (normalizeName (sr_name b)))%nat).

(** A guess is marked correct exactly when its code is a neighbour of the
    target. *)
Definition guessesSound (st : GameState) : Prop :=
  ∀ g, g ∈ guesses st -> correct g = bool_decide (guessCode g ∈ neighbors st).

(** What holds of every state a [GameState] goes through. *)
Record Consistent (neighborsData : NeighborTable) (st : GameState) : Prop := mkConsistent {
  consistent_sound : guessesSound st;
  consistent_nodup : NoDup (guessCodes (guesses st));
  consistent_correct : correctGuesses st ⊆ answerSet st;
  consistent_user : userCorrectGuesses st ⊆ correctGuesses st;
  consistent_table :
    neighbors st = [] \/ ∃ key, (key, neighbors st) ∈ neighborsData;
  consistent_guessing :
    Guessing st ->
    correctGuesses st = ∅ /\ userCorrectGuesses st = ∅ /\ incorrectGuesses st = ∅ /\
    ∀ g, g ∈ guesses st -> guessRevealed g = false
}.

(** The neighbour codes of the round that have no guess. *)
Definition missedCodes (st : GameState) : gset string :=
  answerSet st ∖ list_to_set (guessCodes (guesses st)).

(** Every neighbour code of the round is a key of the country table. *)
Definition answersKnown (countriesData : CountryTable) (st : GameState) : Prop :=
  ∀ c, c ∈ neighbors st -> is_Some (getProp countriesData c).

(* ===================================================================== *)
(** ** Fixtures *)
(* ===================================================================== *)

(** Cote d'Ivoire, with the circumflex (U+00F4). *)
Definition coteDIvoire : jsstring := js "C" ++ [244%N] ++ js "te d'Ivoire".

(** A small directory: France and its neighbours, an island, and names that
    need normalizing. *)
Definition atlasCountries : CountryTable :=
  [ ("FRA"%string, mkCountry "FRA" (js "France") (Some []));
    ("ESP"%string, mkCountry "ESP" (js "Spain") (Some [js "Espana"]));
    ("DEU"%string, mkCountry "DEU" (js "Germany") (Some [js "Deutschland"]));
    ("AND"%string, mkCountry "AND" (js "Andorra") (Some []));
    ("PRT"%string, mkCountry "PRT" (js "Portugal") (Some []));
    ("ISL"%string, mkCountry "ISL" (js "Iceland") (Some []));
    ("CIV"%string, mkCountry "CIV" coteDIvoire (Some [js "Ivory Coast"]));
    ("GBR"%string, mkCountry "GBR" (js "United Kingdom") (Some [js "UK"; js "Britain"]));
    ("COD"%string, mkCountry "COD" (js "Dem. Rep. Congo") (Some [js "DRC"])) ].

Definition atlasNeighbors : NeighborTable :=
  [ ("FRA"%string, ["ESP"; "AND"; "DEU"]%string);
    ("ESP"%string, ["FRA"; "AND"; "PRT"]%string);
    ("DEU"%string, ["FRA"]%string);
    ("AND"%string, ["FRA"; "ESP"]%string);
    ("PRT"%string, ["ESP"]%string);
    ("ISL"%string, []) ].

(** A directory whose adjacency table names a code, GHA, that the country
    table does not have. *)
Definition tornCountries : CountryTable :=
  [ ("TGO"%string, mkCountry "TGO" (js "Togo") (Some [])) ].

Definition tornNeighbors : NeighborTable :=
  [ ("TGO"%string, ["GHA"]%string) ].

(** A round on France (draw 0), the player has guessed Spain and Portugal. *)
Definition franceRound : GameState :=
  fst (addGuess atlasCountries (js "Portugal")
        (fst (addGuess atlasCountries (js "spain")
               (fst (startNewRound atlasCountries atlasNeighbors 0 reset))))).

(** The same round after [submit]. *)
Definition franceFinal : GameState := fst (submit atlasCountries franceRound).

(** A round on Togo, the player has guessed Togo itself. *)
Definition togoRound : GameState :=
  fst (addGuess tornCountries (js "Togo")
        (fst (startNewRound tornCountries tornNeighbors 0 reset))).


(* ===================================================================== *)
(** ** game.js: the queries of [GameState] *)
(* ===================================================================== *)

(** [isValidNeighbor(countryCode)]. *)
Definition isValidNeighbor (countryCode : string) (st : GameState) : bool :=
  bool_decide (countryCode ∈ neighbors st).

(** [getRemainingNeighbors()]. *)
Definition getRemainingNeighbors (st : GameState) : list string :=
  List.filter (fun c => negb (bool_decide (c ∈ correctGuesses st))) (neighbors st).

(** [hasGuess(countryCode)]. *)
Definition hasGuess (countryCode : string) (st : GameState) : bool :=
  existsb (fun g => bool_decide (guessCode g = countryCode)) (guesses st).

(* ===================================================================== *)
(** ** main.js and map.js: what the map shows *)
(* ===================================================================== *)

(** main.js, [updateMap]: the codes of the guesses that are correct and not
    revealed ones, as a [Set]. *)
Definition mapCorrectNeighbors (state : StateView) : gset string :=
  list_to_set
    (map guessCode
       (List.filter (fun g => (correct g && negb (guessRevealed g))%bool)
          (view_guesses state))).

(** main.js, [updateMap]: the codes of [state.neighbors], as a [Set]. *)
Definition mapAllNeighbors (state : StateView) : gset string :=
  list_to_set (map neighborCode (view_neighbors state)).

(** The CSS class that [render] of map.js gives the shape of a country:
    [map-target], [map-correct], [map-missing] or [map-other]. *)
Inductive MapClass : Type := mapTarget | mapCorrect | mapMissing | mapOther.

(** map.js, [render]: the function given to [.attr('class', ...)], for a
    shape with code [c]. *)
Definition countryClass (targetCountryCode : option string)
    (correctNeighbors allNeighbors : gset string) (c : string) : MapClass :=
  if bool_decide (Some c = targetCountryCode) then mapTarget
  else if bool_decide (c ∈ correctNeighbors) then mapCorrect
  else if bool_decide (c ∈ allNeighbors) then mapMissing
  else mapOther.

(** map.js, [render]: the function given to [.attr('stroke-dasharray', ...)];
    [true] is the dash pattern '4,4', [false] is [null]. *)
Definition countryDashed (targetCountryCode : option string)
    (correctNeighbors allNeighbors : gset string) (c : string) : bool :=
  (bool_decide (c ∈ allNeighbors) && negb (bool_decide (c ∈ correctNeighbors))
   && negb (bool_decide (Some c = targetCountryCode)))%bool.

(** map.js, [render]: the countries that get a label. *)
Definition countryLabelled (targetCountryCode : option string)
    (allNeighbors : gset string) (c : string) : bool :=
  (bool_decide (Some c = targetCountryCode) || bool_decide (c ∈ allNeighbors))%bool.

(** main.js, [updateMap]: the class of the shape with code [c] on the map
    drawn for the state [st]. *)
Definition shownClass (st : GameState) (c : string) : MapClass :=
  let state := getState st in
  countryClass (view_targetCountryCode state) (mapCorrectNeighbors state)
    (mapAllNeighbors state) c.

(* ===================================================================== *)
(** ** ui.js: the input field *)
(* ===================================================================== *)

(** [handleInput]: the suggestions for the text of the input field; [None]
    when the trimmed text is empty and the dropdown is hidden.  The codes
    that have a guess are excluded. *)
Definition handleInput (countriesData : CountryTable) (value : jsstring)
    (st : GameState) : option (list SearchResult) :=
  match trim value with
  | [] => None
  | _ :: _ =>
      Some (searchCountries (Some countriesData) (trim value)
              (map guessCode (guesses st)))
  end.

(** [showDropdown]: [suggestions.slice(0, 10)]. *)
Definition displaySuggestions (suggestions : list SearchResult) : list SearchResult :=
  take 10 suggestions.

(** [handleKeydown], Backspace in the empty input field: the code given to
    [removeChip], if any. *)
Definition backspaceChip (st : GameState) : option string :=
  match last (guesses st) with
  | None => None
  | Some lastGuess =>
      if (negb (correct lastGuess) || negb (submitted st))%bool
      then Some (guessCode lastGuess)
      else None
  end.

(** [handleKeydown]: the keys that move the selection of the dropdown. *)
Inductive ArrowKey : Type := ArrowDown | ArrowUp.

(** [handleKeydown], ArrowDown and ArrowUp: the new [selectedDropdownIndex],
    with [items] items in the dropdown. *)
Definition moveSelection (items : nat) (selected : Z) (key : ArrowKey) : Z :=
  match key with
  | ArrowDown => Z.min (selected + 1) (Z.of_nat items - 1)
  | ArrowUp => Z.max (selected - 1) (-1)
  end.

(** [handleKeydown], Enter: the name given to [addChipFromInput], if any.
    The items of the dropdown are those that the last [showDropdown] made
    from [suggestions], which it stored as [availableSuggestions]. *)
Definition enterChoice (suggestions : list SearchResult) (selected : Z) : option jsstring :=
  let dropdownItems := map sr_name (displaySuggestions suggestions) in
  match (if (0 <=? selected)%Z then dropdownItems !! Z.to_nat selected else None) with
  | Some countryName => Some countryName
  | None =>
      match suggestions with
      | [only] => Some (sr_name only)
      | _ => None
      end
  end.

(* ===================================================================== *)
(** ** regions.js *)
(* ===================================================================== *)

(** A value of [REGIONS]; [regionCountries] is [None] for [null]. *)
Record Region : Type := mkRegion {
  regionId : string;
  regionName : string;
  regionDescription : string;
  regionCountries : option (list string)
}.

Definition REGIONS : list (string * Region) :=
  [
    ("ALL",
     mkRegion "ALL" "All Regions"
       "All 164 countries with land borders"
       None);
    ("WESTERN_HEMISPHERE",
     mkRegion "WESTERN_HEMISPHERE" "Western Hemisphere"
       "Countries in North and South America"
       (Some
         ["CAN"; "USA"; "MEX"; "GTM"; "BLZ"; "SLV"; "HND"; "NIC"; "CRI"; "PAN";
           "CUB"; "HTI"; "DOM"; "JAM"; "TTO"; "BHS"; "ARG"; "BOL"; "BRA"; "CHL";
           "COL"; "ECU"; "GUY"; "PRY"; "PER"; "SUR"; "URY"; "VEN"; "FRA"]));
    ("EUROPE",
     mkRegion "EUROPE" "Europe"
       "European countries"
       (Some
         ["NOR"; "SWE"; "FIN"; "ISL"; "IRL"; "GBR"; "DNK"; "NLD"; "BEL"; "LUX";
           "DEU"; "FRA"; "ESP"; "PRT"; "ITA"; "CHE"; "AUT"; "POL"; "CZE"; "SVK";
           "HUN"; "SVN"; "HRV"; "BIH"; "SRB"; "MNE"; "MKD"; "ALB"; "GRC"; "BGR";
           "ROU"; "MDA"; "UKR"; "BLR"; "LTU"; "LVA"; "EST"; "RUS"]));
    ("AFRICA",
     mkRegion "AFRICA" "Africa"
       "African countries"
       (Some
         ["DZA"; "EGY"; "LBY"; "TUN"; "MAR"; "SDN"; "TCD"; "NER"; "MLI"; "MRT";
           "SEN"; "GMB"; "GNB"; "GIN"; "SLE"; "LBR"; "CIV"; "GHA"; "TGO"; "BEN";
           "NGA"; "CMR"; "CAF"; "COG"; "GAB"; "GNQ"; "COD"; "AGO"; "SOM"; "ETH";
           "ERI"; "DJI"; "KEN"; "UGA"; "RWA"; "BDI"; "TZA"; "MDG"; "ZMB"; "ZWE";
           "BWA"; "NAM"; "ZAF"; "LSO"; "SWZ"; "MOZ"; "MWI"]));
    ("ASIA",
     mkRegion "ASIA" "Asia"
       "Asian countries (including Middle East and Oceania)"
       (Some
         ["TUR"; "SYR"; "LBN"; "ISR"; "JOR"; "IRQ"; "IRN"; "SAU"; "YEM"; "OMN";
           "ARE"; "QAT"; "KWT"; "CYP"; "AFG"; "PAK"; "IND"; "BGD"; "BTN"; "NPL";
           "LKA"; "MMR"; "THA"; "LAO"; "KHM"; "VNM"; "IDN"; "MYS"; "BRN"; "TLS";
           "PNG"; "PHL"; "CHN"; "MNG"; "PRK"; "KOR"; "JPN"; "KAZ"; "UZB"; "TKM";
           "TJK"; "KGZ"; "ARM"; "AZE"; "GEO"; "AUS"; "NZL"; "FJI"; "VUT"; "SLB"]));
    ("MOST_DIFFICULT",
     mkRegion "MOST_DIFFICULT" "Most Difficult"
       "Countries with 7 or more neighbors"
       (Some
         ["TZA"; "COD"; "RUS"; "BRA"; "FRA"; "MLI"; "NER"; "CMR"; "ZMB"; "IRN";
           "UKR"; "POL"; "AUT"; "HUN"; "DEU"; "TUR"; "CHN"; "SAU"; "SRB"]))
  ]%string.

Definition regionALL : Region :=
  mkRegion "ALL" "All Regions" "All 164 countries with land borders" None.

(** [getRegion(regionId)]: [REGIONS[regionId] || REGIONS.ALL]. *)
Definition getRegion (id : string) : Region :=
  match getProp REGIONS id with
  | Some region => region
  | None => regionALL
  end.


(** [isCountryInRegion(countryCode, regionId)]. *)
Definition isCountryInRegion (countryCode : string) (id : string) : bool :=
  match regionCountries (getRegion id) with
  | None => true
  | Some cs => bool_decide (countryCode ∈ cs)
  end.

(** [filterCountriesByRegion(countries, regionId)]; the object [filtered]
    gets its properties in the order of the entries of [countries]. *)
Definition filterCountriesByRegion {A : Type} (countries : list (string * A))
    (id : string) : list (string * A) :=
  match regionCountries (getRegion id) with
  | None => countries
  | Some cs => List.filter (fun entry => bool_decide (fst entry ∈ cs)) countries
  end.

(* ===================================================================== *)
(** ** scripts/prepare-data.js: the tables of the game *)
(* ===================================================================== *)

(** [COUNTRY_ALIASES], in the order of its keys. *)
Definition COUNTRY_ALIASES : list (string * list jsstring) :=
  [
    ("USA"%string, [js "United States"; js "United States of America"; js "America"; js "US"; js "U.S.A."; js "U.S."]);
    ("GBR"%string, [js "United Kingdom"; js "UK"; js "Britain"; js "Great Britain"]);
    ("RUS"%string, [js "Russia"; js "Russian Federation"]);
    ("CHN"%string, [js "China"; js "People's Republic of China"; js "PRC"]);
    ("PRK"%string, [js "North Korea"; js "Democratic People's Republic of Korea"; js "DPRK"]);
    ("KOR"%string, [js "South Korea"; js "Republic of Korea"; js "ROK"]);
    ("COD"%string, [js "Democratic Republic of the Congo"; js "DRC"; js "DR Congo"; js "Congo-Kinshasa"]);
    ("COG"%string, [js "Republic of the Congo"; js "Congo"; js "Congo-Brazzaville"]);
    ("CIV"%string, [js "Ivory Coast"; js "C" ++ [244%N] ++ js "te d'Ivoire"]);
    ("MKD"%string, [js "North Macedonia"; js "Macedonia"; js "FYROM"]);
    ("LAO"%string, [js "Laos"; js "Lao People's Democratic Republic"]);
    ("VNM"%string, [js "Vietnam"; js "Viet Nam"]);
    ("SYR"%string, [js "Syria"; js "Syrian Arab Republic"]);
    ("BOL"%string, [js "Bolivia"; js "Plurinational State of Bolivia"]);
    ("VEN"%string, [js "Venezuela"; js "Bolivarian Republic of Venezuela"]);
    ("TZA"%string, [js "Tanzania"; js "United Republic of Tanzania"]);
    ("IRN"%string, [js "Iran"; js "Islamic Republic of Iran"]);
    ("BRN"%string, [js "Brunei"; js "Brunei Darussalam"]);
    ("FSM"%string, [js "Micronesia"; js "Federated States of Micronesia"]);
    ("MDA"%string, [js "Moldova"; js "Republic of Moldova"]);
    ("PSE"%string, [js "Palestine"; js "State of Palestine"])
  ].

(** [table[key] = v]: the value of an existing property is replaced where
    it stands, a new property comes last. *)
Fixpoint setProp {A : Type} (table : list (string * A)) (key : string) (v : A)
  : list (string * A) :=
  match table with
  | [] => [(key, v)]
  | (k, w) :: rest =>
      if bool_decide (k = key) then (k, v) :: rest
      else (k, w) :: setProp rest key v
  end.

(** [table[key].push(x)].  Without the property the call throws; in
    [computeNeighbors] it stands in a [try] block whose handler goes on to
    the next pair, so nothing is pushed. *)
Fixpoint pushProp (table : NeighborTable) (key : string) (x : string) : NeighborTable :=
  match table with
  | [] => []
  | (k, l) :: rest =>
      if bool_decide (k = key) then (k, l ++ [x]) :: rest
      else (k, l) :: pushProp rest key x
  end.

(** How often [b] stands in the list [l]. *)
Definition occurrences (b : string) (l : list string) : nat :=
  length (List.filter (fun x => bool_decide (x = b)) l).

(** [UN_MEMBER_STATES]: the codes of the array that the [Set] is made
    from, and the set. *)
Definition UN_MEMBER_CODES : list string :=
  [
    "AFG"; "ALB"; "DZA"; "AND"; "AGO"; "ATG"; "ARG"; "ARM"; "AUS"; "AUT";
    "AZE"; "BHS"; "BHR"; "BGD"; "BRB"; "BLR"; "BEL"; "BLZ"; "BEN"; "BTN";
    "BOL"; "BIH"; "BWA"; "BRA"; "BRN"; "BGR"; "BFA"; "BDI"; "CPV"; "KHM";
    "CMR"; "CAN"; "CAF"; "TCD"; "CHL"; "CHN"; "COL"; "COM"; "COG"; "COD";
    "CRI"; "CIV"; "HRV"; "CUB"; "CYP"; "CZE"; "DNK"; "DJI"; "DMA"; "DOM";
    "ECU"; "EGY"; "SLV"; "GNQ"; "ERI"; "EST"; "SWZ"; "ETH"; "FJI"; "FIN";
    "FRA"; "GAB"; "GMB"; "GEO"; "DEU"; "GHA"; "GRC"; "GRD"; "GTM"; "GIN";
    "GNB"; "GUY"; "HTI"; "HND"; "HUN"; "ISL"; "IND"; "IDN"; "IRN"; "IRQ";
    "IRL"; "ISR"; "ITA"; "JAM"; "JPN"; "JOR"; "KAZ"; "KEN"; "KIR"; "PRK";
    "KOR"; "KWT"; "KGZ"; "LAO"; "LVA"; "LBN"; "LSO"; "LBR"; "LBY"; "LIE";
    "LTU"; "LUX"; "MDG"; "MWI"; "MYS"; "MDV"; "MLI"; "MLT"; "MHL"; "MRT";
    "MUS"; "MEX"; "FSM"; "MDA"; "MCO"; "MNG"; "MNE"; "MAR"; "MOZ"; "MMR";
    "NAM"; "NRU"; "NPL"; "NLD"; "NZL"; "NIC"; "NER"; "NGA"; "MKD"; "NOR";
    "OMN"; "PAK"; "PLW"; "PAN"; "PNG"; "PRY"; "PER"; "PHL"; "POL"; "PRT";
    "QAT"; "ROU"; "RUS"; "RWA"; "KNA"; "LCA"; "VCT"; "WSM"; "SMR"; "STP";
    "SAU"; "SEN"; "SRB"; "SYC"; "SLE"; "SGP"; "SVK"; "SVN"; "SLB"; "SOM";
    "ZAF"; "SSD"; "ESP"; "LKA"; "SDN"; "SUR"; "SWE"; "CHE"; "SYR"; "TJK";
    "TZA"; "THA"; "TLS"; "TGO"; "TON"; "TTO"; "TUN"; "TUR"; "TKM"; "TUV";
    "UGA"; "UKR"; "ARE"; "GBR"; "USA"; "URY"; "UZB"; "VUT"; "VEN"; "VNM";
    "YEM"; "ZMB"; "ZWE"
  ]%string.

Definition UN_MEMBER_STATES : gset string := list_to_set UN_MEMBER_CODES.

(** [a || b], where [a] is a string or missing and [b] is a string: [a]
    when it is a non-empty string, else [b]. *)
Definition orElse {A} (a : option (list A)) (b : list A) : list A :=
  match a with
  | Some (c :: s) => c :: s
  | _ => b
  end.

(** [a || b] on codes that may both be missing. *)
Definition orElseCode (a b : option string) : option string :=
  match a with
  | Some s => if bool_decide (s = EmptyString) then b else a
  | None => b
  end.

Section PrepareData.

(** The geometry of a feature, and [turf.booleanIntersects] on two
    features; [None] when it throws. *)
Variable Geometry : Type.

(** A feature of the collection that [filterToUNMembers] returns: [id],
    the properties [iso_a3], [name] and [name_long], and the geometry. *)
Record Feature : Type := mkFeature {
  featureId : option string;
  iso_a3 : string;
  featureName : jsstring;
  name_long : jsstring;
  geometry : Geometry
}.

(** A feature of the Natural Earth file: the properties [ADM0_A3],
    [ISO_A3], [NAME] and [NAME_LONG], which may be missing, [ADMIN], which
    every feature of that file has, and the geometry. *)
Record RawFeature : Type := mkRawFeature {
  ADM0_A3 : option string;
  ISO_A3 : option string;
  NAME : option jsstring;
  NAME_LONG : option jsstring;
  ADMIN : jsstring;
  rawGeometry : Geometry
}.

(** [feature.properties.ADM0_A3 || feature.properties.ISO_A3]. *)
Definition iso3 (feature : RawFeature) : option string :=
  orElseCode (ADM0_A3 feature) (ISO_A3 feature).

(** [filterToUNMembers]: the predicate of the filter,
    [iso3 && UN_MEMBER_STATES.has(iso3)]. *)
Definition isUNMember (feature : RawFeature) : bool :=
  match iso3 feature with
  | Some s => negb (bool_decide (s = EmptyString)) && bool_decide (s ∈ UN_MEMBER_STATES)
  | None => false
  end.

(** [filterToUNMembers]: the function of the map.  It is applied to what
    the filter keeps, where [iso3] is a string. *)
Definition normalizeProperties (feature : RawFeature) : Feature :=
  let code := match iso3 feature with Some s => s | None => EmptyString end in
  {| featureId := iso3 feature;
     iso_a3 := code;
     featureName := orElse (NAME feature) (ADMIN feature);
     name_long := orElse (NAME_LONG feature) (ADMIN feature);
     geometry := rawGeometry feature |}.

(** [filterToUNMembers(geojson)], on [geojson.features]. *)
Definition filterToUNMembers (features : list RawFeature) : list Feature :=
  map normalizeProperties (List.filter isUNMember features).

Variable booleanIntersects : Feature -> Feature -> option bool.

(** [feature.id || feature.properties.iso_a3]. *)
Definition featureCode (feature : Feature) : string :=
  match featureId feature with
  | Some id => if bool_decide (id = EmptyString) then iso_a3 feature else id
  | None => iso_a3 feature
  end.

(** [computeNeighbors]: every feature gets an empty list. *)
Definition initNeighbors (features : list Feature) : NeighborTable :=
  fold_left (fun table feature => setProp table (featureCode feature) []) features [].

(** [computeNeighbors]: the body of the inner loop, for the pair
    [feature1], [feature2]. *)
Definition linkPair (feature1 : Feature) (table : NeighborTable) (feature2 : Feature)
  : NeighborTable :=
  match booleanIntersects feature1 feature2 with
  | Some true =>
      pushProp (pushProp table (featureCode feature1) (featureCode feature2))
        (featureCode feature2) (featureCode feature1)
  | _ => table
  end.

(** [computeNeighbors]: the two loops, over the pairs [i < j]. *)
Fixpoint linkFeatures (features : list Feature) (table : NeighborTable) : NeighborTable :=
  match features with
  | [] => table
  | feature1 :: rest => linkFeatures rest (fold_left (linkPair feature1) rest table)
  end.

(** [computeNeighbors(geojson)], on [geojson.features]. *)
Definition computeNeighbors (features : list Feature) : NeighborTable :=
  linkFeatures features (initNeighbors features).

(** [generateCountriesMetadata(geojson)], on [geojson.features]. *)
Definition generateCountriesMetadata (features : list Feature) : CountryTable :=
  fold_left
    (fun table feature =>
       let c := featureCode feature in
       setProp table c
         (mkCountry c (featureName feature)
            (Some (match getProp COUNTRY_ALIASES c with
                   | Some als => als
                   | None => []
                   end))))
    features [].

(** The pair [feature1], [feature2] intersects and has the codes [a] and
    [b]: how often it puts [b] into the list of [a]. *)
Definition linkCount (feature1 feature2 : Feature) (a b : string) : nat :=
  match booleanIntersects feature1 feature2 with
  | Some true =>
      ((if bool_decide (featureCode feature1 = a /\ featureCode feature2 = b)
        then 1 else 0)
       + (if bool_decide (featureCode feature2 = a /\ featureCode feature1 = b)
          then 1 else 0))%nat
  | _ => 0%nat
  end.

(** The number of intersecting pairs [i < j] of [features] with the codes
    [a] and [b]. *)
Fixpoint links (features : list Feature) (a b : string) : nat :=
  match features with
  | [] => 0%nat
  | feature1 :: rest =>
      (sum_list (map (fun feature2 => linkCount feature1 feature2 a b) rest)
       + links rest a b)%nat
  end.

(** Two features of the list, the first before the second, intersect and
    have the codes [a] and [b], in either order. *)
Definition intersecting (features : list Feature) (a b : string) : Prop :=
  ∃ front feature1 middle feature2 back,
    features = front ++ feature1 :: middle ++ feature2 :: back /\
    booleanIntersects feature1 feature2 = Some true /\
    ((featureCode feature1 = a /\ featureCode feature2 = b) \/
     (featureCode feature2 = a /\ featureCode feature1 = b)).

End PrepareData.

Arguments mkFeature {Geometry}.
Arguments mkRawFeature {Geometry}.
Arguments ADM0_A3 {Geometry}.
Arguments ISO_A3 {Geometry}.
Arguments NAME {Geometry}.
Arguments NAME_LONG {Geometry}.
Arguments ADMIN {Geometry}.
Arguments rawGeometry {Geometry}.
Arguments iso3 {Geometry}.
Arguments isUNMember {Geometry}.
Arguments normalizeProperties {Geometry}.
Arguments filterToUNMembers {Geometry}.
Arguments name_long {Geometry}.
Arguments featureId {Geometry}.
Arguments iso_a3 {Geometry}.
Arguments featureName {Geometry}.
Arguments geometry {Geometry}.
Arguments featureCode {Geometry}.
Arguments initNeighbors {Geometry}.
Arguments linkPair {Geometry}.
Arguments linkFeatures {Geometry}.
Arguments computeNeighbors {Geometry}.
Arguments generateCountriesMetadata {Geometry}.
Arguments linkCount {Geometry}.
Arguments links {Geometry}.
Arguments intersecting {Geometry}.

(* ===================================================================== *)
(** ** Notions used in the further statements *)
(* ===================================================================== *)

(** The country table is as the data script writes it: the keys are
    distinct, and the [code] field of an entry is its key. *)
Definition tableKeyed (countriesData : CountryTable) : Prop :=
  NoDup (map fst countriesData) /\
  ∀ key country, (key, country) ∈ countriesData -> code country = key.

(** No name is ambiguous: a country of the table whose canonical name or
    alias normalizes like the canonical name of an entry is that entry's
    country. *)
Definition namesUnambiguous (countriesData : CountryTable) : Prop :=
  ∀ key country other,
    (key, country) ∈ countriesData -> other ∈ map snd countriesData ->
    nameMatches (normalizeName (name country)) other = true -> other = country.





(** A round on Germany (draw 2), whose one neighbour here is France; the
    player has guessed France. *)
Definition germanyRound : GameState :=
  fst (addGuess atlasCountries (js "FRANCE")
        (fst (startNewRound atlasCountries atlasNeighbors 2 reset))).

(** Four features, shapes given by a number: France, Spain (with an empty
    [id]), Iceland (without [id]) and Andorra.  France and Spain intersect;
    the shape of Andorra is invalid, and [booleanIntersects] throws on it. *)
Definition sampleFeatures : list (Feature nat) :=
  [ mkFeature (Some "FRA"%string) "FRA" (js "France") (js "France") 1%nat;
    mkFeature (Some EmptyString) "ESP" (js "Spain") (js "Kingdom of Spain") 2%nat;
    mkFeature None "ISL" (js "Iceland") (js "Iceland") 3%nat;
    mkFeature (Some "AND"%string) "AND" (js "Andorra") (js "Andorra") 0%nat ].

Definition sampleIntersects (f1 f2 : Feature nat) : option bool :=
  if bool_decide (geometry f1 = 0 \/ geometry f2 = 0)%nat then None
  else Some (bool_decide (geometry f1 + geometry f2 = 3)%nat).

(** Five features of a source file: France; Spain, whose [ADM0_A3] is
    empty; Kosovo, which is no member state; a feature without code; and
    Iceland, whose [NAME] is empty. *)
Definition sampleRawFeatures : list (RawFeature nat) :=
  [ mkRawFeature (Some "FRA"%string) (Some "-99"%string) (Some (js "France"))
      (Some (js "France")) (js "France") 1%nat;
    mkRawFeature (Some EmptyString) (Some "ESP"%string) (Some (js "Spain"))
      (Some (js "Kingdom of Spain")) (js "Spain") 2%nat;
    mkRawFeature (Some "KOS"%string) (Some "-99"%string) (Some (js "Kosovo"))
      None (js "Kosovo") 4%nat;
    mkRawFeature None None (Some (js "Nowhere")) None (js "Nowhere") 5%nat;
    mkRawFeature (Some "ISL"%string) (Some "ISL"%string) (Some [])
      None (js "Iceland") 3%nat ].

(** The first round on the tables made from [sampleFeatures]. *)
Definition sampleRound : GameState :=
  fst (startNewRound (generateCountriesMetadata sampleFeatures)
         (computeNeighbors sampleIntersects sampleFeatures) 0 reset).
Example franceRound_guesses :
  guesses franceRound =
  [mkGuess "ESP" (js "Spain") true false; mkGuess "PRT" (js "Portugal") false false].
Proof. reflexivity. Qed.

Example franceFinal_guesses :
  guesses franceFinal =
  [mkGuess "ESP" (js "Spain") true false; mkGuess "PRT" (js "Portugal") false false;
   mkGuess "AND" (js "Andorra") true true; mkGuess "DEU" (js "Germany") true true].
Proof. vm_compute. reflexivity. Qed.

Example franceFinal_report :
  snd (submit atlasCountries franceRound) =
  SubmitSuccess (mkSubmitReport 1 3 3 3 true).
Proof. vm_compute. reflexivity. Qed.

(* ===================================================================== *)
(** ** Looking guesses up *)
(* ===================================================================== *)

Lemma findGuess_None c gs : findGuess c gs = None <-> c ∉ guessCodes gs.
Proof.
  unfold findGuess, guessCodes. induction gs as [|g gs IH]; simpl.
  - split; [intros _; apply not_elem_of_nil | done].
  - rewrite not_elem_of_cons. case_bool_decide as Hc.
    + split; [done | intros [Hne _]; congruence].
    + rewrite IH. split; [intros ?; split; [congruence | done] | tauto].
Qed.

Lemma findGuess_Some c gs g :
  findGuess c gs = Some g -> g ∈ gs /\ guessCode g = c.
Proof.
  unfold findGuess. intros H. apply find_some in H as [Hin Hc].
  apply bool_decide_eq_true in Hc. split; [by apply list_elem_of_In | done].
Qed.

Lemma findGuess_is_Some c gs : c ∈ guessCodes gs -> is_Some (findGuess c gs).
Proof.
  intros Hin. destruct (findGuess c gs) eqn:E; [eauto |].
  apply findGuess_None in E. contradiction.
Qed.

Lemma findGuessIndex_None c gs : findGuessIndex c gs = None <-> c ∉ guessCodes gs.
Proof.
  unfold guessCodes. induction gs as [|g gs IH]; simpl.
  - split; [intros _; apply not_elem_of_nil | done].
  - rewrite not_elem_of_cons. case_bool_decide as Hc.
    + split; [done | intros [Hne _]; congruence].
    + destruct (findGuessIndex c gs) as [i|]; simpl.
      * split; [done |]. intros [_ Hn]. apply IH in Hn. done.
      * split; [| done]. intros _. split; [congruence | by apply IH].
Qed.

Lemma findGuessIndex_split c pre g post :
  guessCode g = c -> c ∉ guessCodes pre ->
  findGuessIndex c (pre ++ (g :: post)) = Some (length pre).
Proof.
  intros Hg. unfold guessCodes. induction pre as [|p pre IH]; simpl; intros Hpre.
  - by rewrite bool_decide_eq_true_2.
  - apply not_elem_of_cons in Hpre as [Hne Hpre].
    rewrite bool_decide_eq_false_2 by congruence. by rewrite IH.
Qed.

Lemma findGuessIndex_Some c gs i :
  findGuessIndex c gs = Some i ->
  ∃ pre g post, (gs = pre ++ g :: post) ∧ guessCode g = c ∧
                (c ∉ guessCodes pre) ∧ i = length pre.
Proof.
  revert i. induction gs as [|g gs IH]; simpl; intros i H; [done |].
  case_bool_decide as Hc.
  - inversion H; subst. exists [], g, gs. repeat split; auto. apply not_elem_of_nil.
  - destruct (findGuessIndex c gs) as [j|] eqn:E; simpl in H; [| done].
    inversion H; subst. destruct (IH j eq_refl) as (pre & g' & post & -> & Hg & Hpre & ->).
    exists (g :: pre), g', post. repeat split; auto.
    unfold guessCodes in *. simpl. apply not_elem_of_cons. split; [congruence | done].
Qed.

Lemma delete_middle {A} (pre : list A) x post :
  delete (length pre) (pre ++ (x :: post)) = pre ++ post.
Proof. induction pre as [|p pre IH]; simpl; [done | by rewrite IH]. Qed.

Lemma guessCodes_app gs hs : guessCodes (gs ++ hs) = guessCodes gs ++ guessCodes hs.
Proof. unfold guessCodes. apply map_app. Qed.

Lemma guessCodes_elem g gs : g ∈ gs -> guessCode g ∈ guessCodes gs.
Proof. intros H. unfold guessCodes. by apply list_elem_of_fmap_2. Qed.

Lemma guessCodes_inv c gs : c ∈ guessCodes gs -> ∃ g, g ∈ gs /\ guessCode g = c.
Proof.
  unfold guessCodes. intros H. apply list_elem_of_fmap in H as (g & -> & Hin). eauto.
Qed.

(* ===================================================================== *)
(** ** The two loops of [submit] *)
(* ===================================================================== *)

Lemma sameRound_refl st : sameRound st st.
Proof. by repeat split. Qed.

Lemma sameRound_trans st1 st2 st3 :
  sameRound st1 st2 -> sameRound st2 st3 -> sameRound st1 st3.
Proof.
  unfold sameRound. intros (?&?&?&?&?&?&?) (?&?&?&?&?&?&?).
  repeat split; congruence.
Qed.

Section Loops.

Variable countriesData : CountryTable.

Lemma tally_frame gs acc :
  let r := fold_left tallyGuess gs acc in
  sameRound (this acc) (this r) /\ guesses (this r) = guesses (this acc).
Proof.
  revert acc. induction gs as [|g gs IH]; intros acc; simpl.
  - split; [apply sameRound_refl | done].
  - destruct (IH (tallyGuess acc g)) as [Hs Hg]. simpl in Hs, Hg.
    assert (sameRound (this acc) (this (tallyGuess acc g)) /\
            guesses (this (tallyGuess acc g)) = guesses (this acc)) as [Hs' Hg'].
    { unfold tallyGuess. destruct (correct g); case_bool_decide; simpl;
        (split; [by repeat split | done]). }
    split; [eapply sameRound_trans; eauto | congruence].
Qed.

Lemma tally_sets gs acc :
  let r := fold_left tallyGuess gs acc in
  correctGuesses (this r) = correctGuesses (this acc) ∪ correctCodes gs /\
  userCorrectGuesses (this r) =
    userCorrectGuesses (this acc) ∪ (correctCodes gs ∖ correctGuesses (this acc)) /\
  incorrectGuesses (this r) = incorrectGuesses (this acc) ∪ incorrectCodes gs.
Proof.
  revert acc. unfold correctCodes, incorrectCodes.
  induction gs as [|g gs IH]; intros acc; simpl.
  - set_solver.
  - destruct (IH (tallyGuess acc g)) as (Hc & Hu & Hi). simpl in Hc, Hu, Hi.
    rewrite Hc, Hu, Hi. clear Hc Hu Hi IH.
    unfold tallyGuess. destruct (correct g); simpl; case_bool_decide; simpl.
    all: repeat split.
    all: try (apply set_eq; intros x; destruct (decide (x = guessCode g)); set_solver).
Qed.

Lemma tally_counters gs acc :
  let r := fold_left tallyGuess gs acc in
  loopGains r =
    loopGains acc + Z.of_nat (size (correctCodes gs ∖ correctGuesses (this acc))) /\
  loopLosses r =
    loopLosses acc + Z.of_nat (size (incorrectCodes gs ∖ incorrectGuesses (this acc))).
Proof.
  revert acc. unfold correctCodes, incorrectCodes.
  induction gs as [|g gs IH]; intros acc; simpl.
  - rewrite !difference_disjoint_L by set_solver.
    replace (size (∅ : gset string)) with 0%nat by done. lia.
  - destruct (IH (tallyGuess acc g)) as (Hg & Hl). simpl in Hg, Hl.
    rewrite Hg, Hl. clear Hg Hl IH.
    unfold tallyGuess. destruct (correct g) eqn:Ec; simpl; case_bool_decide as Hin; simpl.
    + split; [| done]. do 2 f_equal. f_equal. set_solver.
    + split; [| done].
      generalize (list_to_set (guessCodes (List.filter correct gs)) : gset string).
      intros rest.
      replace (({[guessCode g]} ∪ rest) ∖ correctGuesses (this acc))
        with ({[guessCode g]} ∪ rest ∖ ({[guessCode g]} ∪ correctGuesses (this acc))).
      2:{ apply set_eq. intros x. destruct (decide (x = guessCode g)); set_solver. }
      rewrite (size_union {[guessCode g]} (rest ∖ _)) by set_solver.
      rewrite size_singleton. lia.
    + split; [done |]. do 2 f_equal. f_equal. set_solver.
    + split; [done |].
      generalize (list_to_set (guessCodes (List.filter (λ g0, negb (correct g0)) gs))
                  : gset string).
      intros rest.
      replace (({[guessCode g]} ∪ rest) ∖ incorrectGuesses (this acc))
        with ({[guessCode g]} ∪ rest ∖ ({[guessCode g]} ∪ incorrectGuesses (this acc))).
      2:{ apply set_eq. intros x. destruct (decide (x = guessCode g)); set_solver. }
      rewrite (size_union {[guessCode g]} (rest ∖ _)) by set_solver.
      rewrite size_singleton. lia.
Qed.

(** One turn of the second loop. *)
Lemma revealMissed_found acc c :
  c ∈ guessCodes (guesses (this acc)) -> revealMissed countriesData acc c = acc.
Proof.
  intros Hin. unfold revealMissed.
  destruct (findGuess_is_Some _ _ Hin) as [g ->]. done.
Qed.

Lemma revealMissed_known acc c country :
  c ∉ guessCodes (guesses (this acc)) -> getProp countriesData c = Some country ->
  revealMissed countriesData acc c =
  mkSubmitLoop
    (setCorrectGuesses ({[c]} ∪ correctGuesses (this acc))
       (setGuesses (guesses (this acc) ++ [mkGuess c (name country) true true])
          (this acc)))
    (loopGains acc) (loopLosses acc + 1).
Proof.
  intros Hin Hc. unfold revealMissed.
  apply findGuess_None in Hin. by rewrite Hin, Hc.
Qed.

Lemma revealMissed_unknown acc c :
  c ∉ guessCodes (guesses (this acc)) -> getProp countriesData c = None ->
  revealMissed countriesData acc c =
  mkSubmitLoop
    (setCorrectGuesses ({[c]} ∪ correctGuesses (this acc))
       (setGuesses (guesses (this acc)) (this acc)))
    (loopGains acc) (loopLosses acc + 1).
Proof.
  intros Hin Hc. unfold revealMissed.
  apply findGuess_None in Hin. by rewrite Hin, Hc.
Qed.

(** The three ways a turn can go. *)
Ltac revealMissed_cases acc c Hin Hc :=
  destruct (decide (c ∈ guessCodes (guesses (this acc)))) as [Hin|Hin];
  [ rewrite (revealMissed_found acc c Hin)
  | destruct (getProp countriesData c) as [?country|] eqn:Hc;
    [ rewrite (revealMissed_known acc c _ Hin Hc)
    | rewrite (revealMissed_unknown acc c Hin Hc) ] ].

Lemma reveal_frame ns acc :
  let r := fold_left (revealMissed countriesData) ns acc in
  sameRound (this acc) (this r) /\
  userCorrectGuesses (this r) = userCorrectGuesses (this acc) /\
  incorrectGuesses (this r) = incorrectGuesses (this acc) /\
  loopGains r = loopGains acc.
Proof.
  revert acc. induction ns as [|c ns IH]; intros acc; simpl.
  - split; [apply sameRound_refl | done].
  - specialize (IH (revealMissed countriesData acc c)). simpl in IH.
    revert IH. revealMissed_cases acc c Hin Hc; [done | |]; simpl;
      intros (Hs & -> & -> & ->); (split; [| done]);
      (eapply sameRound_trans; [| exact Hs]); by repeat split.
Qed.

Lemma reveal_correct ns acc :
  let r := fold_left (revealMissed countriesData) ns acc in
  correctGuesses (this r) =
  correctGuesses (this acc)
    ∪ (list_to_set ns ∖ list_to_set (guessCodes (guesses (this acc)))).
Proof.
  revert acc. induction ns as [|c ns IH]; intros acc; simpl.
  - set_solver.
  - rewrite IH. clear IH.
    revealMissed_cases acc c Hin Hc; simpl.
    + set_solver.
    + rewrite guessCodes_app. simpl. apply set_eq. intros x.
      destruct (decide (x = c)); set_solver.
    + apply set_eq. intros x. destruct (decide (x = c)); set_solver.
Qed.

(** The second loop only appends, and what it appends are guesses marked
    correct and revealed, one for each of some neighbour codes that had no
    guess. *)
Lemma reveal_guesses ns acc :
  let r := fold_left (revealMissed countriesData) ns acc in
  ∃ extra,
    guesses (this r) = guesses (this acc) ++ extra /\
    NoDup (guessCodes extra) /\
    ∀ g, g ∈ extra ->
         correct g = true /\ guessRevealed g = true /\ guessCode g ∈ ns /\
         guessCode g ∉ guessCodes (guesses (this acc)).
Proof.
  revert acc. induction ns as [|c ns IH]; intros acc; simpl.
  - exists []. rewrite app_nil_r. split; [done |]. split; [constructor |].
    intros g Hg. by apply elem_of_nil in Hg.
  - specialize (IH (revealMissed countriesData acc c)). simpl in IH.
    revert IH. revealMissed_cases acc c Hin Hc; simpl.
    + intros (extra & Hg & Hnd & Hall). exists extra. repeat split; auto;
        destruct (Hall g) as (?&?&?&?); auto. by apply elem_of_cons; right.
    + intros (extra & Hg & Hnd & Hall).
      exists (mkGuess c (name country) true true :: extra).
      split; [by rewrite Hg, <- app_assoc |]. split.
      * simpl. apply NoDup_cons. split; [| done].
        intros Hc'. apply guessCodes_inv in Hc' as (g & Hgin & Hgc).
        destruct (Hall g Hgin) as (_ & _ & _ & Hnot). apply Hnot.
        rewrite guessCodes_app, Hgc. apply elem_of_app. right. simpl.
        apply list_elem_of_singleton. done.
      * intros g Hgin. apply elem_of_cons in Hgin as [-> | Hgin]; simpl.
        { repeat split; auto. by apply elem_of_cons; left. }
        destruct (Hall g Hgin) as (? & ? & ? & Hnot). repeat split; auto.
        { by apply elem_of_cons; right. }
        intros Hx. apply Hnot. rewrite guessCodes_app. apply elem_of_app. by left.
    + intros (extra & Hg & Hnd & Hall). exists extra. repeat split; auto;
        destruct (Hall g) as (?&?&?&?); auto. by apply elem_of_cons; right.
Qed.

(** When the country table knows every neighbour code, every neighbour
    code has a guess after the second loop. *)
Lemma reveal_covers ns acc :
  (∀ c, c ∈ ns -> is_Some (getProp countriesData c)) ->
  let r := fold_left (revealMissed countriesData) ns acc in
  ∀ c, c ∈ ns -> c ∈ guessCodes (guesses (this r)).
Proof.
  revert acc. induction ns as [|c0 ns IH]; intros acc Hknown; simpl.
  - intros c Hc. by apply elem_of_nil in Hc.
  - intros c Hc. apply elem_of_cons in Hc as [-> | Hc].
    2:{ apply IH; [| done]. intros x Hx. apply Hknown. by apply elem_of_cons; right. }
    destruct (reveal_guesses ns (revealMissed countriesData acc c0))
      as (extra & Hg & _). simpl in Hg. rewrite Hg, guessCodes_app.
    apply elem_of_app. left.
    revealMissed_cases acc c0 Hin Hc; simpl; [done | |].
    + rewrite guessCodes_app. apply elem_of_app. right. simpl.
      by apply list_elem_of_singleton.
    + destruct (Hknown c0) as [x Hx]; [by apply elem_of_cons; left | congruence].
Qed.

(** The second loop counts one loss for each neighbour code without a
    guess, when no code is listed twice or the table knows them all. *)
Lemma reveal_losses ns acc :
  NoDup ns \/ (∀ c, c ∈ ns -> is_Some (getProp countriesData c)) ->
  let r := fold_left (revealMissed countriesData) ns acc in
  loopLosses r =
  loopLosses acc
  + Z.of_nat (size (list_to_set ns ∖ list_to_set (guessCodes (guesses (this acc)))
                    : gset string)).
Proof.
  revert acc. induction ns as [|c ns IH]; intros acc Hns; simpl.
  - replace (∅ ∖ list_to_set (guessCodes (guesses (this acc))) : gset string)
      with (∅ : gset string) by set_solver.
    rewrite size_empty. lia.
  - assert (NoDup ns \/ (∀ c, c ∈ ns -> is_Some (getProp countriesData c))) as Hns'.
    { destruct Hns as [Hnd | Hk]; [left; by apply NoDup_cons in Hnd as [_ ?] |].
      right. intros x Hx. apply Hk. by apply elem_of_cons; right. }
    rewrite (IH _ Hns'). clear IH.
    assert (c ∉ ns -> c ∉ (list_to_set ns : gset string)) as HS
      by (by rewrite elem_of_list_to_set).
    revert HS. generalize (list_to_set ns : gset string). intros S HS.
    revealMissed_cases acc c Hin Hc; simpl.
    + do 2 f_equal. f_equal. set_solver.
    + rewrite guessCodes_app, list_to_set_app_L. simpl.
      rewrite (right_id_L (∅ : gset string) (∪)).
      assert (c ∉ (list_to_set (guessCodes (guesses (this acc))) : gset string)) as HG
        by (by rewrite elem_of_list_to_set).
      revert HG.
      generalize (list_to_set (guessCodes (guesses (this acc))) : gset string).
      intros G HG.
      replace (({[c]} ∪ S) ∖ G) with ({[c]} ∪ S ∖ (G ∪ {[c]})).
      2:{ apply set_eq. intros x. destruct (decide (x = c)); set_solver. }
      rewrite (size_union {[c]} (S ∖ _)) by set_solver. rewrite size_singleton. lia.
    + destruct Hns as [Hnd | Hk].
      2:{ destruct (Hk c) as [x Hx]; [by apply elem_of_cons; left | congruence]. }
      apply NoDup_cons in Hnd as [Hnotin _].
      assert (c ∉ S) as HcS by auto.
      assert (c ∉ (list_to_set (guessCodes (guesses (this acc))) : gset string)) as HG
        by (by rewrite elem_of_list_to_set).
      revert HG.
      generalize (list_to_set (guessCodes (guesses (this acc))) : gset string).
      intros G HG.
      replace (({[c]} ∪ S) ∖ G) with ({[c]} ∪ S ∖ G).
      2:{ apply set_eq. intros x. destruct (decide (x = c)); set_solver. }
      rewrite (size_union {[c]} (S ∖ _)) by set_solver. rewrite size_singleton. lia.
Qed.

End Loops.

(* ===================================================================== *)
(** ** [submit] as a whole *)
(* ===================================================================== *)

Lemma submit_empty cd st :
  guesses st = [] -> submit cd st = (st, SubmitFailure NoGuessesToSubmit).
Proof. intros H. unfold submit. by rewrite H. Qed.

Lemma submit_succeeds cd st :
  guesses st ≠ [] -> ∃ st' r, submit cd st = (st', SubmitSuccess r).
Proof. intros H. unfold submit. destruct (guesses st); [done | eauto]. Qed.

(** The state from which the two loops start. *)
Lemma submit_unfold cd st st' r :
  submit cd st = (st', SubmitSuccess r) ->
  let marked := setRevealed true (setSubmitted true st) in
  let tallied := fold_left tallyGuess (guesses st) (mkSubmitLoop marked 0 0) in
  let resolved := fold_left (revealMissed cd) (neighbors st) tallied in
  st' = setScores (score st + (loopGains resolved - loopLosses resolved))
          (loopGains resolved) (loopLosses resolved) (this resolved) /\
  gains r = loopGains resolved /\ losses r = loopLosses resolved /\
  totalCorrect r = Z.of_nat (size (correctGuesses (this resolved))) /\
  totalNeighbors r = Z.of_nat (length (neighbors st)) /\
  isComplete r = true.
Proof.
  unfold submit. destruct (guesses st) as [|g gs] eqn:Hgs; [done |].
  intros H. inversion H; subst; clear H. rewrite <- Hgs. clear Hgs g gs.
  change (guesses (setRevealed true (setSubmitted true st))) with (guesses st).
  set (marked := setRevealed true (setSubmitted true st)).
  set (tallied := fold_left tallyGuess (guesses st) (mkSubmitLoop marked 0 0)).
  pose proof (tally_frame (guesses st) (mkSubmitLoop marked 0 0)) as [Hs _].
  fold tallied in Hs. simpl in Hs.
  destruct Hs as (_ & _ & Hn & _ & _ & Hsc & _). simpl in Hn, Hsc.
  rewrite Hn. cbv zeta.
  set (resolved := fold_left (revealMissed cd) (neighbors st) tallied).
  pose proof (reveal_frame cd (neighbors st) tallied) as [Hs' _].
  fold resolved in Hs'. simpl in Hs'.
  destruct Hs' as (_ & _ & Hn' & _ & _ & Hsc' & _).
  simpl. rewrite Hsc', Hsc, Hn', Hn. done.
Qed.

(** What [submit] leaves alone, and the flags it sets. *)
Lemma submit_frame cd st st' r :
  submit cd st = (st', SubmitSuccess r) ->
  targetCountry st' = targetCountry st /\
  targetCountryCode st' = targetCountryCode st /\
  neighbors st' = neighbors st /\
  round st' = round st /\
  submitted st' = true /\ revealed st' = true /\
  score st' = score st + (gains r - losses r) /\
  lastRoundGains st' = gains r /\ lastRoundLosses st' = losses r /\
  totalCorrect r = Z.of_nat (size (correctGuesses st')) /\
  totalNeighbors r = Z.of_nat (length (neighbors st)) /\
  isComplete r = true.
Proof.
  intros H. apply submit_unfold in H. simpl in H.
  destruct H as (-> & -> & -> & -> & -> & ->). simpl.
  set (marked := setRevealed true (setSubmitted true st)).
  pose proof (tally_frame (guesses st) (mkSubmitLoop marked 0 0)) as [Hs _].
  pose proof (reveal_frame cd (neighbors st)
                (fold_left tallyGuess (guesses st) (mkSubmitLoop marked 0 0)))
    as [Hs' _].
  simpl in Hs, Hs'.
  pose proof (sameRound_trans _ _ _ Hs Hs') as (?&?&?&?&?&?&?).
  simpl in *. repeat split; auto.
Qed.

(** The three sets after [submit]. *)
Lemma submit_sets cd st st' r :
  submit cd st = (st', SubmitSuccess r) ->
  correctGuesses st' = correctGuesses st ∪ correctCodes (guesses st) ∪ missedCodes st /\
  userCorrectGuesses st' =
    userCorrectGuesses st ∪ (correctCodes (guesses st) ∖ correctGuesses st) /\
  incorrectGuesses st' = incorrectGuesses st ∪ incorrectCodes (guesses st).
Proof.
  intros H. apply submit_unfold in H. simpl in H.
  destruct H as (-> & _). simpl. unfold missedCodes, answerSet.
  set (marked := setRevealed true (setSubmitted true st)).
  set (tallied := fold_left tallyGuess (guesses st) (mkSubmitLoop marked 0 0)).
  pose proof (tally_sets (guesses st) (mkSubmitLoop marked 0 0)) as (Hc & Hu & Hi).
  pose proof (tally_frame (guesses st) (mkSubmitLoop marked 0 0)) as [_ Hg].
  pose proof (reveal_frame cd (neighbors st) tallied) as (_ & Hu' & Hi' & _).
  pose proof (reveal_correct cd (neighbors st) tallied) as Hc'.
  simpl in *. fold tallied in Hc, Hu, Hi, Hg.
  rewrite Hc', Hu', Hi', Hc, Hu, Hi, Hg. done.
Qed.

(** The guess list after [submit]: the guesses there were, then the
    revealed ones. *)
Lemma submit_guesses cd st st' r :
  submit cd st = (st', SubmitSuccess r) ->
  ∃ extra,
    guesses st' = guesses st ++ extra /\
    NoDup (guessCodes extra) /\
    ∀ g, g ∈ extra ->
         correct g = true /\ guessRevealed g = true /\ guessCode g ∈ neighbors st /\
         guessCode g ∉ guessCodes (guesses st).
Proof.
  intros H. apply submit_unfold in H. simpl in H.
  destruct H as (-> & _). simpl.
  set (marked := setRevealed true (setSubmitted true st)).
  set (tallied := fold_left tallyGuess (guesses st) (mkSubmitLoop marked 0 0)).
  pose proof (tally_frame (guesses st) (mkSubmitLoop marked 0 0)) as [_ Hg].
  pose proof (reveal_guesses cd (neighbors st) tallied) as (extra & He & Hnd & Hall).
  simpl in *. fold tallied in Hg. rewrite Hg in He, Hall. eauto.
Qed.

Lemma submit_covers cd st st' r :
  submit cd st = (st', SubmitSuccess r) -> answersKnown cd st ->
  ∀ c, c ∈ neighbors st -> c ∈ guessCodes (guesses st').
Proof.
  intros H Hk. apply submit_unfold in H. simpl in H.
  destruct H as (-> & _). simpl.
  apply (reveal_covers cd (neighbors st)). exact Hk.
Qed.

(** The two counters after [submit]. *)
Lemma submit_gains cd st st' r :
  submit cd st = (st', SubmitSuccess r) ->
  gains r = Z.of_nat (size (correctCodes (guesses st) ∖ correctGuesses st)).
Proof.
  intros H. apply submit_unfold in H. simpl in H.
  destruct H as (_ & -> & _).
  set (marked := setRevealed true (setSubmitted true st)).
  set (tallied := fold_left tallyGuess (guesses st) (mkSubmitLoop marked 0 0)).
  pose proof (reveal_frame cd (neighbors st) tallied) as (_ & _ & _ & Hg).
  pose proof (tally_counters (guesses st) (mkSubmitLoop marked 0 0)) as [Hg' _].
  simpl in *. fold tallied in Hg'. rewrite Hg, Hg'. simpl. lia.
Qed.

Lemma submit_losses cd st st' r :
  submit cd st = (st', SubmitSuccess r) ->
  NoDup (neighbors st) \/ answersKnown cd st ->
  losses r =
  Z.of_nat (size (incorrectCodes (guesses st) ∖ incorrectGuesses st))
  + Z.of_nat (size (missedCodes st)).
Proof.
  intros H Hns. apply submit_unfold in H. simpl in H.
  destruct H as (_ & _ & -> & _). unfold missedCodes, answerSet.
  set (marked := setRevealed true (setSubmitted true st)).
  set (tallied := fold_left tallyGuess (guesses st) (mkSubmitLoop marked 0 0)).
  pose proof (reveal_losses cd (neighbors st) tallied Hns) as Hl.
  pose proof (tally_counters (guesses st) (mkSubmitLoop marked 0 0)) as [_ Hl'].
  pose proof (tally_frame (guesses st) (mkSubmitLoop marked 0 0)) as [_ Hg].
  simpl in *. fold tallied in Hl', Hg. rewrite Hl, Hl', Hg. simpl. lia.
Qed.

(* ===================================================================== *)
(** ** The loop of [reveal] *)
(* ===================================================================== *)

Lemma revealNeighbor_frame cd ns st :
  let r := fold_left (revealNeighbor cd) ns st in
  sameRound st r /\
  userCorrectGuesses r = userCorrectGuesses st /\
  incorrectGuesses r = incorrectGuesses st /\
  correctGuesses r = correctGuesses st ∪ list_to_set ns.
Proof.
  revert st. induction ns as [|c ns IH]; intros st; simpl.
  - split; [apply sameRound_refl |]. set_solver.
  - destruct (IH (revealNeighbor cd st c)) as (Hs & -> & -> & ->). simpl.
    split; [| set_solver].
    eapply sameRound_trans; [| exact Hs]. by repeat split.
Qed.

Lemma revealNeighbor_guesses cd ns st :
  let r := fold_left (revealNeighbor cd) ns st in
  ∃ extra,
    guesses r = guesses st ++ extra /\
    NoDup (guessCodes extra) /\
    ∀ g, g ∈ extra ->
         correct g = true /\ guessCode g ∈ ns /\ guessCode g ∉ guessCodes (guesses st).
Proof.
  revert st. induction ns as [|c ns IH]; intros st; simpl.
  - exists []. rewrite app_nil_r. split; [done |]. split; [constructor |].
    intros g Hg. by apply elem_of_nil in Hg.
  - destruct (IH (revealNeighbor cd st c)) as (extra & Hg & Hnd & Hall).
    simpl in Hg, Hall. rewrite Hg. clear Hg IH.
    destruct (findGuess c (guesses st)) as [existing|] eqn:Hf;
      [| destruct (getProp cd c) as [country|] eqn:Hc].
    + exists extra. repeat split; auto;
        destruct (Hall g) as (?&?&?); auto. by apply elem_of_cons; right.
    + apply findGuess_None in Hf.
      exists (mkGuess c (name country) true false :: extra).
      split; [by rewrite <- app_assoc |]. split.
      * simpl. apply NoDup_cons. split; [| done].
        intros Hc'. apply guessCodes_inv in Hc' as (g & Hgin & Hgc).
        destruct (Hall g Hgin) as (_ & _ & Hnot). apply Hnot.
        rewrite guessCodes_app, Hgc. apply elem_of_app. right. simpl.
        by apply list_elem_of_singleton.
      * intros g Hgin. apply elem_of_cons in Hgin as [-> | Hgin]; simpl.
        { repeat split; auto. by apply elem_of_cons; left. }
        destruct (Hall g Hgin) as (? & ? & Hnot). repeat split; auto.
        { by apply elem_of_cons; right. }
        intros Hx. apply Hnot. rewrite guessCodes_app. apply elem_of_app. by left.
    + exists extra. repeat split; auto;
        destruct (Hall g) as (?&?&?); auto. by apply elem_of_cons; right.
Qed.

(* ===================================================================== *)
(** ** Every reachable state is consistent *)
(* ===================================================================== *)

Lemma getProp_elem {A} (table : list (string * A)) key v :
  getProp table key = Some v -> (key, v) ∈ table.
Proof.
  induction table as [|[k w] rest IH]; simpl; [done |].
  case_bool_decide as Hk.
  - intros [= ->]. subst. by apply elem_of_cons; left.
  - intros H. apply elem_of_cons. right. auto.
Qed.

(** Appending guesses that are sound and new keeps the list sound and
    duplicate-free. *)
Lemma guesses_extend (ns : list string) gs extra :
  (∀ g, g ∈ gs -> correct g = bool_decide (guessCode g ∈ ns)) ->
  NoDup (guessCodes gs) ->
  NoDup (guessCodes extra) ->
  (∀ g, g ∈ extra -> correct g = true /\ guessCode g ∈ ns /\
                     guessCode g ∉ guessCodes gs) ->
  (∀ g, g ∈ gs ++ extra -> correct g = bool_decide (guessCode g ∈ ns)) /\
  NoDup (guessCodes (gs ++ extra)).
Proof.
  intros Hs Hnd Hnd' Hall. split.
  - intros g Hg. apply elem_of_app in Hg as [Hg | Hg]; [auto |].
    destruct (Hall g Hg) as (-> & Hin & _). by rewrite bool_decide_eq_true_2.
  - rewrite guessCodes_app. apply NoDup_app. split; [done |]. split; [| done].
    intros c Hc Hc'. apply guessCodes_inv in Hc' as (g & Hg & <-).
    by destruct (Hall g Hg) as (_ & _ & Hnot).
Qed.

Lemma correctCodes_sound st :
  guessesSound st -> correctCodes (guesses st) ⊆ answerSet st.
Proof.
  intros Hs c Hc. unfold correctCodes in Hc. apply elem_of_list_to_set in Hc.
  apply guessCodes_inv in Hc as (g & Hg & <-).
  apply list_elem_of_In, filter_In in Hg as [Hg Hcor].
  apply list_elem_of_In in Hg. rewrite (Hs g Hg) in Hcor.
  apply bool_decide_eq_true in Hcor. unfold answerSet. by apply elem_of_list_to_set.
Qed.

Section Invariant.

Variable countriesData : CountryTable.
Variable neighborsData : NeighborTable.

Lemma consistent_reset : Consistent neighborsData reset.
Proof.
  split; simpl.
  - intros g Hg. by apply elem_of_nil in Hg.
  - constructor.
  - set_solver.
  - set_solver.
  - by left.
  - intros _. repeat split; auto. intros g Hg. by apply elem_of_nil in Hg.
Qed.

Lemma consistent_setRound n st :
  Consistent neighborsData st -> Consistent neighborsData (setRound n st).
Proof. intros [Hs Hn Hc Hu Ht Hg]. by split. Qed.

Lemma consistent_startNewRound draw st :
  Consistent neighborsData st ->
  Consistent neighborsData (fst (startNewRound countriesData neighborsData draw st)).
Proof.
  intros H. unfold startNewRound.
  destruct (getRandomCountryWithNeighbors countriesData neighborsData draw)
    as [country|]; [| done].
  split; simpl.
  - intros g Hg. by apply elem_of_nil in Hg.
  - constructor.
  - set_solver.
  - set_solver.
  - unfold getNeighbors.
    destruct (getProp neighborsData (code country)) as [ns|] eqn:E; [| by left].
    right. exists (code country). by apply getProp_elem.
  - intros _. repeat split; auto. intros g Hg. by apply elem_of_nil in Hg.
Qed.

Lemma consistent_nextRound draw st :
  Consistent neighborsData st ->
  Consistent neighborsData (fst (nextRound countriesData neighborsData draw st)).
Proof.
  intros H. unfold nextRound. by apply consistent_startNewRound, consistent_setRound.
Qed.

Lemma consistent_addGuess countryName st :
  Consistent neighborsData st ->
  Consistent neighborsData (fst (addGuess countriesData countryName st)).
Proof.
  intros H. unfold addGuess.
  destruct (findCountryByName countryName (Some countriesData)) as [country|]; [| done].
  destruct (findGuess (code country) (guesses st)) as [existing|] eqn:Hf; [done |].
  apply findGuess_None in Hf. destruct H as [Hs Hn Hc Hu Ht Hg]. simpl.
  split; simpl.
  - intros g Hin. simpl in Hin.
    apply elem_of_app in Hin as [Hin | Hin]; [by apply Hs |].
    apply list_elem_of_singleton in Hin. by subst.
  - rewrite guessCodes_app. apply NoDup_app. split; [done |]. split.
    + intros c Hc1 Hc2. simpl in Hc2. apply list_elem_of_singleton in Hc2. by subst.
    + simpl. apply NoDup_singleton.
  - done.
  - done.
  - done.
  - intros HG. destruct (Hg HG) as (? & ? & ? & Hr). repeat split; auto.
    intros g Hin. apply elem_of_app in Hin as [Hin | Hin]; [by apply Hr |].
    apply list_elem_of_singleton in Hin. by subst.
Qed.

Lemma consistent_removeGuess countryCode st :
  Consistent neighborsData st ->
  Consistent neighborsData (fst (removeGuess countryCode st)).
Proof.
  intros H. unfold removeGuess.
  destruct (findGuessIndex countryCode (guesses st)) as [i|] eqn:Hf; [| done].
  apply findGuessIndex_Some in Hf as (pre & g & post & Hgs & _ & _ & ->).
  destruct H as [Hs Hn Hc Hu Ht Hg]. unfold guessesSound in Hs.
  rewrite Hgs in *. simpl. rewrite delete_middle.
  assert (∀ x, x ∈ pre ++ post -> x ∈ pre ++ g :: post) as Hsub.
  { intros x Hx. apply elem_of_app in Hx as [Hx | Hx]; apply elem_of_app;
      [by left | right; by apply elem_of_cons; right]. }
  split; simpl.
  - intros x Hx. simpl in Hx. auto.
  - rewrite guessCodes_app in *. simpl in Hn.
    apply NoDup_app in Hn as (Hn1 & Hn2 & Hn3). apply NoDup_cons in Hn3 as [_ Hn3].
    apply NoDup_app. split; [done |]. split; [| done].
    intros c Hc1 Hc2. apply (Hn2 c Hc1). by apply elem_of_cons; right.
  - done.
  - done.
  - done.
  - intros HG. destruct (Hg HG) as (? & ? & ? & Hr). repeat split; auto.
Qed.

Lemma consistent_submit st :
  Consistent neighborsData st ->
  Consistent neighborsData (fst (submit countriesData st)).
Proof.
  intros H. destruct (guesses st) as [|g0 gs0] eqn:Hgs.
  { by rewrite submit_empty. }
  destruct (submit_succeeds countriesData st) as (st' & r & Hsub); [by rewrite Hgs |].
  rewrite Hsub. simpl. clear Hgs g0 gs0.
  destruct (submit_frame _ _ _ _ Hsub) as (_ & _ & Hn & _ & Hsb & _).
  destruct (submit_sets _ _ _ _ Hsub) as (Hc & Hu & _).
  destruct (submit_guesses _ _ _ _ Hsub) as (extra & Hg & Hnd & Hall).
  destruct H as [Hs Hnd0 Hc0 Hu0 Ht0 Hg0].
  destruct (guesses_extend (neighbors st) (guesses st) extra) as [Hs' Hnd']; auto.
  { intros g Hin. destruct (Hall g Hin) as (?&?&?&?). auto. }
  pose proof (correctCodes_sound st Hs) as Hcs.
  split.
  - unfold guessesSound. rewrite Hg, Hn. exact Hs'.
  - by rewrite Hg.
  - rewrite Hc. unfold answerSet, missedCodes in *. rewrite Hn. set_solver.
  - rewrite Hc, Hu. set_solver.
  - by rewrite Hn.
  - intros [HG _]. congruence.
Qed.

Lemma consistent_reveal st :
  Consistent neighborsData st ->
  Consistent neighborsData (fst (reveal countriesData st)).
Proof.
  intros [Hs Hnd0 Hc0 Hu0 Ht0 Hg0]. unfold reveal. simpl.
  pose proof (revealNeighbor_frame countriesData (neighbors st) (setRevealed true st))
    as (Hf & Hu & _ & Hc).
  pose proof (revealNeighbor_guesses countriesData (neighbors st) (setRevealed true st))
    as (extra & Hg & Hnd & Hall).
  simpl in *. destruct Hf as (_ & _ & Hn & _ & Hr & _). simpl in Hn, Hr.
  destruct (guesses_extend (neighbors st) (guesses st) extra) as [Hs' Hnd']; auto.
  split.
  - unfold guessesSound. rewrite Hg, Hn. exact Hs'.
  - by rewrite Hg.
  - rewrite Hc. unfold answerSet in *. rewrite Hn. set_solver.
  - rewrite Hc, Hu. set_solver.
  - by rewrite Hn.
  - intros [_ HG]. congruence.
Qed.

Lemma reachable_consistent st :
  Reachable countriesData neighborsData st -> Consistent neighborsData st.
Proof.
  induction 1;
    auto using consistent_reset, consistent_startNewRound, consistent_nextRound,
      consistent_addGuess, consistent_removeGuess, consistent_submit, consistent_reveal.
Qed.

End Invariant.

(* ===================================================================== *)
(** ** Counting codes *)
(* ===================================================================== *)

Lemma correctCodes_app gs hs : correctCodes (gs ++ hs) = correctCodes gs ∪ correctCodes hs.
Proof.
  unfold correctCodes. by rewrite List.filter_app, guessCodes_app, list_to_set_app_L.
Qed.

Lemma incorrectCodes_app gs hs :
  incorrectCodes (gs ++ hs) = incorrectCodes gs ∪ incorrectCodes hs.
Proof.
  unfold incorrectCodes. by rewrite List.filter_app, guessCodes_app, list_to_set_app_L.
Qed.

Lemma correctCodes_elem c gs :
  c ∈ correctCodes gs <-> ∃ g, g ∈ gs /\ guessCode g = c /\ correct g = true.
Proof.
  unfold correctCodes. rewrite elem_of_list_to_set. split.
  - intros H. apply guessCodes_inv in H as (g & Hg & <-).
    apply list_elem_of_In, filter_In in Hg as [Hg Hc]. apply list_elem_of_In in Hg. eauto.
  - intros (g & Hg & <- & Hc). apply guessCodes_elem, list_elem_of_In, filter_In.
    split; [by apply list_elem_of_In | done].
Qed.

Lemma incorrectCodes_elem c gs :
  c ∈ incorrectCodes gs <-> ∃ g, g ∈ gs /\ guessCode g = c /\ correct g = false.
Proof.
  unfold incorrectCodes. rewrite elem_of_list_to_set. split.
  - intros H. apply guessCodes_inv in H as (g & Hg & <-).
    apply list_elem_of_In, filter_In in Hg as [Hg Hc]. apply list_elem_of_In in Hg.
    apply negb_true_iff in Hc. eauto.
  - intros (g & Hg & <- & Hc). apply guessCodes_elem, list_elem_of_In, filter_In.
    split; [by apply list_elem_of_In | by rewrite Hc].
Qed.

Lemma guessCodes_filter_NoDup (p : Guess -> bool) gs :
  NoDup (guessCodes gs) -> NoDup (guessCodes (List.filter p gs)).
Proof.
  unfold guessCodes. induction gs as [|g gs IH]; simpl; [done |].
  intros Hnd. apply NoDup_cons in Hnd as [Hnot Hnd].
  destruct (p g); simpl; [| by apply IH].
  apply NoDup_cons. split; [| by apply IH].
  intros Hin. apply Hnot. apply list_elem_of_fmap in Hin as (x & Hx & Hin).
  apply list_elem_of_In, filter_In in Hin as [Hin _]. apply list_elem_of_In in Hin.
  rewrite Hx. by apply list_elem_of_fmap_2.
Qed.

Lemma correctCodes_size gs :
  NoDup (guessCodes gs) -> size (correctCodes gs) = length (List.filter correct gs).
Proof.
  intros Hnd. unfold correctCodes.
  rewrite size_list_to_set by by apply guessCodes_filter_NoDup.
  unfold guessCodes. by rewrite length_map.
Qed.

Lemma filter_all_false {A} (p : A -> bool) l :
  (∀ x, x ∈ l -> p x = false) -> List.filter p l = [].
Proof.
  induction l as [|x l IH]; simpl; [done |]. intros H.
  rewrite (H x) by (by apply elem_of_cons; left).
  apply IH. intros y Hy. apply H. by apply elem_of_cons; right.
Qed.

Lemma filter_agree {A} (p q : A -> bool) l :
  (∀ x, x ∈ l -> p x = q x) -> List.filter p l = List.filter q l.
Proof.
  induction l as [|x l IH]; simpl; [done |]. intros H.
  rewrite (H x) by (by apply elem_of_cons; left).
  rewrite IH; [done |]. intros y Hy. apply H. by apply elem_of_cons; right.
Qed.

Lemma answersKnown_reachable cd nd st :
  neighborsKnown cd nd -> Consistent nd st -> answersKnown cd st.
Proof.
  intros Hk [_ _ _ _ Ht _] c Hc. destruct Ht as [Hnil | [key Hkey]].
  - rewrite Hnil in Hc. by apply elem_of_nil in Hc.
  - by apply (Hk key (neighbors st)).
Qed.

(* ===================================================================== *)
(** ** The round is resolved by [submit] *)
(* ===================================================================== *)

(** C1.  In every state a round can be in (the Guessing state in
    particular) with a non-empty guess list, and when every neighbour code
    of the adjacency table is a key of the country table, [submit] succeeds,
    the [totalCorrect] it returns is the size of the answer set, and
    afterwards every code of the answer set has a guess in the guess list
    that is marked correct and is locked. *)
Theorem submit_resolves_round cd nd st :
  Reachable cd nd st ->
  guesses st ≠ [] ->
  neighborsKnown cd nd ->
  ∃ st' r,
    submit cd st = (st', SubmitSuccess r) /\
    totalCorrect r = Z.of_nat (size (answerSet st)) /\
    answerSet st' = answerSet st /\
    Finalized st' /\
    ∀ c, c ∈ answerSet st ->
         ∃ g, g ∈ guesses st' /\ guessCode g = c /\
              correct g = true /\ isLocked st' g = true.
Proof.
  intros Hreach Hne Hknown.
  pose proof (reachable_consistent cd nd st Hreach) as Hcons.
  pose proof (answersKnown_reachable cd nd st Hknown Hcons) as Hans.
  destruct (submit_succeeds cd st Hne) as (st' & r & Hsub).
  exists st', r. split; [done |].
  destruct (submit_frame _ _ _ _ Hsub)
    as (_ & _ & Hn & _ & Hsb & Hrv & _ & _ & _ & Htc & _).
  destruct (submit_sets _ _ _ _ Hsub) as (Hc & _).
  pose proof (consistent_submit cd nd st Hcons) as Hcons'.
  rewrite Hsub in Hcons'. simpl in Hcons'.
  destruct Hcons as [Hs _ Hc0 _ _ _]. destruct Hcons' as [Hs' _ _ _ _ _].
  assert (correctGuesses st' = answerSet st) as Hall.
  { rewrite Hc. apply set_eq. intros c. split.
    - pose proof (correctCodes_sound st Hs). unfold missedCodes. set_solver.
    - intros Hin. destruct (decide (c ∈ guessCodes (guesses st))) as [Hg | Hg].
      + apply guessCodes_inv in Hg as (g & Hg & <-).
        apply elem_of_union. left. apply elem_of_union. right.
        apply correctCodes_elem. exists g. repeat split; auto.
        rewrite (Hs g Hg). apply bool_decide_eq_true_2.
        unfold answerSet in Hin. by apply elem_of_list_to_set in Hin.
      + apply elem_of_union. right. unfold missedCodes.
        apply elem_of_difference. split; [done |]. by rewrite elem_of_list_to_set. }
  repeat split.
  - by rewrite Htc, Hall.
  - unfold answerSet. by rewrite Hn.
  - exact Hsb.
  - intros c Hin. unfold answerSet in Hin. apply elem_of_list_to_set in Hin.
    pose proof (submit_covers _ _ _ _ Hsub Hans c Hin) as Hg.
    apply guessCodes_inv in Hg as (g & Hg & <-).
    exists g. repeat split; auto.
    + rewrite (Hs' g Hg), Hn. by apply bool_decide_eq_true_2.
    + unfold isLocked. by rewrite Hrv.
Qed.

Lemma franceRound_reachable : Reachable atlasCountries atlasNeighbors franceRound.
Proof. unfold franceRound. repeat constructor. Qed.

Lemma atlas_neighborsKnown : neighborsKnown atlasCountries atlasNeighbors.
Proof.
  intros key ns c Hkey Hc. unfold atlasNeighbors in Hkey.
  repeat (apply elem_of_cons in Hkey as [Hkey | Hkey];
          [ inversion Hkey; subst; clear Hkey;
            repeat (apply elem_of_cons in Hc as [-> | Hc]; [by eexists |]);
            by apply elem_of_nil in Hc | ]).
  by apply elem_of_nil in Hkey.
Qed.

Lemma submit_resolves_round_witness :
  ∃ st' r,
    submit atlasCountries franceRound = (st', SubmitSuccess r) /\
    totalCorrect r = Z.of_nat (size (answerSet franceRound)) /\
    answerSet st' = answerSet franceRound /\
    Finalized st' /\
    ∀ c, c ∈ answerSet franceRound ->
         ∃ g, g ∈ guesses st' /\ guessCode g = c /\
              correct g = true /\ isLocked st' g = true.
Proof.
  apply (submit_resolves_round atlasCountries atlasNeighbors franceRound).
  - exact franceRound_reachable.
  - vm_compute. discriminate.
  - exact atlas_neighborsKnown.
Defined.

(* ===================================================================== *)
(** ** The score *)
(* ===================================================================== *)



(** The numbers of the round on France: one gain (Spain), three losses
    (Portugal is wrong, Andorra and Germany are missed). *)
Example franceRound_delta :
  snd (submit atlasCountries franceRound) = SubmitSuccess (mkSubmitReport 1 3 3 3 true) /\
  score franceFinal = -2.
Proof. vm_compute. done. Qed.

(* ===================================================================== *)
(** ** Submitting twice *)
(* ===================================================================== *)

(** C9, as the claim states it, fails where the adjacency table lists a code
    that the country table does not have: [submit] counts the neighbour as
    missed but pushes no guess for it, so the next [submit] counts it
    again. *)
Lemma double_submit_counterexample :
  ∃ st1 r1 st2 r2,
    submit tornCountries togoRound = (st1, SubmitSuccess r1) /\
    submit tornCountries st1 = (st2, SubmitSuccess r2) /\
    gains r2 = 0 /\ losses r2 = 1 /\ score st1 = -2 /\ score st2 = -3.
Proof.
  eexists _, _, _, _. split; [vm_compute; reflexivity |].
  split; [vm_compute; reflexivity |]. vm_compute. done.
Qed.

(** C9, amended.  When the country table knows every neighbour code of the
    round, a second [submit] right after a successful one succeeds, reports
    no gain and no loss, and leaves the score as it was. *)
Theorem double_submit_idempotent cd st st1 r1 :
  submit cd st = (st1, SubmitSuccess r1) ->
  answersKnown cd st ->
  ∃ st2 r2,
    submit cd st1 = (st2, SubmitSuccess r2) /\
    gains r2 = 0 /\ losses r2 = 0 /\ score st2 = score st1.
Proof.
  intros Hsub Hknown.
  destruct (submit_frame _ _ _ _ Hsub) as (_ & _ & Hn & _).
  destruct (submit_sets _ _ _ _ Hsub) as (Hc & _ & Hi).
  destruct (submit_guesses _ _ _ _ Hsub) as (extra & Hg & _ & Hall).
  pose proof (submit_covers _ _ _ _ Hsub Hknown) as Hcov.
  assert (guesses st ≠ []) as Hne.
  { intros Hnil. rewrite (submit_empty cd st Hnil) in Hsub. done. }
  assert (guesses st1 ≠ []) as Hne1.
  { rewrite Hg. destruct (guesses st); [done | simpl; discriminate]. }
  assert (answersKnown cd st1) as Hknown1.
  { unfold answersKnown. by rewrite Hn. }
  destruct (submit_succeeds cd st1 Hne1) as (st2 & r2 & Hsub2).
  exists st2, r2. split; [done |].
  destruct (submit_frame _ _ _ _ Hsub2) as (_ & _ & _ & _ & _ & _ & Hsc & _).
  pose proof (submit_gains _ _ _ _ Hsub2) as Hgains.
  pose proof (submit_losses _ _ _ _ Hsub2 (or_intror Hknown1)) as Hlosses.
  assert (correctCodes (guesses st1) ∖ correctGuesses st1 = ∅) as E1.
  { apply set_eq. intros c. split; [| set_solver]. intros Hin.
    apply elem_of_difference in Hin as [Hin Hnot]. exfalso. apply Hnot.
    rewrite Hc. rewrite Hg, correctCodes_app in Hin.
    apply elem_of_union in Hin as [Hin | Hin]; [set_solver |].
    apply correctCodes_elem in Hin as (g & Hgin & <- & _).
    destruct (Hall g Hgin) as (_ & _ & Hnb & Hnew).
    apply elem_of_union. right. unfold missedCodes, answerSet.
    apply elem_of_difference. by rewrite !elem_of_list_to_set. }
  assert (incorrectCodes (guesses st1) ∖ incorrectGuesses st1 = ∅) as E2.
  { apply set_eq. intros c. split; [| set_solver]. intros Hin.
    apply elem_of_difference in Hin as [Hin Hnot]. exfalso. apply Hnot.
    rewrite Hi. rewrite Hg, incorrectCodes_app in Hin.
    apply elem_of_union in Hin as [Hin | Hin]; [set_solver |].
    apply incorrectCodes_elem in Hin as (g & Hgin & _ & Hfalse).
    destruct (Hall g Hgin) as (Htrue & _). congruence. }
  assert (missedCodes st1 = ∅) as E3.
  { apply set_eq. intros c. split; [| set_solver]. intros Hin.
    unfold missedCodes, answerSet in Hin.
    apply elem_of_difference in Hin as [Hin Hnot]. exfalso. apply Hnot.
    rewrite elem_of_list_to_set in Hin. rewrite Hn in Hin.
    rewrite elem_of_list_to_set. by apply Hcov. }
  rewrite E1 in Hgains. rewrite E2, E3 in Hlosses. rewrite size_empty in *.
  simpl in Hgains, Hlosses. repeat split; [done | done | lia].
Qed.

Lemma franceRound_answersKnown : answersKnown atlasCountries franceRound.
Proof.
  apply (answersKnown_reachable atlasCountries atlasNeighbors).
  - exact atlas_neighborsKnown.
  - apply reachable_consistent with (countriesData := atlasCountries).
    exact franceRound_reachable.
Qed.

Lemma double_submit_idempotent_witness :
  ∃ st2 r2,
    submit atlasCountries franceFinal = (st2, SubmitSuccess r2) /\
    gains r2 = 0 /\ losses r2 = 0 /\ score st2 = score franceFinal.
Proof.
  apply (double_submit_idempotent atlasCountries franceRound franceFinal
           (mkSubmitReport 1 3 3 3 true)).
  - vm_compute. reflexivity.
  - exact franceRound_answersKnown.
Defined.

(* ===================================================================== *)
(** ** The found counter *)
(* ===================================================================== *)

(** C10.  After [submit] on a round in the Guessing state, the found
    counter of [getState] is the number of correct guesses the player made:
    the correct guesses of the list as it was, which are the correct guesses
    of the new list that are not revealed ones.  It does not exceed the
    number of guesses the player made.  The revealed guesses count in
    [correctCount], one for each missed code, and none of their codes is in
    [userCorrectGuesses]. *)
Theorem found_counts_player_guesses cd nd st :
  Reachable cd nd st ->
  Guessing st ->
  guesses st ≠ [] ->
  ∃ st' r,
    submit cd st = (st', SubmitSuccess r) /\
    progress_found (getState st') =
      Z.of_nat (length (List.filter correct (guesses st))) /\
    progress_found (getState st') =
      Z.of_nat (length (List.filter (fun g => (correct g && negb (guessRevealed g))%bool)
                          (guesses st'))) /\
    progress_found (getState st') <= Z.of_nat (length (guesses st)) /\
    view_correctCount (getState st') =
      progress_found (getState st') + Z.of_nat (size (missedCodes st)) /\
    ∀ g, g ∈ guesses st' -> guessRevealed g = true ->
         (guessCode g ∉ userCorrectGuesses st') /\ guessCode g ∈ missedCodes st.
Proof.
  intros Hreach Hguessing Hne.
  pose proof (reachable_consistent cd nd st Hreach) as [Hs Hnd _ _ _ Hg0].
  destruct (Hg0 Hguessing) as (Ec & Eu & _ & Hunrev).
  destruct (submit_succeeds cd st Hne) as (st' & r & Hsub).
  exists st', r. split; [done |].
  destruct (submit_sets _ _ _ _ Hsub) as (Hc & Hu & _).
  destruct (submit_guesses _ _ _ _ Hsub) as (extra & Hg & _ & Hall).
  rewrite Ec in Hc, Hu. rewrite Eu in Hu.
  assert (userCorrectGuesses st' = correctCodes (guesses st)) as Hu' by set_solver.
  assert (correctGuesses st' = correctCodes (guesses st) ∪ missedCodes st) as Hc'
    by set_solver.
  assert (correctCodes (guesses st) ## missedCodes st) as Hdisj.
  { intros c Hc1 Hc2. apply correctCodes_elem in Hc1 as (g & Hgin & <- & _).
    unfold missedCodes in Hc2. apply elem_of_difference in Hc2 as [_ Hnot].
    apply Hnot. rewrite elem_of_list_to_set. by apply guessCodes_elem. }
  simpl. rewrite Hu', Hc', (size_union (correctCodes _) (missedCodes _)) by done.
  rewrite (correctCodes_size _ Hnd).
  split; [done |]. split; [| split; [| split]].
  - rewrite Hg, List.filter_app, length_app.
    rewrite (filter_all_false _ extra).
    2:{ intros g Hgin. destruct (Hall g Hgin) as (_ & -> & _). by rewrite andb_false_r. }
    simpl. rewrite Nat.add_0_r. do 2 f_equal. apply filter_agree.
    intros g Hgin. rewrite (Hunrev g Hgin). by rewrite andb_true_r.
  - apply inj_le. apply List.filter_length_le.
  - lia.
  - intros g Hgin Hrev. rewrite Hg in Hgin. apply elem_of_app in Hgin as [Hin | Hin].
    { rewrite (Hunrev g Hin) in Hrev. done. }
    destruct (Hall g Hin) as (_ & _ & Hnb & Hnew). split.
    + intros Hc1. apply correctCodes_elem in Hc1 as (g' & Hgin' & Hcode & _).
      apply Hnew. rewrite <- Hcode. by apply guessCodes_elem.
    + unfold missedCodes, answerSet.
      apply elem_of_difference. by rewrite !elem_of_list_to_set.
Qed.

Lemma found_counts_player_guesses_witness :
  ∃ st' r,
    submit atlasCountries franceRound = (st', SubmitSuccess r) /\
    progress_found (getState st') =
      Z.of_nat (length (List.filter correct (guesses franceRound))) /\
    progress_found (getState st') =
      Z.of_nat (length (List.filter (fun g => (correct g && negb (guessRevealed g))%bool)
                          (guesses st'))) /\
    progress_found (getState st') <= Z.of_nat (length (guesses franceRound)) /\
    view_correctCount (getState st') =
      progress_found (getState st') + Z.of_nat (size (missedCodes franceRound)) /\
    ∀ g, g ∈ guesses st' -> guessRevealed g = true ->
         (guessCode g ∉ userCorrectGuesses st') /\ guessCode g ∈ missedCodes franceRound.
Proof.
  apply (found_counts_player_guesses atlasCountries atlasNeighbors franceRound).
  - exact franceRound_reachable.
  - split; reflexivity.
  - vm_compute. discriminate.
Defined.

(** On France: the player found one neighbour, the round shows three. *)
Example franceFinal_found :
  progress_found (getState franceFinal) = 1 /\
  view_correctCount (getState franceFinal) = 3 /\
  progress_total (getState franceFinal) = 3.
Proof. vm_compute. done. Qed.

(* ===================================================================== *)
(** ** One guess for each code *)
(* ===================================================================== *)

Lemma addGuess_nodup cd nm st :
  NoDup (guessCodes (guesses st)) ->
  NoDup (guessCodes (guesses (fst (addGuess cd nm st)))).
Proof.
  intros Hnd. unfold addGuess.
  destruct (findCountryByName nm (Some cd)) as [country|]; [| done].
  destruct (findGuess (code country) (guesses st)) as [existing|] eqn:Hf; [done |].
  apply findGuess_None in Hf. simpl.
  rewrite guessCodes_app. apply NoDup_app. split; [done |]. split.
  - intros c Hc1 Hc2. simpl in Hc2. apply list_elem_of_singleton in Hc2. by subst.
  - simpl. apply NoDup_singleton.
Qed.

Lemma removeGuess_sublist c st :
  guesses (fst (removeGuess c st)) `sublist_of` guesses st.
Proof.
  unfold removeGuess.
  destruct (findGuessIndex c (guesses st)) as [i|] eqn:Hf; [| done].
  apply findGuessIndex_Some in Hf as (pre & g & post & Hgs & _ & _ & ->).
  simpl. rewrite Hgs, delete_middle.
  apply sublist_app; [done |]. by apply sublist_cons.
Qed.

Lemma submit_appends cd st :
  ∃ extra,
    guesses (fst (submit cd st)) = guesses st ++ extra /\
    NoDup (guessCodes extra) /\
    ∀ g, g ∈ extra ->
         guessRevealed g = true /\ guessCode g ∈ answerSet st /\
         guessCode g ∉ guessCodes (guesses st).
Proof.
  destruct (guesses st) as [|g0 gs0] eqn:Hgs.
  { rewrite submit_empty by done. simpl. exists []. rewrite Hgs.
    split; [done |]. split; [apply NoDup_nil_2 |].
    intros g Hg. by apply elem_of_nil in Hg. }
  destruct (submit_succeeds cd st) as (st' & r & Hsub); [by rewrite Hgs |].
  rewrite <- Hgs. rewrite Hsub. simpl.
  destruct (submit_guesses _ _ _ _ Hsub) as (extra & Hg & Hnd & Hall).
  exists extra. repeat split; auto; destruct (Hall g) as (?&?&?&?); auto.
  unfold answerSet. by rewrite elem_of_list_to_set.
Qed.

(** C8.  The guess list of every reachable state has at most one guess for
    each code, and each operation keeps it so: [addGuess] turns down a code
    that has a guess, [removeGuess] leaves a sublist, and [submit] appends
    guesses only for codes of the answer set that had none, one each. *)
Theorem guesses_unique_by_code cd nd :
  (∀ st, Reachable cd nd st -> NoDup (guessCodes (guesses st))) /\
  (∀ st nm, NoDup (guessCodes (guesses st)) ->
            NoDup (guessCodes (guesses (fst (addGuess cd nm st))))) /\
  (∀ st nm country,
     findCountryByName nm (Some cd) = Some country ->
     code country ∈ guessCodes (guesses st) ->
     addGuess cd nm st = (st, AddGuessFailure AlreadyGuessed)) /\
  (∀ st c, guesses (fst (removeGuess c st)) `sublist_of` guesses st /\
           (NoDup (guessCodes (guesses st)) ->
            NoDup (guessCodes (guesses (fst (removeGuess c st)))))) /\
  (∀ st, (∃ extra,
            guesses (fst (submit cd st)) = guesses st ++ extra /\
            NoDup (guessCodes extra) /\
            ∀ g, g ∈ extra ->
                 guessRevealed g = true /\ guessCode g ∈ answerSet st /\
                 guessCode g ∉ guessCodes (guesses st)) /\
         (NoDup (guessCodes (guesses st)) ->
          NoDup (guessCodes (guesses (fst (submit cd st)))))).
Proof.
  split; [| split; [| split; [| split]]].
  - intros st Hreach. by destruct (reachable_consistent cd nd st Hreach).
  - intros st nm. apply addGuess_nodup.
  - intros st nm country Hfind Hin. unfold addGuess. rewrite Hfind.
    by destruct (findGuess_is_Some _ _ Hin) as [g ->].
  - intros st c. split; [apply removeGuess_sublist |].
    intros Hnd. unfold guessCodes.
    eapply sublist_NoDup; [exact Hnd |]. apply fmap_sublist, removeGuess_sublist.
  - intros st. split; [apply submit_appends |].
    intros Hnd. destruct (submit_appends cd st) as (extra & -> & Hnd' & Hall).
    rewrite guessCodes_app. apply NoDup_app. split; [done |]. split; [| done].
    intros c Hc Hc'. apply guessCodes_inv in Hc' as (g & Hg & <-).
    by destruct (Hall g Hg) as (_ & _ & Hnot).
Qed.

Lemma guesses_unique_by_code_witness :
  NoDup (guessCodes (guesses franceFinal)) /\
  addGuess atlasCountries (js "SPAIN") franceRound
    = (franceRound, AddGuessFailure AlreadyGuessed) /\
  NoDup (guessCodes (guesses (fst (removeGuess "ESP" franceRound)))).
Proof.
  destruct (guesses_unique_by_code atlasCountries atlasNeighbors)
    as (Hreach & _ & Hdup & Hrem & _).
  split; [| split].
  - apply Hreach. unfold franceFinal. constructor. exact franceRound_reachable.
  - apply (Hdup franceRound (js "SPAIN") (mkCountry "ESP" (js "Spain") (Some [js "Espana"]))).
    + vm_compute. reflexivity.
    + vm_compute. set_solver.
  - apply (Hrem franceRound "ESP"%string).
    apply Hreach. exact franceRound_reachable.
Defined.

(* ===================================================================== *)
(** ** [removeGuess] and [addGuess] after the round is finalized *)
(* ===================================================================== *)

(** C3, as the claim states it, fails: [removeGuess] has no test for a
    locked guess.  In the finalized round on France the guess for Spain is
    correct and locked; [removeGuess] returns [true] and the guess is gone. *)
Lemma removeGuess_locked_counterexample :
  Finalized franceFinal /\
  (∃ g, g ∈ guesses franceFinal /\ guessCode g = "ESP"%string /\
        correct g = true /\ isLocked franceFinal g = true) /\
  snd (removeGuess "ESP" franceFinal) = true /\
  "ESP"%string ∉ guessCodes (guesses (fst (removeGuess "ESP" franceFinal))).
Proof.
  split; [reflexivity |]. split.
  - exists (mkGuess "ESP" (js "Spain") true false).
    rewrite franceFinal_guesses. split; [by apply elem_of_cons; left | done].
  - split; [vm_compute; reflexivity |].
    apply findGuessIndex_None. vm_compute. reflexivity.
Qed.

(** C3, amended.  [removeGuess] returns [false] and changes nothing when no
    guess has the code.  When one has, it deletes the first such guess and
    returns [true], in every state of the round and whether or not the guess
    is locked; that a locked guess is not removed is left to ui.js, which
    gives its chip no remove button. *)
Theorem removeGuess_behaviour st c :
  (c ∉ guessCodes (guesses st) -> removeGuess c st = (st, false)) /\
  (∀ pre g post,
     guesses st = pre ++ g :: post -> guessCode g = c -> c ∉ guessCodes pre ->
     removeGuess c st = (setGuesses (pre ++ post) st, true)).
Proof.
  split.
  - intros Hnot. unfold removeGuess. apply findGuessIndex_None in Hnot. by rewrite Hnot.
  - intros pre g post Hgs Hg Hpre. unfold removeGuess.
    rewrite Hgs, (findGuessIndex_split c pre g post Hg Hpre). by rewrite delete_middle.
Qed.

Lemma removeGuess_behaviour_witness :
  removeGuess "ISL" franceFinal = (franceFinal, false) /\
  removeGuess "ESP" franceFinal =
    (setGuesses
       ([] ++ [mkGuess "PRT" (js "Portugal") false false;
               mkGuess "AND" (js "Andorra") true true;
               mkGuess "DEU" (js "Germany") true true])
       franceFinal, true).
Proof.
  destruct (removeGuess_behaviour franceFinal "ISL"%string) as [Hnone _].
  destruct (removeGuess_behaviour franceFinal "ESP"%string) as [_ Hsome].
  split.
  - apply Hnone. apply findGuessIndex_None. vm_compute. reflexivity.
  - apply (Hsome [] (mkGuess "ESP" (js "Spain") true false)).
    + vm_compute. reflexivity.
    + reflexivity.
    + apply not_elem_of_nil.
Defined.

(** C4, as the claim states it, fails: [addGuess] has no test of the state
    of the round.  In the finalized round on France it accepts Iceland and
    appends the guess. *)
Lemma addGuess_finalized_counterexample :
  Finalized franceFinal /\
  snd (addGuess atlasCountries (js "Iceland") franceFinal) =
    AddGuessSuccess (mkCountry "ISL" (js "Iceland") (Some [])) false /\
  guesses (fst (addGuess atlasCountries (js "Iceland") franceFinal)) =
    guesses franceFinal ++ [mkGuess "ISL" (js "Iceland") false false].
Proof. split; [reflexivity |]. split; vm_compute; reflexivity. Qed.

(** C4, amended.  On a finalized round [addGuess] does what it does on a
    round in the Guessing state: a name that resolves to a country without a
    guess is accepted, the guess is appended, and the round stays finalized.
    That no guess is added after [submit] is left to ui.js, which disables
    the input. *)
Theorem addGuess_on_finalized cd st nm country :
  Finalized st ->
  findCountryByName nm (Some cd) = Some country ->
  code country ∉ guessCodes (guesses st) ->
  let isCorrect := bool_decide (code country ∈ neighbors st) in
  let st' :=
    setGuesses (guesses st ++ [mkGuess (code country) (name country) isCorrect false]) st in
  addGuess cd nm st = (st', AddGuessSuccess country isCorrect) /\ Finalized st'.
Proof.
  intros Hfin Hfind Hnew. unfold addGuess. rewrite Hfind.
  apply findGuess_None in Hnew. rewrite Hnew. split; [done | exact Hfin].
Qed.

Lemma addGuess_on_finalized_witness :
  let country := mkCountry "ISL" (js "Iceland") (Some []) in
  let st' :=
    setGuesses (guesses franceFinal ++ [mkGuess "ISL" (js "Iceland") false false])
      franceFinal in
  addGuess atlasCountries (js "Iceland") franceFinal = (st', AddGuessSuccess country false)
  /\ Finalized st'.
Proof.
  apply (addGuess_on_finalized atlasCountries franceFinal (js "Iceland")
           (mkCountry "ISL" (js "Iceland") (Some []))).
  - reflexivity.
  - vm_compute. reflexivity.
  - apply findGuess_None. vm_compute. reflexivity.
Defined.

(* ===================================================================== *)
(** ** Failures leave the state as it was *)
(* ===================================================================== *)

(** C5.  The three failures that the player's input can cause return the
    state they were given, so the guess list, the score and the flags of
    the round are as before: [addGuess] with a name that does not resolve
    ("Country not found"), [addGuess] with a name that resolves to a code
    that has a guess ("Already guessed"), [submit] with no guess ("No
    guesses to submit"). *)
Theorem failures_preserve_state cd st :
  (∀ nm, findCountryByName nm (Some cd) = None ->
         addGuess cd nm st = (st, AddGuessFailure CountryNotFound)) /\
  (∀ nm country,
     findCountryByName nm (Some cd) = Some country ->
     code country ∈ guessCodes (guesses st) ->
     addGuess cd nm st = (st, AddGuessFailure AlreadyGuessed)) /\
  (guesses st = [] -> submit cd st = (st, SubmitFailure NoGuessesToSubmit)) /\
  (∀ nm e, snd (addGuess cd nm st) = AddGuessFailure e ->
           fst (addGuess cd nm st) = st) /\
  (∀ e, snd (submit cd st) = SubmitFailure e -> fst (submit cd st) = st).
Proof.
  split; [| split; [| split; [| split]]].
  - intros nm Hfind. unfold addGuess. by rewrite Hfind.
  - intros nm country Hfind Hin. unfold addGuess. rewrite Hfind.
    by destruct (findGuess_is_Some _ _ Hin) as [g ->].
  - apply submit_empty.
  - intros nm e. unfold addGuess.
    destruct (findCountryByName nm (Some cd)) as [country|]; [| done].
    by destruct (findGuess (code country) (guesses st)).
  - intros e. unfold submit. by destruct (guesses st).
Qed.

Lemma failures_preserve_state_witness :
  addGuess atlasCountries (js "Atlantis") franceRound
    = (franceRound, AddGuessFailure CountryNotFound) /\
  addGuess atlasCountries (js "Espana") franceRound
    = (franceRound, AddGuessFailure AlreadyGuessed) /\
  submit atlasCountries reset = (reset, SubmitFailure NoGuessesToSubmit).
Proof.
  destruct (failures_preserve_state atlasCountries franceRound) as (Hnone & Hdup & _).
  destruct (failures_preserve_state atlasCountries reset) as (_ & _ & Hempty & _).
  split; [| split].
  - apply Hnone. vm_compute. reflexivity.
  - apply (Hdup (js "Espana") (mkCountry "ESP" (js "Spain") (Some [js "Espana"]))).
    + vm_compute. reflexivity.
    + vm_compute. set_solver.
  - apply Hempty. reflexivity.
Defined.

(* ===================================================================== *)
(** ** data.js: finding a country by name *)
(* ===================================================================== *)

Lemma strEq_true s t : strEq s t = true <-> s = t.
Proof. unfold strEq. apply bool_decide_eq_true. Qed.

Lemma findNormalized_find normalized values :
  findNormalized normalized values = List.find (nameMatches normalized) values.
Proof.
  induction values as [|country rest IH]; simpl; [done |].
  unfold nameMatches at 1.
  destruct (strEq (normalizeName (name country)) normalized); simpl; [done |].
  destruct (someAlias _ country); simpl; [done | exact IH].
Qed.

Lemma someAlias_true test country :
  someAlias test country = true <->
  ∃ alias als, aliases country = Some als /\ alias ∈ als /\ test alias = true.
Proof.
  unfold someAlias. destruct (aliases country) as [als|].
  - rewrite existsb_exists. split.
    + intros (alias & Hin & Ht). exists alias, als. by rewrite list_elem_of_In.
    + intros (alias & als' & [= <-] & Hin & Ht). exists alias. by rewrite <- list_elem_of_In.
  - split; [done | by intros (? & ? & ? & _)].
Qed.





(* ===================================================================== *)
(** ** data.js: searching by a part of a name *)
(* ===================================================================== *)

Lemma startsWith_spec s t : startsWith s t = true <-> ∃ post, s = t ++ post.
Proof.
  revert s. induction t as [|d t IH]; intros s; simpl.
  - split; [intros _; by exists s | by destruct s].
  - destruct s as [|c s].
    + split; [done | intros [post Hpost]; discriminate].
    + destruct (N.eqb_spec c d) as [-> | Hne]; simpl.
      * rewrite N.eqb_refl. simpl. rewrite IH. split.
        { intros [post ->]. by exists post. }
        intros [post [= ->]]. by exists post.
      * apply N.eqb_neq in Hne. rewrite Hne. simpl.
        split; [done |]. intros [post [= -> _]]. by rewrite N.eqb_refl in Hne.
Qed.

Lemma includes_spec s t : includes s t = true <-> isSubstring t s.
Proof.
  unfold isSubstring. induction s as [|c s IH].
  - change (includes [] t) with (startsWith [] t || false)%bool.
    rewrite orb_false_r, startsWith_spec. split.
    + intros [post Hpost]. by exists [], post.
    + intros (pre & post & Hs). symmetry in Hs.
      apply app_eq_nil in Hs as [-> Hs]. apply app_eq_nil in Hs as [-> ->].
      by exists [].
  - change (includes (c :: s) t) with (startsWith (c :: s) t || includes s t)%bool.
    rewrite orb_true_iff, startsWith_spec, IH. split.
    + intros [[post Hpost] | (pre & post & ->)].
      * by exists [], post.
      * by exists (c :: pre), post.
    + intros (pre & post & Hs). destruct pre as [|p pre]; simpl in Hs.
      * left. by exists post.
      * right. inversion Hs; subst. by exists pre, post.
Qed.

(** The insertion sort: a permutation, and sorted for every order that the
    comparator decides. *)
Lemma sortInsert_perm {A} (cmp : A -> A -> Z) x l : sortInsert cmp x l ≡ₚ x :: l.
Proof.
  induction l as [|y l IH]; simpl; [done |].
  case_bool_decide; [done |]. rewrite IH. apply Permutation_swap.
Qed.

Lemma arraySort_perm {A} (cmp : A -> A -> Z) l : arraySort cmp l ≡ₚ l.
Proof.
  unfold arraySort. induction l as [|x l IH]; simpl; [done |].
  rewrite sortInsert_perm. by rewrite IH.
Qed.

Section Sorting.

Context {A : Type} (cmp : A -> A -> Z) (before : A -> A -> Prop).
Hypothesis before_trans : ∀ a b c, before a b -> before b c -> before a c.
Hypothesis cmp_le : ∀ a b, cmp a b <= 0 -> before a b.
Hypothesis cmp_gt : ∀ a b, 0 < cmp a b -> before b a.

Lemma sortInsert_sorted x l :
  StronglySorted before l -> StronglySorted before (sortInsert cmp x l).
Proof.
  induction 1 as [|y l Hsorted IH Hall]; simpl.
  - repeat constructor.
  - case_bool_decide as Hc.
    + constructor; [by constructor |]. constructor; [by apply cmp_le |].
      eapply Forall_impl; [exact Hall |]. intros z Hz.
      eapply before_trans; [by apply cmp_le | done].
    + constructor; [done |]. rewrite sortInsert_perm. constructor; [| done].
      apply cmp_gt. lia.
Qed.

Lemma arraySort_sorted l : StronglySorted before (arraySort cmp l).
Proof.
  unfold arraySort. induction l as [|x l IH]; simpl; [constructor |].
  by apply sortInsert_sorted.
Qed.

End Sorting.

Lemma searchBefore_trans normalized a b c :
  searchBefore normalized a b -> searchBefore normalized b c ->
  searchBefore normalized a c.
Proof.
  unfold searchBefore. intros [Ha | [Hb Hab]] [Hb' | [Hc Hbc]]; auto.
  - congruence.
  - right. split; [done | lia].
Qed.

Lemma searchCompare_le normalized a b :
  searchCompare normalized a b <= 0 -> searchBefore normalized a b.
Proof.
  unfold searchCompare, searchBefore, isExact.
  destruct (strEq (normalizeName (sr_name a)) normalized) eqn:Ea;
    destruct (strEq (normalizeName (sr_name b)) normalized) eqn:Eb; simpl;
    intros H; [by left | by left | lia | right; split; [done | lia]].
Qed.

Lemma searchCompare_gt normalized a b :
  0 < searchCompare normalized a b -> searchBefore normalized b a.
Proof.
  unfold searchCompare, searchBefore, isExact.
  destruct (strEq (normalizeName (sr_name a)) normalized) eqn:Ea;
    destruct (strEq (normalizeName (sr_name b)) normalized) eqn:Eb; simpl;
    intros H; [by left | lia | by left | right; split; [done | lia]].
Qed.

Lemma searchScan_filter normalized excludeCodes table :
  map resultEntry (searchScan normalized excludeCodes table)
  = map tableEntry (List.filter (searchMatches normalized excludeCodes) table).
Proof.
  induction table as [|[key country] rest IH]; simpl; [done |].
  unfold searchMatches at 1. simpl.
  case_bool_decide as Hex; simpl; [done |].
  destruct (includes (normalizeName (name country)) normalized); simpl.
  { by rewrite IH. }
  destruct (someAlias _ country); simpl; [by rewrite IH | done].
Qed.

Lemma searchMatches_spec normalized excludeCodes entry :
  searchMatches normalized excludeCodes entry = true <->
  (fst entry ∉ excludeCodes) /\
  (isSubstring normalized (normalizeName (name (snd entry))) \/
   ∃ alias als, aliases (snd entry) = Some als /\ alias ∈ als /\
                isSubstring normalized (normalizeName alias)).
Proof.
  unfold searchMatches.
  rewrite andb_true_iff, negb_true_iff, bool_decide_eq_false, orb_true_iff.
  rewrite includes_spec, someAlias_true.
  split; intros [Hex Hm]; (split; [done |]);
    (destruct Hm as [Hm | (alias & als & Hals & Hin & Hm)]; [by left | right]);
    exists alias, als; (split; [done |]); (split; [done |]); by apply includes_spec.
Qed.

(** C7, as the claim states it, fails in two places.  The empty query is
    answered with no result, though the empty string is a substring of every
    name.  And the matches that are not exact come in the order of the
    lengths of their normalized names, not of their canonical names: for the
    query "m", Dem. Rep. Congo (15 code units, 13 when normalized) comes
    before United Kingdom (14). *)
Lemma searchCountries_counterexample :
  (searchCountries (Some atlasCountries) [] [] = [] /\
   List.filter (searchMatches (normalizeName []) []) atlasCountries = atlasCountries) /\
  (map sr_code (searchCountries (Some atlasCountries) (js "m") [])
     = ["DEU"; "COD"; "GBR"]%string /\
   map (fun r => length (sr_name r)) (searchCountries (Some atlasCountries) (js "m") [])
     = [7; 15; 14]%nat /\
   map (isExact (normalizeName (js "m"))) (searchCountries (Some atlasCountries) (js "m") [])
     = [false; false; false]).
Proof. vm_compute. done. Qed.

(** C7, amended.  For a query that is not the empty string, [searchCountries]
    returns one result for each entry of the country table whose key is not
    in [excludeCodes] and whose normalized canonical name, or one of whose
    normalized aliases, contains the normalized query as a substring, and no
    other result.  The results whose normalized canonical name is the
    normalized query come first, the others follow in ascending order of the
    length of the normalized canonical name.  The empty query has no
    result. *)
Theorem searchCountries_results table query excludeCodes :
  query ≠ [] ->
  let normalized := normalizeName query in
  let results := searchCountries (Some table) query excludeCodes in
  map resultEntry results
    ≡ₚ map tableEntry (List.filter (searchMatches normalized excludeCodes) table) /\
  (∀ entry,
     searchMatches normalized excludeCodes entry = true <->
     (fst entry ∉ excludeCodes) /\
     (isSubstring normalized (normalizeName (name (snd entry))) \/
      ∃ alias als, aliases (snd entry) = Some als /\ alias ∈ als /\
                   isSubstring normalized (normalizeName alias))) /\
  (∀ r, r ∈ results -> sr_code r ∉ excludeCodes) /\
  StronglySorted (searchBefore normalized) results /\
  searchCountries (Some table) [] excludeCodes = [].
Proof.
  intros Hq normalized results.
  assert (results = arraySort (searchCompare normalized)
                      (searchScan normalized excludeCodes table)) as Hres.
  { unfold results, searchCountries. destruct query; [done | reflexivity]. }
  assert (map resultEntry results
            ≡ₚ map tableEntry (List.filter (searchMatches normalized excludeCodes) table))
    as Hperm.
  { rewrite Hres, <- searchScan_filter. apply Permutation_map, arraySort_perm. }
  split; [exact Hperm |]. split; [apply searchMatches_spec |].
  split; [| split; [| reflexivity]].
  - intros r Hr.
    assert (resultEntry r ∈ map resultEntry results) as Hin
      by (by apply list_elem_of_fmap_2).
    rewrite Hperm in Hin. apply list_elem_of_fmap in Hin as (entry & Heq & Hin).
    apply list_elem_of_In, filter_In in Hin as [_ Hm].
    apply searchMatches_spec in Hm as [Hex _].
    unfold resultEntry, tableEntry in Heq. injection Heq as Hcode _ _.
    by rewrite Hcode.
  - rewrite Hres. apply (arraySort_sorted (searchCompare normalized)).
    + apply searchBefore_trans.
    + apply searchCompare_le.
    + apply searchCompare_gt.
Qed.

Lemma searchCountries_results_witness :
  let normalized := normalizeName (js "m") in
  let results := searchCountries (Some atlasCountries) (js "m") ["DEU"%string] in
  map resultEntry results
    ≡ₚ map tableEntry (List.filter (searchMatches normalized ["DEU"%string]) atlasCountries) /\
  (∀ entry,
     searchMatches normalized ["DEU"%string] entry = true <->
     (fst entry ∉ ["DEU"%string]) /\
     (isSubstring normalized (normalizeName (name (snd entry))) \/
      ∃ alias als, aliases (snd entry) = Some als /\ alias ∈ als /\
                   isSubstring normalized (normalizeName alias))) /\
  (∀ r, r ∈ results -> sr_code r ∉ ["DEU"%string]) /\
  StronglySorted (searchBefore normalized) results /\
  searchCountries (Some atlasCountries) [] ["DEU"%string] = [].
Proof.
  apply (searchCountries_results atlasCountries (js "m") ["DEU"%string]).
  vm_compute. discriminate.
Defined.

(** The query "a" without France and Germany: shorter normalized names
    first, the table order between names of one length; Cote d'Ivoire and
    the United Kingdom match by an alias. *)
Example search_a :
  map sr_code (searchCountries (Some atlasCountries) (js "a") ["FRA"; "DEU"]%string)
  = ["ESP"; "AND"; "ISL"; "PRT"; "CIV"; "GBR"]%string.
Proof. vm_compute. reflexivity. Qed.

(* ===================================================================== *)
(** ** Adding and removing a guess *)
(* ===================================================================== *)

Lemma setGuesses_restore gs st : setGuesses (guesses st) (setGuesses gs st) = st.
Proof. by destruct st. Qed.

(** X1.  [removeGuess] undoes [addGuess]: after a successful [addGuess],
    [removeGuess] with the code of the country it returned gives [true] and
    the state from before. *)
Theorem removeGuess_undoes_addGuess cd nm st st' country isCorrect :
  addGuess cd nm st = (st', AddGuessSuccess country isCorrect) ->
  removeGuess (code country) st' = (st, true).
Proof.
  unfold addGuess. destruct (findCountryByName nm (Some cd)) as [c|]; [| done].
  destruct (findGuess (code c) (guesses st)) as [existing|] eqn:Hf; [done |].
  intros [= <- <- _]. apply findGuess_None in Hf.
  unfold removeGuess. simpl.
  rewrite (findGuessIndex_split (code c) (guesses st)
             (mkGuess (code c) (name c) (bool_decide (code c ∈ neighbors st)) false)
             [] eq_refl Hf).
  by rewrite delete_middle, app_nil_r, setGuesses_restore.
Qed.

Lemma removeGuess_undoes_addGuess_witness :
  removeGuess "ISL" (fst (addGuess atlasCountries (js "iceland") franceRound))
  = (franceRound, true).
Proof.
  apply (removeGuess_undoes_addGuess atlasCountries (js "iceland") franceRound _
           (mkCountry "ISL" (js "Iceland") (Some [])) false).
  vm_compute. reflexivity.
Defined.

Lemma hasGuess_true c st : hasGuess c st = true <-> c ∈ guessCodes (guesses st).
Proof.
  unfold hasGuess. rewrite existsb_exists. split.
  - intros (g & Hin & Hc). apply bool_decide_eq_true in Hc. subst.
    by apply guessCodes_elem, list_elem_of_In.
  - intros Hin. apply guessCodes_inv in Hin as (g & Hin & Hc).
    exists g. split; [by apply list_elem_of_In | by apply bool_decide_eq_true].
Qed.

Lemma hasGuess_false c st : hasGuess c st = false <-> c ∉ guessCodes (guesses st).
Proof.
  rewrite <- hasGuess_true. by destruct (hasGuess c st).
Qed.

(** X2.  In every reachable state a guess is marked correct exactly when
    [isValidNeighbor] holds of its code; [submit] keeps the guesses there
    were as they are, and the neighbours too, so the mark of a guess does
    not change when the round is submitted. *)
Theorem guess_mark_is_isValidNeighbor cd nd st :
  Reachable cd nd st ->
  (∀ g, g ∈ guesses st -> correct g = isValidNeighbor (guessCode g) st) /\
  (∀ g, g ∈ guesses st -> g ∈ guesses (fst (submit cd st))) /\
  (∀ c, isValidNeighbor c (fst (submit cd st)) = isValidNeighbor c st) /\
  (∀ g, g ∈ guesses (fst (submit cd st)) ->
        correct g = isValidNeighbor (guessCode g) st).
Proof.
  intros Hreach.
  pose proof (reachable_consistent cd nd st Hreach) as [Hs _ _ _ _ _].
  pose proof (reachable_consistent cd nd _ (reach_submit cd nd st Hreach))
    as [Hs' _ _ _ _ _].
  assert (neighbors (fst (submit cd st)) = neighbors st) as Hn.
  { destruct (guesses st) as [|g0 gs0] eqn:Hgs; [by rewrite submit_empty |].
    destruct (submit_succeeds cd st) as (st' & r & Hsub); [by rewrite Hgs |].
    rewrite Hsub. simpl. by destruct (submit_frame _ _ _ _ Hsub) as (_ & _ & Hn & _). }
  split; [exact Hs |]. split; [| split].
  - intros g Hg. destruct (submit_appends cd st) as (extra & -> & _).
    apply elem_of_app. by left.
  - intros c. unfold isValidNeighbor. by rewrite Hn.
  - intros g Hg. unfold isValidNeighbor. rewrite <- Hn. by apply Hs'.
Qed.

Lemma guess_mark_is_isValidNeighbor_witness :
  (∀ g, g ∈ guesses franceRound -> correct g = isValidNeighbor (guessCode g) franceRound) /\
  (∀ g, g ∈ guesses franceRound -> g ∈ guesses franceFinal) /\
  (∀ c, isValidNeighbor c franceFinal = isValidNeighbor c franceRound) /\
  (∀ g, g ∈ guesses franceFinal -> correct g = isValidNeighbor (guessCode g) franceRound).
Proof.
  apply (guess_mark_is_isValidNeighbor atlasCountries atlasNeighbors franceRound).
  exact franceRound_reachable.
Defined.

(** X3.  [hasGuess] tells whether a code has a guess, and the two
    operations keep it right: after a successful [addGuess] the code of the
    country has a guess and had none before, and in a reachable state, where
    no code has two guesses, the code given to [removeGuess] has none
    afterwards. *)
Theorem hasGuess_tracks_guesses cd nd st c :
  Reachable cd nd st ->
  (hasGuess c st = true <-> ∃ g, g ∈ guesses st /\ guessCode g = c) /\
  hasGuess c (fst (removeGuess c st)) = false /\
  (∀ nm st' country ok,
     addGuess cd nm st = (st', AddGuessSuccess country ok) ->
     hasGuess (code country) st = false /\ hasGuess (code country) st' = true).
Proof.
  intros Hreach. split; [| split].
  - rewrite hasGuess_true. split; [apply guessCodes_inv |].
    intros (g & Hg & <-). by apply guessCodes_elem.
  - pose proof (reachable_consistent cd nd st Hreach) as [_ Hnd _ _ _ _].
    apply hasGuess_false. unfold removeGuess.
    destruct (findGuessIndex c (guesses st)) as [i|] eqn:Hf.
    2:{ by apply findGuessIndex_None in Hf. }
    apply findGuessIndex_Some in Hf as (pre & g & post & Hgs & Hg & Hpre & ->).
    simpl. rewrite Hgs, delete_middle. rewrite Hgs, guessCodes_app in Hnd.
    simpl in Hnd. apply NoDup_app in Hnd as (_ & _ & Hnd).
    apply NoDup_cons in Hnd as [Hpost _]. rewrite Hg in Hpost.
    rewrite guessCodes_app. intros Hin. apply elem_of_app in Hin as [Hin | Hin]; auto.
  - intros nm st' country ok. unfold addGuess.
    destruct (findCountryByName nm (Some cd)) as [c0|]; [| done].
    destruct (findGuess (code c0) (guesses st)) as [existing|] eqn:Hf; [done |].
    intros [= <- <- _]. apply findGuess_None in Hf. split.
    + by apply hasGuess_false.
    + apply hasGuess_true. simpl. rewrite guessCodes_app. apply elem_of_app. right.
      simpl. by apply list_elem_of_singleton.
Qed.

Lemma hasGuess_tracks_guesses_witness :
  hasGuess "ESP" (fst (removeGuess "ESP" franceRound)) = false.
Proof.
  apply (hasGuess_tracks_guesses atlasCountries atlasNeighbors franceRound "ESP"%string).
  exact franceRound_reachable.
Defined.

(* ===================================================================== *)
(** ** What is left to find *)
(* ===================================================================== *)

Lemma submit_correct_all cd nd st st' r :
  Consistent nd st -> submit cd st = (st', SubmitSuccess r) ->
  correctGuesses st' = answerSet st.
Proof.
  intros [Hs _ Hc0 _ _ _] Hsub. destruct (submit_sets _ _ _ _ Hsub) as (-> & _).
  apply set_eq. intros c. split.
  - pose proof (correctCodes_sound st Hs). unfold missedCodes. set_solver.
  - intros Hin. destruct (decide (c ∈ guessCodes (guesses st))) as [Hg | Hg].
    + apply guessCodes_inv in Hg as (g & Hg & <-).
      apply elem_of_union. left. apply elem_of_union. right.
      apply correctCodes_elem. exists g. repeat split; auto.
      rewrite (Hs g Hg). apply bool_decide_eq_true_2.
      unfold answerSet in Hin. by apply elem_of_list_to_set in Hin.
    + apply elem_of_union. right. unfold missedCodes.
      apply elem_of_difference. split; [done |]. by rewrite elem_of_list_to_set.
Qed.

Lemma reveal_correct_all cd nd st :
  Consistent nd st -> correctGuesses (fst (reveal cd st)) = answerSet st.
Proof.
  intros [_ _ Hc0 _ _ _]. unfold reveal. simpl.
  pose proof (revealNeighbor_frame cd (neighbors st) (setRevealed true st))
    as (_ & _ & _ & Hc).
  simpl in Hc. rewrite Hc. unfold answerSet in *. set_solver.
Qed.

Lemma remaining_none (st : GameState) :
  answerSet st ⊆ correctGuesses st -> getRemainingNeighbors st = [].
Proof.
  intros Hall. unfold getRemainingNeighbors. apply filter_all_false.
  intros c Hc. apply negb_false_iff, bool_decide_eq_true_2, Hall.
  unfold answerSet. by apply elem_of_list_to_set.
Qed.

(** X4.  [getRemainingNeighbors] follows [correctGuesses], which only
    [submit] and [reveal] fill: while a round is in the Guessing state every
    neighbour remains, whatever has been guessed; after a successful
    [submit], and after [reveal], none remains. *)
Theorem remaining_neighbors cd nd st :
  Reachable cd nd st ->
  (Guessing st -> getRemainingNeighbors st = neighbors st) /\
  (guesses st ≠ [] -> getRemainingNeighbors (fst (submit cd st)) = []) /\
  getRemainingNeighbors (fst (reveal cd st)) = [].
Proof.
  intros Hreach. pose proof (reachable_consistent cd nd st Hreach) as Hcons.
  split; [| split].
  - intros HG. destruct Hcons as [_ _ _ _ _ Hg]. destruct (Hg HG) as (Hc & _).
    unfold getRemainingNeighbors. rewrite Hc.
    rewrite (filter_agree _ (fun _ => true)).
    + induction (neighbors st) as [|c l IH]; simpl; [done | by rewrite IH].
    + intros c _. apply negb_true_iff, bool_decide_eq_false_2. set_solver.
  - intros Hne. destruct (submit_succeeds cd st Hne) as (st' & r & Hsub).
    rewrite Hsub. simpl. apply remaining_none.
    rewrite (submit_correct_all cd nd st st' r Hcons Hsub).
    destruct (submit_frame _ _ _ _ Hsub) as (_ & _ & Hn & _).
    unfold answerSet. by rewrite Hn.
  - apply remaining_none. rewrite (reveal_correct_all cd nd st Hcons).
    unfold reveal. simpl.
    pose proof (revealNeighbor_frame cd (neighbors st) (setRevealed true st))
      as ((_ & _ & Hn & _) & _).
    simpl in Hn. unfold answerSet. by rewrite Hn.
Qed.

Lemma remaining_neighbors_witness :
  getRemainingNeighbors franceRound = neighbors franceRound /\
  getRemainingNeighbors (fst (submit atlasCountries franceRound)) = [].
Proof.
  destruct (remaining_neighbors atlasCountries atlasNeighbors franceRound)
    as (Hguessing & Hsubmit & _).
  - exact franceRound_reachable.
  - split.
    + apply Hguessing. split; reflexivity.
    + apply Hsubmit. vm_compute. discriminate.
Defined.

(* ===================================================================== *)
(** ** [reveal] *)
(* ===================================================================== *)

Lemma revealNeighbor_covers cd ns st :
  (∀ c, c ∈ ns -> is_Some (getProp cd c)) ->
  ∀ c, c ∈ ns -> c ∈ guessCodes (guesses (fold_left (revealNeighbor cd) ns st)).
Proof.
  revert st. induction ns as [|c0 ns IH]; intros st Hknown c Hc; simpl.
  - by apply elem_of_nil in Hc.
  - apply elem_of_cons in Hc as [-> | Hc].
    2:{ apply IH; [| done]. intros x Hx. apply Hknown. by apply elem_of_cons; right. }
    destruct (revealNeighbor_guesses cd ns (revealNeighbor cd st c0))
      as (extra & Hg & _). simpl in Hg. rewrite Hg, guessCodes_app.
    apply elem_of_app. left. unfold revealNeighbor. simpl.
    destruct (findGuess c0 (guesses st)) as [existing|] eqn:Hf.
    + apply findGuess_Some in Hf as [Hin <-]. by apply guessCodes_elem.
    + destruct (Hknown c0) as [country ->]; [by apply elem_of_cons; left |].
      rewrite guessCodes_app. apply elem_of_app. right. simpl.
      by apply list_elem_of_singleton.
Qed.

(** X5.  [reveal] in a reachable state: the round is marked revealed, every
    neighbour code is counted correct, the score and the player's own
    correct guesses (the found counter) stay, nothing can be submitted any
    more, and when the country table knows the neighbour codes each of them
    has a guess.  The number of revealed neighbours that [reveal] reports is
    twice the number of codes the neighbour list repeats: it is zero when
    the list repeats none, however many neighbours were revealed. *)
Theorem reveal_completes_round cd nd st :
  Reachable cd nd st ->
  let st' := fst (reveal cd st) in
  revealed st' = true /\ submitted st' = submitted st /\
  score st' = score st /\ round st' = round st /\
  progress_found (getState st') = progress_found (getState st) /\
  correctGuesses st' = answerSet st /\
  view_canSubmit (getState st') = false /\
  (∃ extra, guesses st' = guesses st ++ extra) /\
  (answersKnown cd st -> ∀ c, c ∈ neighbors st -> c ∈ guessCodes (guesses st')) /\
  snd (reveal cd st) =
    (Z.of_nat (length (neighbors st)),
     2 * (Z.of_nat (length (neighbors st)) - Z.of_nat (size (answerSet st)))) /\
  (NoDup (neighbors st) -> snd (snd (reveal cd st)) = 0).
Proof.
  intros Hreach st'. pose proof (reachable_consistent cd nd st Hreach) as Hcons.
  pose proof (reveal_correct_all cd nd st Hcons) as Hc. fold st' in Hc.
  pose proof (revealNeighbor_frame cd (neighbors st) (setRevealed true st))
    as ((_ & _ & Hn & Hsb & Hrv & Hsc & Hrd) & Hu & _ & _).
  pose proof (revealNeighbor_guesses cd (neighbors st) (setRevealed true st))
    as (extra & Hg & _).
  simpl in Hn, Hsb, Hrv, Hsc, Hrd, Hu, Hg.
  assert (snd (reveal cd st) =
          (Z.of_nat (length (neighbors st)),
           2 * (Z.of_nat (length (neighbors st)) - Z.of_nat (size (answerSet st)))))
    as Hreport.
  { unfold st', reveal in Hc. simpl in Hc. unfold reveal. simpl.
    rewrite Hn, Hc. f_equal. lia. }
  repeat split; auto.
  - simpl. unfold st', reveal. simpl. by rewrite Hu.
  - simpl. unfold st', reveal. simpl. rewrite Hrv. apply andb_false_r.
  - by exists extra.
  - intros Hknown c Hin. unfold st', reveal. simpl.
    by apply revealNeighbor_covers.
  - intros Hnd. rewrite Hreport. simpl. unfold answerSet.
    rewrite size_list_to_set by done. lia.
Qed.

Lemma reveal_completes_round_witness :
  let st' := fst (reveal atlasCountries franceRound) in
  revealed st' = true /\ submitted st' = submitted franceRound /\
  score st' = score franceRound /\ round st' = round franceRound /\
  progress_found (getState st') = progress_found (getState franceRound) /\
  correctGuesses st' = answerSet franceRound /\
  view_canSubmit (getState st') = false /\
  (∃ extra, guesses st' = guesses franceRound ++ extra) /\
  (answersKnown atlasCountries franceRound ->
   ∀ c, c ∈ neighbors franceRound -> c ∈ guessCodes (guesses st')) /\
  snd (reveal atlasCountries franceRound) =
    (Z.of_nat (length (neighbors franceRound)),
     2 * (Z.of_nat (length (neighbors franceRound))
          - Z.of_nat (size (answerSet franceRound)))) /\
  (NoDup (neighbors franceRound) -> snd (snd (reveal atlasCountries franceRound)) = 0).
Proof.
  apply (reveal_completes_round atlasCountries atlasNeighbors franceRound).
  exact franceRound_reachable.
Defined.

(** Two neighbours of France are revealed, and zero is reported. *)
Example reveal_france :
  guessCodes (guesses (fst (reveal atlasCountries franceRound)))
    = ["ESP"; "PRT"; "AND"; "DEU"]%string /\
  snd (reveal atlasCountries franceRound) = (3, 0).
Proof. vm_compute. done. Qed.

(* ===================================================================== *)
(** ** The submit button *)
(* ===================================================================== *)

(** X6.  [canSubmit] of [getState] holds exactly when there is a guess and
    the round is not revealed; then [submit] succeeds.  After [submit],
    whether it succeeded or not, and after [reveal], [canSubmit] does not
    hold: the button that ui.js disables by it lets a round be submitted
    once. *)
Theorem canSubmit_once cd st :
  (view_canSubmit (getState st) = true <-> guesses st ≠ [] /\ revealed st = false) /\
  (view_canSubmit (getState st) = true -> ∃ st' r, submit cd st = (st', SubmitSuccess r)) /\
  view_canSubmit (getState (fst (submit cd st))) = false /\
  view_canSubmit (getState (fst (reveal cd st))) = false.
Proof.
  assert (view_canSubmit (getState st) = true <-> guesses st ≠ [] /\ revealed st = false)
    as Hiff.
  { simpl. rewrite andb_true_iff, negb_true_iff, bool_decide_eq_true.
    destruct (guesses st); simpl; split; intros [H1 H2]; split; auto; try lia; done. }
  split; [exact Hiff |]. split; [| split].
  - intros H. apply Hiff in H as [Hne _]. by apply submit_succeeds.
  - destruct (guesses st) as [|g0 gs0] eqn:Hgs.
    + rewrite submit_empty by done. simpl. by rewrite Hgs.
    + destruct (submit_succeeds cd st) as (st' & r & Hsub); [by rewrite Hgs |].
      rewrite Hsub. cbn [fst].
      destruct (submit_frame _ _ _ _ Hsub) as (_ & _ & _ & _ & _ & Hrv & _).
      simpl. rewrite Hrv. apply andb_false_r.
  - pose proof (revealNeighbor_frame cd (neighbors st) (setRevealed true st))
      as ((_ & _ & _ & _ & Hrv & _) & _).
    simpl in Hrv. unfold reveal. simpl. rewrite Hrv. apply andb_false_r.
Qed.

Lemma canSubmit_once_witness :
  ∃ st' r, submit atlasCountries germanyRound = (st', SubmitSuccess r).
Proof.
  destruct (canSubmit_once atlasCountries germanyRound) as (_ & Hsub & _).
  apply Hsub. reflexivity.
Defined.

(* ===================================================================== *)
(** ** Starting a round *)
(* ===================================================================== *)

Lemma getCountriesWithNeighbors_elem cd nd c :
  c ∈ getCountriesWithNeighbors cd nd <->
  ∃ key ns, (key, ns) ∈ nd /\ ns ≠ [] /\ getProp cd key = Some c.
Proof.
  unfold getCountriesWithNeighbors. rewrite list_elem_of_omap. split.
  - intros ([key ns] & Hin & Hc). apply list_elem_of_In, filter_In in Hin as [Hin Hlen].
    apply list_elem_of_In in Hin. apply bool_decide_eq_true in Hlen. simpl in *.
    exists key, ns. repeat split; auto. intros ->. simpl in Hlen. lia.
  - intros (key & ns & Hin & Hne & Hc). exists (key, ns). split; [| done].
    apply list_elem_of_In, filter_In. split; [by apply list_elem_of_In |].
    apply bool_decide_eq_true. simpl. destruct ns; [done | simpl; lia].
Qed.

Lemma random_country_cases cd nd draw :
  (getRandomCountryWithNeighbors cd nd draw = None /\
   getCountriesWithNeighbors cd nd = []) \/
  (∃ c, getRandomCountryWithNeighbors cd nd draw = Some c /\
        c ∈ getCountriesWithNeighbors cd nd).
Proof.
  unfold getRandomCountryWithNeighbors.
  destruct (getCountriesWithNeighbors cd nd) as [|c0 l] eqn:E; [by left | right].
  destruct ((c0 :: l) !! (draw mod length (c0 :: l))%nat) as [c|] eqn:Hl.
  - exists c. split; [done |]. by apply list_elem_of_lookup_2 in Hl.
  - apply lookup_ge_None in Hl.
    pose proof (Nat.mod_upper_bound draw (length (c0 :: l))) as Hlt.
    simpl in *. lia.
Qed.

(** X7.  [getRandomCountryWithNeighbors] returns [null] exactly when no
    entry of the adjacency table with a neighbour has its key in the country
    table; otherwise it returns such a country, an island never, and every
    such country comes for some value of the random index. *)
Theorem random_country_has_neighbors cd nd :
  (∀ draw, getRandomCountryWithNeighbors cd nd draw = None
           <-> getCountriesWithNeighbors cd nd = []) /\
  (∀ draw c, getRandomCountryWithNeighbors cd nd draw = Some c ->
             ∃ key ns, (key, ns) ∈ nd /\ ns ≠ [] /\ getProp cd key = Some c) /\
  (∀ key ns c, (key, ns) ∈ nd -> ns ≠ [] -> getProp cd key = Some c ->
               ∃ draw, getRandomCountryWithNeighbors cd nd draw = Some c).
Proof.
  unfold getRandomCountryWithNeighbors. split; [| split].
  - intros draw. destruct (getCountriesWithNeighbors cd nd) as [|c0 l] eqn:E; [done |].
    split; [| done]. intros Hnone. apply lookup_ge_None in Hnone.
    pose proof (Nat.mod_upper_bound draw (length (c0 :: l))) as Hlt.
    simpl in *. lia.
  - intros draw c H. apply getCountriesWithNeighbors_elem.
    destruct (getCountriesWithNeighbors cd nd) as [|c0 l]; [done |].
    by apply list_elem_of_lookup_2 in H.
  - intros key ns c Hin Hne Hc.
    assert (c ∈ getCountriesWithNeighbors cd nd) as Hcand
      by (apply getCountriesWithNeighbors_elem; eauto).
    apply list_elem_of_lookup_1 in Hcand as [i Hi].
    pose proof (lookup_lt_Some _ _ _ Hi) as Hlt.
    exists i. destruct (getCountriesWithNeighbors cd nd) as [|c0 l]; [done |].
    by rewrite Nat.mod_small.
Qed.

Lemma random_country_has_neighbors_witness :
  ∃ draw, getRandomCountryWithNeighbors atlasCountries atlasNeighbors draw
          = Some (mkCountry "PRT" (js "Portugal") (Some [])).
Proof.
  destruct (random_country_has_neighbors atlasCountries atlasNeighbors) as (_ & _ & Hall).
  apply (Hall "PRT"%string ["ESP"%string]).
  - unfold atlasNeighbors. do 4 (apply elem_of_cons; right). by apply elem_of_cons; left.
  - discriminate.
  - reflexivity.
Defined.

Lemma getProp_lookup {A} (table : list (string * A)) key v :
  NoDup (map fst table) -> (key, v) ∈ table -> getProp table key = Some v.
Proof.
  induction table as [|[k w] rest IH]; simpl; intros Hnd Hin.
  - by apply elem_of_nil in Hin.
  - apply NoDup_cons in Hnd as [Hnot Hnd].
    apply elem_of_cons in Hin as [[= -> ->] | Hin].
    + by rewrite bool_decide_eq_true_2.
    + rewrite bool_decide_eq_false_2; [by apply IH |].
      intros ->. apply Hnot. by apply (list_elem_of_fmap_2 fst) in Hin.
Qed.

(** X8.  [startNewRound] throws exactly when no country has a neighbour, and
    then it leaves the state as it is.  When it returns, the round is fresh:
    in the Guessing state, without guesses and with empty sets, the score
    and the round number kept.  With tables as the data script writes them
    (distinct keys, the [code] field equal to the key) the target is a
    country of the table and its neighbour list is its entry of the
    adjacency table, which is not empty: an island is never the target. *)
Theorem startNewRound_fresh cd nd draw st :
  (snd (startNewRound cd nd draw st) = Threw <-> getCountriesWithNeighbors cd nd = []) /\
  (snd (startNewRound cd nd draw st) = Threw -> fst (startNewRound cd nd draw st) = st) /\
  (snd (startNewRound cd nd draw st) = Returned ->
   let st' := fst (startNewRound cd nd draw st) in
   Guessing st' /\ guesses st' = [] /\
   correctGuesses st' = ∅ /\ userCorrectGuesses st' = ∅ /\ incorrectGuesses st' = ∅ /\
   lastRoundGains st' = 0 /\ lastRoundLosses st' = 0 /\
   score st' = score st /\ round st' = round st /\
   map neighborCode (neighborCountries st') = neighbors st' /\
   (tableKeyed cd -> NoDup (map fst nd) ->
    ∃ country,
      targetCountry st' = Some country /\
      targetCountryCode st' = Some (code country) /\
      (code country, country) ∈ cd /\
      (code country, neighbors st') ∈ nd /\
      neighbors st' ≠ [])).
Proof.
  destruct (random_country_cases cd nd draw) as [[Hnone Hnil] | (c & Hsome & Hc)].
  - unfold startNewRound. rewrite Hnone. simpl. repeat split; auto; done.
  - unfold startNewRound. rewrite Hsome. simpl.
    split; [split; [done | intros Hnil; rewrite Hnil in Hc; by apply elem_of_nil in Hc] |].
    split; [done |]. intros _. repeat split; auto.
    { rewrite map_map. simpl. apply map_id. }
    intros [Hkeys Hcode] Hnd.
    apply getCountriesWithNeighbors_elem in Hc as (key & ns & Hin & Hne & Hget).
    apply getProp_elem in Hget. pose proof (Hcode key c Hget) as Hk. subst key.
    exists c. repeat split; auto.
    + unfold getNeighbors. by rewrite (getProp_lookup nd (code c) ns Hnd Hin).
    + unfold getNeighbors. by rewrite (getProp_lookup nd (code c) ns Hnd Hin).
Qed.

Lemma atlas_tableKeyed : tableKeyed atlasCountries.
Proof.
  split.
  - vm_compute. repeat (apply NoDup_cons; split;
      [rewrite ?elem_of_cons, elem_of_nil; intros H; repeat destruct H as [H | H];
       discriminate || done |]).
    apply NoDup_nil_2.
  - intros key country Hin. unfold atlasCountries in Hin.
    repeat (apply elem_of_cons in Hin as [[= -> ->] | Hin]; [reflexivity |]).
    by apply elem_of_nil in Hin.
Qed.

Lemma atlasNeighbors_keys : NoDup (map fst atlasNeighbors).
Proof.
  vm_compute. repeat (apply NoDup_cons; split;
    [rewrite ?elem_of_cons, elem_of_nil; intros H; repeat destruct H as [H | H];
     discriminate || done |]).
  apply NoDup_nil_2.
Qed.

Lemma startNewRound_fresh_witness :
  ∃ country,
    targetCountry (fst (startNewRound atlasCountries atlasNeighbors 7 franceFinal))
      = Some country /\
    targetCountryCode (fst (startNewRound atlasCountries atlasNeighbors 7 franceFinal))
      = Some (code country) /\
    (code country, country) ∈ atlasCountries /\
    (code country, neighbors (fst (startNewRound atlasCountries atlasNeighbors 7 franceFinal)))
      ∈ atlasNeighbors /\
    neighbors (fst (startNewRound atlasCountries atlasNeighbors 7 franceFinal)) ≠ [].
Proof.
  destruct (startNewRound_fresh atlasCountries atlasNeighbors 7 franceFinal)
    as (_ & _ & Hret).
  destruct (Hret eq_refl) as (_ & _ & _ & _ & _ & _ & _ & _ & _ & _ & Htarget).
  apply Htarget; [exact atlas_tableKeyed | exact atlasNeighbors_keys].
Defined.

(** X9.  [nextRound] adds one to the round number and keeps the score,
    also when [startNewRound] throws; when it returns, the new round is in
    the Guessing state and has no guess. *)
Theorem nextRound_counts cd nd draw st :
  round (fst (nextRound cd nd draw st)) = round st + 1 /\
  score (fst (nextRound cd nd draw st)) = score st /\
  (snd (nextRound cd nd draw st) = Threw <-> getCountriesWithNeighbors cd nd = []) /\
  (snd (nextRound cd nd draw st) = Threw ->
   guesses (fst (nextRound cd nd draw st)) = guesses st /\
   neighbors (fst (nextRound cd nd draw st)) = neighbors st /\
   submitted (fst (nextRound cd nd draw st)) = submitted st) /\
  (snd (nextRound cd nd draw st) = Returned ->
   Guessing (fst (nextRound cd nd draw st)) /\
   guesses (fst (nextRound cd nd draw st)) = []).
Proof.
  unfold nextRound.
  destruct (random_country_cases cd nd draw) as [[Hnone Hnil] | (c & Hsome & Hc)];
    unfold startNewRound; [rewrite Hnone | rewrite Hsome]; simpl.
  - repeat split; auto; done.
  - split; [done |]. split; [done |].
    split; [split; [done | intros Hnil; rewrite Hnil in Hc; by apply elem_of_nil in Hc] |].
    split; [done |]. intros _. by repeat split.
Qed.

Lemma nextRound_counts_witness :
  Guessing (fst (nextRound atlasCountries atlasNeighbors 7 franceFinal)) /\
  guesses (fst (nextRound atlasCountries atlasNeighbors 7 franceFinal)) = [].
Proof.
  destruct (nextRound_counts atlasCountries atlasNeighbors 7 franceFinal)
    as (_ & _ & _ & _ & Hret).
  apply Hret. reflexivity.
Defined.

(* ===================================================================== *)
(** ** How far the score can move *)
(* ===================================================================== *)

Lemma tally_bounds gs acc :
  let r := fold_left tallyGuess gs acc in
  loopGains acc <= loopGains r /\ loopLosses acc <= loopLosses r /\
  (loopGains r - loopGains acc) + (loopLosses r - loopLosses acc)
    <= Z.of_nat (length gs).
Proof.
  revert acc. induction gs as [|g gs IH]; intros acc; simpl; [lia |].
  specialize (IH (tallyGuess acc g)). simpl in IH.
  assert (loopGains acc <= loopGains (tallyGuess acc g) /\
          loopLosses acc <= loopLosses (tallyGuess acc g) /\
          (loopGains (tallyGuess acc g) - loopGains acc)
          + (loopLosses (tallyGuess acc g) - loopLosses acc) <= 1) as Hstep.
  { unfold tallyGuess. destruct (correct g); case_bool_decide; simpl; lia. }
  lia.
Qed.

Lemma reveal_bounds cd ns acc :
  let r := fold_left (revealMissed cd) ns acc in
  loopLosses acc <= loopLosses r <= loopLosses acc + Z.of_nat (length ns).
Proof.
  revert acc. induction ns as [|c ns IH]; intros acc; simpl; [lia |].
  specialize (IH (revealMissed cd acc c)). simpl in IH.
  assert (loopLosses acc <= loopLosses (revealMissed cd acc c) <= loopLosses acc + 1)
    as Hstep.
  { unfold revealMissed. destruct (findGuess c (guesses (this acc))); simpl; lia. }
  lia.
Qed.

(** X10.  In a successful [submit] the gains and the losses are not
    negative; the gains and the losses for wrong guesses together are at
    most the number of guesses, the losses for missed neighbours at most the
    number of neighbours.  So the score rises by at most the number of
    guesses and falls by at most the number of guesses and neighbours.  The
    state keeps the two numbers as [lastRoundGains] and [lastRoundLosses]. *)
Theorem submit_counters_bounded cd st st' r :
  submit cd st = (st', SubmitSuccess r) ->
  0 <= gains r <= Z.of_nat (length (guesses st)) /\
  0 <= losses r /\
  gains r + losses r
    <= Z.of_nat (length (guesses st)) + Z.of_nat (length (neighbors st)) /\
  score st - (Z.of_nat (length (guesses st)) + Z.of_nat (length (neighbors st)))
    <= score st' <= score st + Z.of_nat (length (guesses st)) /\
  lastRoundGains st' = gains r /\ lastRoundLosses st' = losses r.
Proof.
  intros Hsub.
  destruct (submit_frame _ _ _ _ Hsub)
    as (_ & _ & _ & _ & _ & _ & Hsc & Hlg & Hll & _).
  apply submit_unfold in Hsub. simpl in Hsub.
  destruct Hsub as (_ & Hg & Hl & _).
  set (marked := setRevealed true (setSubmitted true st)) in *.
  set (tallied := fold_left tallyGuess (guesses st) (mkSubmitLoop marked 0 0)) in *.
  pose proof (tally_bounds (guesses st) (mkSubmitLoop marked 0 0)) as Ht.
  pose proof (reveal_bounds cd (neighbors st) tallied) as Hr.
  pose proof (reveal_frame cd (neighbors st) tallied) as (_ & _ & _ & Hgains).
  simpl in Ht, Hr, Hgains. fold tallied in Ht.
  rewrite Hgains in Hg. lia.
Qed.

Lemma submit_counters_bounded_witness :
  0 <= 1 <= Z.of_nat (length (guesses franceRound)) /\
  0 <= 3 /\
  1 + 3 <= Z.of_nat (length (guesses franceRound))
           + Z.of_nat (length (neighbors franceRound)) /\
  score franceRound
  - (Z.of_nat (length (guesses franceRound)) + Z.of_nat (length (neighbors franceRound)))
    <= score franceFinal <= score franceRound + Z.of_nat (length (guesses franceRound)) /\
  lastRoundGains franceFinal = 1 /\ lastRoundLosses franceFinal = 3.
Proof.
  apply (submit_counters_bounded atlasCountries franceRound franceFinal
           (mkSubmitReport 1 3 3 3 true)).
  vm_compute. reflexivity.
Defined.

(** X11.  A perfect round: in a reachable round in the Guessing state whose
    neighbour list repeats no code, when the codes that have a guess are
    the codes of the answer set, [submit] reports as many gains as there are
    neighbours and no loss, the score rises by that number, and no guess is
    added to the list. *)
Theorem perfect_round cd nd st :
  Reachable cd nd st ->
  Guessing st ->
  guesses st ≠ [] ->
  NoDup (neighbors st) ->
  (∀ c, c ∈ guessCodes (guesses st) <-> c ∈ neighbors st) ->
  ∃ st' r,
    submit cd st = (st', SubmitSuccess r) /\
    gains r = Z.of_nat (length (neighbors st)) /\
    losses r = 0 /\
    score st' = score st + Z.of_nat (length (neighbors st)) /\
    guesses st' = guesses st /\
    progress_found (getState st') = progress_total (getState st').
Proof.
  intros Hreach HG Hne Hnd Hsame.
  pose proof (reachable_consistent cd nd st Hreach) as [Hs _ _ _ _ Hg0].
  destruct (Hg0 HG) as (Ec & Eu & Ei & _).
  destruct (submit_succeeds cd st Hne) as (st' & r & Hsub).
  exists st', r. split; [done |].
  destruct (submit_frame _ _ _ _ Hsub) as (_ & _ & Hn & _ & _ & _ & Hsc & _).
  destruct (submit_sets _ _ _ _ Hsub) as (_ & Hu & _).
  destruct (submit_guesses _ _ _ _ Hsub) as (extra & Hgs & _ & Hall).
  pose proof (submit_gains _ _ _ _ Hsub) as Hgains.
  pose proof (submit_losses _ _ _ _ Hsub (or_introl Hnd)) as Hlosses.
  assert (correctCodes (guesses st) = answerSet st) as Hcc.
  { apply set_eq. intros c. rewrite correctCodes_elem. unfold answerSet.
    rewrite elem_of_list_to_set. split.
    - intros (g & Hin & <- & _). apply Hsame. by apply guessCodes_elem.
    - intros Hin. apply Hsame, guessCodes_inv in Hin as (g & Hin' & <-).
      exists g. repeat split; auto. rewrite (Hs g Hin').
      apply bool_decide_eq_true_2. apply Hsame. by apply guessCodes_elem. }
  assert (incorrectCodes (guesses st) = ∅) as Hic.
  { apply set_eq. intros c. rewrite incorrectCodes_elem. split; [| set_solver].
    intros (g & Hin & <- & Hfalse). rewrite (Hs g Hin) in Hfalse.
    apply bool_decide_eq_false in Hfalse. exfalso. apply Hfalse, Hsame.
    by apply guessCodes_elem. }
  assert (missedCodes st = ∅) as Hmc.
  { apply set_eq. intros c. unfold missedCodes, answerSet.
    rewrite elem_of_difference, !elem_of_list_to_set. split; [| set_solver].
    intros [Hin Hnot]. exfalso. by apply Hnot, Hsame. }
  assert (size (answerSet st) = length (neighbors st)) as Hsize.
  { unfold answerSet. by apply size_list_to_set. }
  rewrite Ec, Hcc in Hgains. rewrite Ei, Hic, Hmc in Hlosses.
  rewrite difference_empty_L, Hsize in Hgains.
  rewrite difference_empty_L, size_empty in Hlosses. simpl in Hlosses.
  split; [done |]. split; [done |]. split; [lia |].
  assert (extra = []) as ->.
  { destruct extra as [|g extra]; [done |]. exfalso.
    destruct (Hall g) as (_ & _ & Hin & Hnot); [by apply elem_of_cons; left |].
    by apply Hnot, Hsame. }
  split; [by rewrite Hgs, app_nil_r |].
  simpl. rewrite Hu, Eu, Ec, Hcc, difference_empty_L, Hn.
  rewrite (left_id_L ∅ (∪)). by rewrite Hsize.
Qed.

Lemma germanyRound_reachable : Reachable atlasCountries atlasNeighbors germanyRound.
Proof. unfold germanyRound. repeat constructor. Qed.

Lemma perfect_round_witness :
  ∃ st' r,
    submit atlasCountries germanyRound = (st', SubmitSuccess r) /\
    gains r = Z.of_nat (length (neighbors germanyRound)) /\
    losses r = 0 /\
    score st' = score germanyRound + Z.of_nat (length (neighbors germanyRound)) /\
    guesses st' = guesses germanyRound /\
    progress_found (getState st') = progress_total (getState st').
Proof.
  apply (perfect_round atlasCountries atlasNeighbors germanyRound).
  - exact germanyRound_reachable.
  - split; reflexivity.
  - vm_compute. discriminate.
  - vm_compute. apply NoDup_singleton.
  - intros c.
    assert (guessCodes (guesses germanyRound) = ["FRA"%string]) as -> by reflexivity.
    assert (neighbors germanyRound = ["FRA"%string]) as -> by reflexivity.
    reflexivity.
Defined.

(* ===================================================================== *)
(** ** The map *)
(* ===================================================================== *)

Lemma fold_left_keeps {A B C} (f : A -> C) (step : A -> B -> A) :
  (∀ a b, f (step a b) = f a) -> ∀ l a, f (fold_left step l a) = f a.
Proof.
  intros Hstep l. induction l as [|b l IH]; intros a; simpl; [done |].
  by rewrite IH, Hstep.
Qed.

Lemma submit_neighborCountries cd st :
  neighborCountries (fst (submit cd st)) = neighborCountries st /\
  targetCountryCode (fst (submit cd st)) = targetCountryCode st /\
  neighbors (fst (submit cd st)) = neighbors st.
Proof.
  destruct (guesses st) as [|g0 gs0] eqn:Hgs; [by rewrite submit_empty |].
  destruct (submit_succeeds cd st) as (st' & r & Hsub); [by rewrite Hgs |].
  rewrite Hsub. cbn [fst].
  destruct (submit_frame _ _ _ _ Hsub) as (_ & Ht & Hn & _).
  split; [| done].
  apply submit_unfold in Hsub. simpl in Hsub. destruct Hsub as (-> & _). simpl.
  rewrite (fold_left_keeps (fun acc => neighborCountries (this acc))).
  - by rewrite (fold_left_keeps (fun acc => neighborCountries (this acc))
                  tallyGuess) by (intros a g; unfold tallyGuess;
                                  destruct (correct g); by case_bool_decide).
  - intros a c. unfold revealMissed. by destruct (findGuess c (guesses (this a))).
Qed.

Lemma neighborCountries_reachable cd nd st :
  Reachable cd nd st -> map neighborCode (neighborCountries st) = neighbors st.
Proof.
  induction 1 as [|draw st _ IH|draw st _ IH|nm st _ IH|c st _ IH|st _ IH|st _ IH].
  - done.
  - unfold startNewRound.
    destruct (getRandomCountryWithNeighbors cd nd draw); [| done].
    simpl. rewrite map_map. apply map_id.
  - unfold nextRound, startNewRound.
    destruct (getRandomCountryWithNeighbors cd nd draw); [| done].
    simpl. rewrite map_map. apply map_id.
  - unfold addGuess. destruct (findCountryByName nm (Some cd)); [| done].
    by destruct (findGuess _ (guesses st)).
  - unfold removeGuess. by destruct (findGuessIndex c (guesses st)).
  - destruct (submit_neighborCountries cd st) as (-> & _ & ->). done.
  - unfold reveal. simpl.
    pose proof (revealNeighbor_frame cd (neighbors st) (setRevealed true st))
      as ((_ & _ & Hn & _) & _).
    simpl in Hn. rewrite Hn.
    rewrite (fold_left_keeps neighborCountries); [done |].
    intros a c. reflexivity.
Qed.

Lemma countryClass_cases t (cn an : gset string) c :
  cn ⊆ an ->
  (countryClass t cn an c = mapTarget <-> Some c = t) /\
  (countryClass t cn an c = mapCorrect <-> Some c ≠ t /\ c ∈ cn) /\
  (countryClass t cn an c = mapMissing <-> Some c ≠ t /\ c ∈ an /\ c ∉ cn) /\
  (countryClass t cn an c = mapOther <-> Some c ≠ t /\ c ∉ an) /\
  (countryDashed t cn an c = true <-> countryClass t cn an c = mapMissing) /\
  (countryLabelled t an c = true <-> countryClass t cn an c ≠ mapOther).
Proof.
  intros Hsub. unfold countryClass, countryDashed, countryLabelled.
  destruct (decide (Some c = t)) as [Ht | Ht];
    [rewrite !(bool_decide_eq_true_2 _ Ht) | rewrite !(bool_decide_eq_false_2 _ Ht)];
    (destruct (decide (c ∈ cn)) as [Hc | Hc];
     [rewrite !(bool_decide_eq_true_2 _ Hc) | rewrite !(bool_decide_eq_false_2 _ Hc)]);
    (destruct (decide (c ∈ an)) as [Ha | Ha];
     [rewrite !(bool_decide_eq_true_2 _ Ha) | rewrite !(bool_decide_eq_false_2 _ Ha)]);
    simpl; repeat split; try done; try tauto; try (intros; exfalso; set_solver);
    try (intros (? & ?); done); try (intros (? & ? & ?); done).
Qed.

(** X12.  The map that main.js draws after [submit] on a reachable round in
    the Guessing state: the codes shown as correct are the player's own
    correct guesses, as many as the found counter says; a shape that is not
    the target is [map-correct] when its code is a neighbour that the player
    guessed, [map-missing] (and dashed) when it is a neighbour without a
    guess of the player, and [map-other] when it is no neighbour, also when
    the player guessed it; the shapes with a label are those that are not
    [map-other]. *)
Theorem map_after_submit cd nd st :
  Reachable cd nd st ->
  Guessing st ->
  guesses st ≠ [] ->
  let st' := fst (submit cd st) in
  let state := getState st' in
  let shown := countryClass (view_targetCountryCode state) (mapCorrectNeighbors state)
                 (mapAllNeighbors state) in
  mapAllNeighbors state = answerSet st /\
  mapCorrectNeighbors state = userCorrectGuesses st' /\
  Z.of_nat (size (mapCorrectNeighbors state)) = progress_found state /\
  (∀ c, shown c = mapTarget <-> Some c = targetCountryCode st) /\
  (∀ c, shown c = mapCorrect <->
        Some c ≠ targetCountryCode st /\ c ∈ neighbors st /\
        c ∈ guessCodes (guesses st)) /\
  (∀ c, shown c = mapMissing <->
        Some c ≠ targetCountryCode st /\ c ∈ neighbors st /\
        c ∉ guessCodes (guesses st)) /\
  (∀ c, shown c = mapOther <-> Some c ≠ targetCountryCode st /\ c ∉ neighbors st) /\
  (∀ c, countryDashed (view_targetCountryCode state) (mapCorrectNeighbors state)
          (mapAllNeighbors state) c = true <-> shown c = mapMissing) /\
  (∀ c, countryLabelled (view_targetCountryCode state) (mapAllNeighbors state) c = true
        <-> shown c ≠ mapOther).
Proof.
  intros Hreach HG Hne st' state shown.
  pose proof (reachable_consistent cd nd st Hreach) as [Hs _ _ _ _ Hg0].
  destruct (Hg0 HG) as (Ec & Eu & _ & Hunrev).
  destruct (submit_neighborCountries cd st) as (Hnc & Ht & Hn).
  pose proof (neighborCountries_reachable cd nd st Hreach) as Hcodes.
  destruct (submit_succeeds cd st Hne) as (st1 & r & Hsub).
  assert (st' = st1) as Hst' by (unfold st'; by rewrite Hsub).
  destruct (submit_sets _ _ _ _ Hsub) as (_ & Hu & _).
  destruct (submit_guesses _ _ _ _ Hsub) as (extra & Hg & _ & Hall).
  rewrite <- Hst' in Hu, Hg.
  assert (mapAllNeighbors state = answerSet st) as Hall_n.
  { unfold mapAllNeighbors, state, answerSet. simpl. fold st'.
    unfold st'. by rewrite Hnc, Hcodes. }
  assert (mapCorrectNeighbors state = correctCodes (guesses st)) as Hcor.
  { unfold mapCorrectNeighbors, state, correctCodes. simpl. fold st'.
    rewrite Hg, List.filter_app.
    rewrite (filter_all_false _ extra).
    2:{ intros g Hgin. destruct (Hall g Hgin) as (_ & -> & _). by rewrite andb_false_r. }
    rewrite app_nil_r. do 2 f_equal. apply filter_agree.
    intros g Hgin. rewrite (Hunrev g Hgin). by rewrite andb_true_r. }
  assert (userCorrectGuesses st' = correctCodes (guesses st)) as Hu'.
  { rewrite Hu, Eu, Ec. set_solver. }
  assert (∀ c, c ∈ correctCodes (guesses st)
               <-> c ∈ neighbors st /\ c ∈ guessCodes (guesses st)) as Hcc.
  { intros c. rewrite correctCodes_elem. split.
    - intros (g & Hin & <- & Hc). rewrite (Hs g Hin) in Hc.
      apply bool_decide_eq_true in Hc. split; [done | by apply guessCodes_elem].
    - intros [Hnb Hin]. apply guessCodes_inv in Hin as (g & Hin & <-).
      exists g. repeat split; auto. rewrite (Hs g Hin). by apply bool_decide_eq_true_2. }
  assert (mapCorrectNeighbors state ⊆ mapAllNeighbors state) as Hsubset.
  { rewrite Hcor, Hall_n. intros c Hc. apply Hcc in Hc as [Hnb _].
    unfold answerSet. by apply elem_of_list_to_set. }
  assert (view_targetCountryCode state = targetCountryCode st) as Htc
    by (unfold state; simpl; fold st'; unfold st'; exact Ht).
  assert (∀ c, c ∈ mapAllNeighbors state <-> c ∈ neighbors st) as Han.
  { intros c. rewrite Hall_n. unfold answerSet. apply elem_of_list_to_set. }
  split; [exact Hall_n |]. split; [by rewrite Hcor, Hu' |].
  split; [simpl; fold st'; by rewrite Hcor, Hu' |].
  assert (∀ c, c ∈ mapCorrectNeighbors state
               <-> c ∈ neighbors st /\ c ∈ guessCodes (guesses st)) as Hcn
    by (intros c; by rewrite Hcor, Hcc).
  split; [| split; [| split; [| split; [| split]]]]; intros c;
    destruct (countryClass_cases (view_targetCountryCode state)
                (mapCorrectNeighbors state) (mapAllNeighbors state) c Hsubset)
      as (H1 & H2 & H3 & H4 & H5 & H6); fold shown in H1, H2, H3, H4, H5, H6;
    rewrite Htc in H1, H2, H3, H4; rewrite Hcn in H2, H3; rewrite Han in H3, H4;
    tauto.
Qed.

Lemma map_after_submit_witness :
  let shown := shownClass franceFinal in
  shown "FRA"%string = mapTarget /\ shown "ESP"%string = mapCorrect /\
  shown "AND"%string = mapMissing /\ shown "PRT"%string = mapOther.
Proof.
  destruct (map_after_submit atlasCountries atlasNeighbors franceRound)
    as (_ & _ & _ & Htarget & Hcorrect & Hmissing & Hother & _).
  - exact franceRound_reachable.
  - split; reflexivity.
  - vm_compute. discriminate.
  - unfold shownClass. split; [| split; [| split]].
    + by apply Htarget.
    + apply Hcorrect. split; [done |].
      assert (neighbors franceRound = ["ESP"; "AND"; "DEU"]%string) as -> by reflexivity.
      assert (guessCodes (guesses franceRound) = ["ESP"; "PRT"]%string) as ->
        by reflexivity.
      split; by apply elem_of_cons; left.
    + apply Hmissing. split; [done |].
      assert (neighbors franceRound = ["ESP"; "AND"; "DEU"]%string) as -> by reflexivity.
      assert (guessCodes (guesses franceRound) = ["ESP"; "PRT"]%string) as ->
        by reflexivity.
      split; [apply elem_of_cons; right; by apply elem_of_cons; left |].
      rewrite !elem_of_cons, elem_of_nil. intros [H | [H | H]]; done.
    + apply Hother. split; [done |].
      assert (neighbors franceRound = ["ESP"; "AND"; "DEU"]%string) as -> by reflexivity.
      rewrite !elem_of_cons, elem_of_nil. intros [H | [H | [H | H]]]; done.
Defined.

(* ===================================================================== *)
(** ** The input field of ui.js *)
(* ===================================================================== *)

Lemma searchScan_elem normalized excludeCodes table r :
  r ∈ searchScan normalized excludeCodes table ->
  ∃ country, (sr_code r, country) ∈ table /\
             sr_name r = name country /\ sr_aliases r = aliases country /\
             sr_code r ∉ excludeCodes.
Proof.
  induction table as [|[key country] rest IH]; simpl; intros Hin.
  - by apply elem_of_nil in Hin.
  - assert (r ∈ searchScan normalized excludeCodes rest ->
            ∃ country0, (sr_code r, country0) ∈ (key, country) :: rest /\
                        sr_name r = name country0 /\ sr_aliases r = aliases country0 /\
                        sr_code r ∉ excludeCodes) as Hrest.
    { intros H. destruct (IH H) as (c0 & H0 & Hrest). exists c0.
      split; [by apply elem_of_cons; right | done]. }
    case_bool_decide as Hex; [auto |].
    destruct (includes (normalizeName (name country)) normalized).
    { apply elem_of_cons in Hin as [-> | Hin]; [| auto].
      exists country. simpl. split; [by apply elem_of_cons; left | done]. }
    destruct (someAlias _ country); [| auto].
    apply elem_of_cons in Hin as [-> | Hin]; [| auto].
    exists country. simpl. split; [by apply elem_of_cons; left | done].
Qed.

Lemma searchCountries_elem table query excludeCodes r :
  r ∈ searchCountries (Some table) query excludeCodes ->
  ∃ country, (sr_code r, country) ∈ table /\
             sr_name r = name country /\ sr_aliases r = aliases country /\
             sr_code r ∉ excludeCodes.
Proof.
  unfold searchCountries. destruct query as [|q query].
  - intros Hin. by apply elem_of_nil in Hin.
  - rewrite arraySort_perm. apply searchScan_elem.
Qed.

Lemma find_first {A} (p : A -> bool) l x :
  x ∈ l -> p x = true -> ∃ y, List.find p l = Some y /\ y ∈ l /\ p y = true.
Proof.
  intros Hin Hp. destruct (List.find p l) as [y|] eqn:Hf.
  - apply find_some in Hf as [Hy Hpy]. exists y. by rewrite list_elem_of_In.
  - apply list_elem_of_In in Hin. pose proof (find_none _ _ Hf x Hin). congruence.
Qed.

Lemma findCountryByName_own_name table key country :
  (key, country) ∈ table ->
  ∃ found, findCountryByName (name country) (Some table) = Some found /\
           found ∈ map snd table /\
           nameMatches (normalizeName (name country)) found = true.
Proof.
  intros Hin. simpl. rewrite findNormalized_find.
  apply (find_first _ _ country).
  - by apply (list_elem_of_fmap_2 snd) in Hin.
  - unfold nameMatches. apply orb_true_iff. left. by apply strEq_true.
Qed.

(** X13.  What the dropdown of ui.js offers can be added.  The suggestions
    [handleInput] computes, and [showDropdown] shows the first ten of, are
    entries of the country table whose code has no guess, and
    [findCountryByName] resolves the name of each of them, so clicking one
    never fails with "Country not found".  When the table is as the data
    script writes it and no name in it is ambiguous, [addGuess] with the
    name of a suggestion succeeds and appends the guess for the very code
    of the suggestion. *)
Theorem suggestion_can_be_added cd value st suggestions r :
  handleInput cd value st = Some suggestions ->
  r ∈ displaySuggestions suggestions ->
  (length (displaySuggestions suggestions) <= 10)%nat /\
  (sr_code r ∉ guessCodes (guesses st)) /\
  (∃ country, (sr_code r, country) ∈ cd /\ sr_name r = name country) /\
  snd (addGuess cd (sr_name r) st) ≠ AddGuessFailure CountryNotFound /\
  (tableKeyed cd -> namesUnambiguous cd ->
   ∃ country,
     (sr_code r, country) ∈ cd /\
     addGuess cd (sr_name r) st =
       (setGuesses
          (guesses st ++ [mkGuess (sr_code r) (sr_name r)
                            (bool_decide (sr_code r ∈ neighbors st)) false]) st,
        AddGuessSuccess country (bool_decide (sr_code r ∈ neighbors st)))).
Proof.
  unfold handleInput, displaySuggestions. intros Hinput Hr.
  destruct (trim value) as [|q query] eqn:Hq; [done |].
  injection Hinput as <-. apply subseteq_take in Hr.
  apply (searchCountries_elem cd (q :: query)) in Hr
    as (country & Hin & Hname & _ & Hex).
  fold (guessCodes (guesses st)) in Hex.
  destruct (findCountryByName_own_name cd _ _ Hin) as (found & Hfind & Hfin & Hm).
  split; [rewrite length_take; lia |]. split; [done |].
  split; [by exists country |]. split.
  - unfold addGuess. rewrite Hname, Hfind.
    by destruct (findGuess (code found) (guesses st)).
  - intros [_ Hcode] Hunamb. exists country. split; [done |].
    pose proof (Hunamb (sr_code r) country found Hin Hfin Hm) as ->.
    pose proof (Hcode _ _ Hin) as Hc.
    unfold addGuess. rewrite Hname, Hfind, Hc.
    apply findGuess_None in Hex. by rewrite Hex.
Qed.

Lemma atlas_namesUnambiguous : namesUnambiguous atlasCountries.
Proof.
  intros key country other Hin Hother Hm. unfold atlasCountries in Hin.
  assert (List.find (nameMatches (normalizeName (name country))) (map snd atlasCountries)
          = Some country /\
          List.filter (nameMatches (normalizeName (name country))) (map snd atlasCountries)
          = [country]) as [_ Hfilter].
  { repeat (apply elem_of_cons in Hin as [[= -> ->] | Hin];
            [split; vm_compute; reflexivity |]).
    by apply elem_of_nil in Hin. }
  assert (other ∈ List.filter (nameMatches (normalizeName (name country)))
                    (map snd atlasCountries)) as Hof.
  { apply list_elem_of_In, filter_In. split; [by apply list_elem_of_In | done]. }
  rewrite Hfilter in Hof. by apply list_elem_of_singleton in Hof.
Qed.

Lemma suggestion_can_be_added_witness :
  ∃ country,
    ("DEU"%string, country) ∈ atlasCountries /\
    addGuess atlasCountries (js "Germany") franceRound =
      (setGuesses
         (guesses franceRound ++ [mkGuess "DEU" (js "Germany")
                                    (bool_decide ("DEU"%string ∈ neighbors franceRound))
                                    false]) franceRound,
       AddGuessSuccess country (bool_decide ("DEU"%string ∈ neighbors franceRound))).
Proof.
  destruct (suggestion_can_be_added atlasCountries (js " deut") franceRound
              [mkSearchResult "DEU" (js "Germany") (Some [js "Deutschland"]) matchAlias]
              (mkSearchResult "DEU" (js "Germany") (Some [js "Deutschland"]) matchAlias))
    as (_ & _ & _ & _ & Hadd).
  - vm_compute. reflexivity.
  - by apply elem_of_cons; left.
  - apply Hadd; [exact atlas_tableKeyed | exact atlas_namesUnambiguous].
Defined.

(** X14.  Backspace in the empty input field, in a reachable state: the
    chip it removes is the last guess of the list, and it removes one
    unless there is no guess or the last guess is correct and the round is
    submitted; [removeGuess] then returns [true] and leaves the guesses
    before the last. *)
Theorem backspace_removes_last cd nd st :
  Reachable cd nd st ->
  match backspaceChip st with
  | Some c =>
      ∃ front lastGuess,
        guesses st = front ++ [lastGuess] /\ guessCode lastGuess = c /\
        (correct lastGuess = false \/ submitted st = false) /\
        removeGuess c st = (setGuesses front st, true)
  | None =>
      guesses st = [] \/
      ∃ lastGuess, last (guesses st) = Some lastGuess /\
                   correct lastGuess = true /\ submitted st = true
  end.
Proof.
  intros Hreach. pose proof (reachable_consistent cd nd st Hreach) as [_ Hnd _ _ _ _].
  unfold backspaceChip. destruct (last (guesses st)) as [g|] eqn:Hlast.
  2:{ left. by apply last_None. }
  destruct (negb (correct g) || negb (submitted st))%bool eqn:Hcond.
  - apply last_Some in Hlast as [front Hgs]. exists front, g.
    split; [done |]. split; [done |]. split.
    + apply orb_true_iff in Hcond as [H | H]; apply negb_true_iff in H; auto.
    + rewrite Hgs, guessCodes_app in Hnd. apply NoDup_app in Hnd as (_ & Hdisj & _).
      assert (guessCode g ∉ guessCodes front) as Hnot.
      { intros Hin. apply (Hdisj _ Hin). simpl. by apply list_elem_of_singleton. }
      unfold removeGuess. rewrite Hgs.
      rewrite (findGuessIndex_split (guessCode g) front g [] eq_refl Hnot).
      by rewrite delete_middle, app_nil_r.
  - right. exists g. split; [done |].
    apply orb_false_iff in Hcond as [H1 H2].
    apply negb_false_iff in H1, H2. done.
Qed.

Lemma backspace_removes_last_witness :
  ∃ front lastGuess,
    guesses franceRound = front ++ [lastGuess] /\ guessCode lastGuess = "PRT"%string /\
    (correct lastGuess = false \/ submitted franceRound = false) /\
    removeGuess "PRT" franceRound = (setGuesses front franceRound, true).
Proof.
  exact (backspace_removes_last atlasCountries atlasNeighbors franceRound
           franceRound_reachable).
Defined.

(* ===================================================================== *)
(** ** The selection of the dropdown *)
(* ===================================================================== *)

Lemma moveSelection_range items keys :
  -1 <= fold_left (moveSelection items) keys (-1) < Z.of_nat items.
Proof.
  assert (∀ selected, -1 <= selected < Z.of_nat items ->
            -1 <= fold_left (moveSelection items) keys selected < Z.of_nat items)
    as Hall; [| apply Hall; lia].
  induction keys as [|key keys IH]; intros selected Hsel; simpl; [done |].
  apply IH. destruct key; simpl; lia.
Qed.

(** X15.  [showDropdown] sets the selection to -1 and shows at most ten
    items.  Whatever arrow keys follow, the selection stays between -1 and
    the last item; Enter on a selected item gives [addChipFromInput] the
    name of that suggestion, and Enter without selection gives it a name
    only when there is exactly one suggestion. *)
Theorem selection_stays_in_dropdown suggestions keys :
  let items := length (displaySuggestions suggestions) in
  let selected := fold_left (moveSelection items) keys (-1) in
  (items <= 10)%nat /\
  -1 <= selected < Z.of_nat items /\
  (0 <= selected ->
   ∃ r, displaySuggestions suggestions !! Z.to_nat selected = Some r /\
        r ∈ suggestions /\
        enterChoice suggestions selected = Some (sr_name r)) /\
  (selected = -1 ->
   ∀ countryName, enterChoice suggestions selected = Some countryName
                  <-> ∃ r, suggestions = [r] /\ countryName = sr_name r).
Proof.
  intros items selected.
  pose proof (moveSelection_range items keys) as Hrange. fold selected in Hrange.
  split; [| split; [done | split]].
  - unfold items, displaySuggestions. rewrite length_take. lia.
  - intros Hsel.
    destruct (lookup_lt_is_Some_2 (displaySuggestions suggestions) (Z.to_nat selected))
      as [r Hr]; [unfold items in Hrange; lia |].
    exists r. split; [done |]. split.
    + apply list_elem_of_lookup_2 in Hr. unfold displaySuggestions in Hr.
      by apply (subseteq_take 10 suggestions).
    + unfold enterChoice. rewrite (proj2 (Z.leb_le 0 selected) Hsel).
      rewrite list_lookup_fmap, Hr. done.
  - intros Hsel countryName. unfold enterChoice. rewrite Hsel. simpl.
    destruct suggestions as [|r [|r' rest]]; split.
    + done.
    + by intros (r & ? & _).
    + intros [= <-]. by exists r.
    + by intros (r0 & [= <-] & ->).
    + done.
    + by intros (r0 & ? & _).
Qed.

Lemma selection_stays_in_dropdown_witness :
  ∃ r, displaySuggestions (searchCountries (Some atlasCountries) (js "an") [])
         !! Z.to_nat (fold_left (moveSelection 5) [ArrowDown; ArrowDown; ArrowUp] (-1))
       = Some r /\
       r ∈ searchCountries (Some atlasCountries) (js "an") [] /\
       enterChoice (searchCountries (Some atlasCountries) (js "an") [])
         (fold_left (moveSelection 5) [ArrowDown; ArrowDown; ArrowUp] (-1))
       = Some (sr_name r).
Proof.
  destruct (selection_stays_in_dropdown
              (searchCountries (Some atlasCountries) (js "an") [])
              [ArrowDown; ArrowDown; ArrowUp]) as (_ & _ & Hsel & _).
  apply Hsel. vm_compute. discriminate.
Defined.

(* ===================================================================== *)
(** ** regions.js *)
(* ===================================================================== *)

Lemma getProp_filter {A} (p : string -> bool) (table : list (string * A)) key :
  getProp (List.filter (fun entry => p (fst entry)) table) key
  = if p key then getProp table key else None.
Proof.
  induction table as [|[k v] rest IH]; simpl; [by destruct (p key) |].
  destruct (p k) eqn:Hk; simpl; case_bool_decide as Hkey; subst.
  - by rewrite Hk.
  - exact IH.
  - by rewrite IH, Hk.
  - exact IH.
Qed.

Lemma filter_twice {A} (p q : A -> bool) l :
  List.filter p (List.filter q l) = List.filter q (List.filter p l).
Proof.
  induction l as [|x l IH]; simpl; [done |].
  destruct (p x) eqn:Hp, (q x) eqn:Hq; simpl; rewrite ?Hp, ?Hq, IH; done.
Qed.

Lemma filter_again {A} (p : A -> bool) l :
  List.filter p (List.filter p l) = List.filter p l.
Proof.
  induction l as [|x l IH]; simpl; [done |].
  destruct (p x) eqn:Hp; simpl; rewrite ?Hp, IH; done.
Qed.

Lemma filter_sublist {A} (p : A -> bool) l : List.filter p l `sublist_of` l.
Proof.
  induction l as [|x l IH]; simpl; [done |].
  destruct (p x); [by apply sublist_skip | by apply sublist_cons].
Qed.

(** X16.  [filterCountriesByRegion] and [isCountryInRegion] agree: looking a
    code up in the filtered table gives its entry of the table when the code
    is in the region, and nothing otherwise.  The filtered table is the
    table with entries left out, in the same order; filtering again by the
    same region changes nothing, and two regions can be applied in either
    order. *)
Theorem region_filter_lookup {A : Type} (countries : list (string * A)) (id : string) :
  (∀ key, getProp (filterCountriesByRegion countries id) key
          = if isCountryInRegion key id then getProp countries key else None) /\
  filterCountriesByRegion countries id `sublist_of` countries /\
  filterCountriesByRegion (filterCountriesByRegion countries id) id
  = filterCountriesByRegion countries id /\
  (∀ id', filterCountriesByRegion (filterCountriesByRegion countries id) id'
          = filterCountriesByRegion (filterCountriesByRegion countries id') id).
Proof.
  unfold filterCountriesByRegion, isCountryInRegion.
  destruct (regionCountries (getRegion id)) as [cs|].
  - split; [| split; [| split]].
    + intros key.
      exact (getProp_filter (fun k : string => bool_decide (k ∈ cs)) countries key).
    + apply filter_sublist.
    + apply filter_again.
    + intros id'. destruct (regionCountries (getRegion id')); [| done].
      apply filter_twice.
  - repeat split; auto.
Qed.



(** Europe of the small directory. *)
Example atlas_europe :
  map fst (filterCountriesByRegion atlasCountries "EUROPE")
  = ["FRA"; "ESP"; "DEU"; "PRT"; "ISL"; "GBR"]%string.
Proof. vm_compute. reflexivity. Qed.

(* ===================================================================== *)
(** ** More on [searchCountries] *)
(* ===================================================================== *)

Lemma searchScan_codes normalized excludeCodes table :
  map sr_code (searchScan normalized excludeCodes table)
  = map fst (List.filter (searchMatches normalized excludeCodes) table).
Proof.
  pose proof (searchScan_filter normalized excludeCodes table) as H.
  apply (f_equal (map (fun e : string * jsstring * option (list jsstring) => fst (fst e))))
    in H.
  rewrite !map_map in H. exact H.
Qed.

Lemma searchScan_matchType normalized excludeCodes table r :
  r ∈ searchScan normalized excludeCodes table ->
  match sr_matchType r with
  | matchName => includes (normalizeName (sr_name r)) normalized = true
  | matchAlias =>
      includes (normalizeName (sr_name r)) normalized = false /\
      ∃ alias als, sr_aliases r = Some als /\ alias ∈ als /\
                   includes (normalizeName alias) normalized = true
  end.
Proof.
  induction table as [|[key country] rest IH]; simpl; intros Hin.
  - by apply elem_of_nil in Hin.
  - revert Hin. case_bool_decide as Hex; [exact IH |].
    destruct (includes (normalizeName (name country)) normalized) eqn:Hname.
    { intros Hin. apply elem_of_cons in Hin as [-> | Hin]; [done | by apply IH]. }
    destruct (someAlias _ country) eqn:Halias; [| exact IH].
    intros Hin. apply elem_of_cons in Hin as [-> | Hin]; [| by apply IH].
    simpl. split; [done |]. by apply someAlias_true in Halias.
Qed.

(** X18.  A country is listed at most once by [searchCountries] when the
    keys of the country table are distinct.  A result is tagged with the
    match type 'name' when its normalized canonical name contains the
    normalized query, and with 'alias' only when the canonical name does
    not but one of its aliases does.  Without a table (the data is not
    loaded) there is no result. *)
Theorem searchCountries_listing table query excludeCodes :
  (NoDup (map fst table) ->
   NoDup (map sr_code (searchCountries (Some table) query excludeCodes))) /\
  (∀ r, r ∈ searchCountries (Some table) query excludeCodes ->
        match sr_matchType r with
        | matchName =>
            isSubstring (normalizeName query) (normalizeName (sr_name r))
        | matchAlias =>
            ¬ isSubstring (normalizeName query) (normalizeName (sr_name r)) /\
            ∃ alias als, sr_aliases r = Some als /\ alias ∈ als /\
                         isSubstring (normalizeName query) (normalizeName alias)
        end) /\
  searchCountries None query excludeCodes = [].
Proof.
  split; [| split; [| done]].
  - intros Hnd. unfold searchCountries. destruct query as [|q query]; [constructor |].
    rewrite arraySort_perm, searchScan_codes.
    eapply sublist_NoDup; [exact Hnd |]. apply fmap_sublist, filter_sublist.
  - intros r Hr. unfold searchCountries in Hr. destruct query as [|q query].
    { by apply elem_of_nil in Hr. }
    rewrite arraySort_perm in Hr. apply searchScan_matchType in Hr.
    destruct (sr_matchType r).
    + by apply includes_spec.
    + destruct Hr as (Hno & alias & als & Hals & Hin & Hyes). split.
      * intros Hsub. apply includes_spec in Hsub. congruence.
      * exists alias, als. repeat split; auto. by apply includes_spec.
Qed.

Lemma atlasCountries_keys : NoDup (map fst atlasCountries).
Proof. exact (proj1 atlas_tableKeyed). Qed.

Lemma searchCountries_listing_witness :
  NoDup (map sr_code (searchCountries (Some atlasCountries) (js "an") [])).
Proof.
  apply (searchCountries_listing atlasCountries (js "an") []).
  exact atlasCountries_keys.
Defined.

(** Five countries for "an", Spain by its alias; Spain is first, by the
    length of its canonical name. *)
Example search_an :
  map (fun r => (sr_code r, sr_matchType r))
      (searchCountries (Some atlasCountries) (js "an") [])
  = [("ESP", matchAlias); ("FRA", matchName); ("DEU", matchName); ("AND", matchName);
     ("ISL", matchName)]%string.
Proof. vm_compute. reflexivity. Qed.



(* ===================================================================== *)
(** ** More on [normalizeName] *)
(* ===================================================================== *)
























(** Two names of the small directory, normalized. *)
Example normalizeName_examples :
  normalizeName (js "  Dem.   Rep.  CONGO ") = js "dem rep congo" /\
  normalizeName coteDIvoire = js "cote divoire".
Proof. vm_compute. done. Qed.

(* ===================================================================== *)
(** ** scripts/prepare-data.js: the adjacency table *)
(* ===================================================================== *)

Lemma getProp_is_Some {A} (table : list (string * A)) key :
  is_Some (getProp table key) <-> key ∈ map fst table.
Proof.
  induction table as [|[k v] rest IH]; simpl.
  - split; [by intros [? ?] | intros H; by apply elem_of_nil in H].
  - rewrite elem_of_cons. case_bool_decide as Hk.
    + split; [by left | by eexists].
    + rewrite IH. split; [by right | intros [-> | H]; done].
Qed.

Lemma getProp_setProp {A} (table : list (string * A)) key v a :
  getProp (setProp table key v) a
  = if bool_decide (a = key) then Some v else getProp table a.
Proof.
  induction table as [|[k w] rest IH]; simpl.
  - repeat case_bool_decide; congruence.
  - destruct (decide (k = key)) as [-> | Hk].
    + rewrite bool_decide_eq_true_2 by done. simpl.
      repeat case_bool_decide; congruence.
    + rewrite bool_decide_eq_false_2 by done. simpl. rewrite IH.
      repeat case_bool_decide; congruence.
Qed.

Lemma setProp_keys {A B} (t1 : list (string * A)) (t2 : list (string * B)) key v1 v2 :
  map fst t1 = map fst t2 ->
  map fst (setProp t1 key v1) = map fst (setProp t2 key v2).
Proof.
  revert t2. induction t1 as [|[k w] rest IH]; intros [|[k' w'] rest']; simpl;
    try done.
  intros [= -> Hrest]. case_bool_decide; simpl; [by rewrite Hrest |].
  by rewrite (IH rest' Hrest).
Qed.

Lemma setProp_elem_keys {A} (table : list (string * A)) key v c :
  c ∈ map fst (setProp table key v) <-> c = key \/ c ∈ map fst table.
Proof.
  rewrite <- !getProp_is_Some, getProp_setProp.
  case_bool_decide as Hc.
  - split; [intros _; by left | intros _; by eexists].
  - split; [intros H; by right | intros [-> | H]; done].
Qed.

Lemma setProp_NoDup {A} (table : list (string * A)) key v :
  NoDup (map fst table) -> NoDup (map fst (setProp table key v)).
Proof.
  induction table as [|[k w] rest IH]; simpl; intros Hnd.
  - apply NoDup_singleton.
  - apply NoDup_cons in Hnd as [Hnot Hnd]. case_bool_decide as Hk; simpl.
    + by apply NoDup_cons.
    + apply NoDup_cons. split; [| by apply IH].
      rewrite setProp_elem_keys. intros [-> | H]; done.
Qed.

Lemma setProp_fresh {A} (table : list (string * A)) key v :
  key ∉ map fst table -> setProp table key v = table ++ [(key, v)].
Proof.
  induction table as [|[k w] rest IH]; simpl; intros Hnot; [done |].
  apply not_elem_of_cons in Hnot as [Hne Hnot].
  rewrite bool_decide_eq_false_2 by done. by rewrite IH.
Qed.

Lemma pushProp_keys table key x : map fst (pushProp table key x) = map fst table.
Proof.
  induction table as [|[k l] rest IH]; simpl; [done |].
  case_bool_decide; simpl; [done | by rewrite IH].
Qed.

Lemma getProp_pushProp table key x a :
  getProp (pushProp table key x) a
  = if bool_decide (a = key)
    then option_map (fun l => l ++ [x]) (getProp table key)
    else getProp table a.
Proof.
  induction table as [|[k l] rest IH]; simpl.
  - by case_bool_decide.
  - destruct (decide (k = key)) as [Hk | Hk].
    + rewrite (bool_decide_eq_true_2 (k = key)) by done. simpl.
      destruct (decide (a = key)) as [Ha | Ha].
      * rewrite (bool_decide_eq_true_2 (a = key)) by done.
        by rewrite (bool_decide_eq_true_2 (k = a)) by congruence.
      * rewrite (bool_decide_eq_false_2 (a = key)) by done.
        by rewrite (bool_decide_eq_false_2 (k = a)) by congruence.
    + rewrite (bool_decide_eq_false_2 (k = key)) by done. simpl. rewrite IH.
      destruct (decide (a = key)) as [Ha | Ha].
      * rewrite (bool_decide_eq_true_2 (a = key)) by done.
        by rewrite (bool_decide_eq_false_2 (k = a)) by congruence.
      * by rewrite (bool_decide_eq_false_2 (a = key)) by done.
Qed.

Lemma getNeighbors_pushProp table key x a :
  key ∈ map fst table ->
  getNeighbors (pushProp table key x) a
  = getNeighbors table a ++ (if bool_decide (a = key) then [x] else []).
Proof.
  intros Hin. apply getProp_is_Some in Hin as [l Hl].
  unfold getNeighbors. rewrite getProp_pushProp.
  case_bool_decide as Ha.
  - subst. by rewrite Hl.
  - by rewrite app_nil_r.
Qed.

Lemma occurrences_app b l l' :
  occurrences b (l ++ l') = (occurrences b l + occurrences b l')%nat.
Proof. unfold occurrences. by rewrite List.filter_app, length_app. Qed.

Lemma occurrences_elem b l : b ∈ l <-> (0 < occurrences b l)%nat.
Proof.
  unfold occurrences. induction l as [|x l IH]; simpl.
  - split; [intros H; by apply elem_of_nil in H | lia].
  - rewrite elem_of_cons. case_bool_decide as Hx; simpl.
    + split; [lia | by left].
    + rewrite IH. split; [intros [-> | H]; done | by right].
Qed.

Lemma occurrences_NoDup l : NoDup l <-> ∀ b, (occurrences b l <= 1)%nat.
Proof.
  unfold occurrences. induction l as [|x l IH]; simpl.
  - split; [intros _ b; lia | intros _; constructor].
  - rewrite NoDup_cons, IH. split.
    + intros [Hnot Hall] b. case_bool_decide as Hx; simpl; [| apply Hall].
      subst. apply occurrences_elem in Hnot || idtac.
      assert (occurrences b l = 0)%nat as H0.
      { destruct (occurrences b l) eqn:E; [done |]. exfalso. apply Hnot.
        apply occurrences_elem. lia. }
      unfold occurrences in H0. rewrite H0. lia.
    + intros Hall. split.
      * intros Hin. apply occurrences_elem in Hin. unfold occurrences in Hin.
        specialize (Hall x). rewrite bool_decide_eq_true_2 in Hall by done.
        simpl in Hall. lia.
      * intros b. specialize (Hall b). case_bool_decide; simpl in Hall; lia.
Qed.

Section PrepareDataProofs.

Context {Geometry : Type}.
Variable booleanIntersects : Feature Geometry -> Feature Geometry -> option bool.

Lemma linkPair_keys f1 table f2 :
  map fst (linkPair booleanIntersects f1 table f2) = map fst table.
Proof.
  unfold linkPair. destruct (booleanIntersects f1 f2) as [[|]|]; try done.
  by rewrite !pushProp_keys.
Qed.

Lemma linkPair_count f1 table f2 a b :
  featureCode f1 ∈ map fst table -> featureCode f2 ∈ map fst table ->
  occurrences b (getNeighbors (linkPair booleanIntersects f1 table f2) a)
  = (occurrences b (getNeighbors table a) + linkCount booleanIntersects f1 f2 a b)%nat.
Proof.
  intros H1 H2. unfold linkPair, linkCount.
  destruct (booleanIntersects f1 f2) as [[|]|]; try lia.
  rewrite getNeighbors_pushProp by (by rewrite pushProp_keys).
  rewrite getNeighbors_pushProp by done.
  rewrite !occurrences_app. unfold occurrences.
  generalize (featureCode f1) (featureCode f2). intros c1 c2.
  destruct (decide (a = c1)), (decide (a = c2)), (decide (c1 = b)),
    (decide (c2 = b));
    repeat match goal with
    | |- context [bool_decide ?P] =>
        first [ rewrite (bool_decide_eq_true_2 P) by (intuition congruence)
              | rewrite (bool_decide_eq_false_2 P) by (intuition congruence) ];
        simpl
    end; lia.
Qed.

Lemma link_inner f1 rest table a b :
  featureCode f1 ∈ map fst table ->
  (∀ f2, f2 ∈ rest -> featureCode f2 ∈ map fst table) ->
  map fst (fold_left (linkPair booleanIntersects f1) rest table) = map fst table /\
  occurrences b (getNeighbors (fold_left (linkPair booleanIntersects f1) rest table) a)
  = (occurrences b (getNeighbors table a)
     + sum_list (map (fun f2 => linkCount booleanIntersects f1 f2 a b) rest))%nat.
Proof.
  revert table. induction rest as [|f2 rest IH]; intros table H1 Hrest; simpl.
  - split; [done | lia].
  - destruct (IH (linkPair booleanIntersects f1 table f2)) as [Hk Hc].
    + by rewrite linkPair_keys.
    + intros f Hf. rewrite linkPair_keys. apply Hrest. by apply elem_of_cons; right.
    + rewrite Hk, Hc, linkPair_keys. split; [done |].
      rewrite linkPair_count; [lia | done |]. apply Hrest. by apply elem_of_cons; left.
Qed.

Lemma link_outer features table a b :
  (∀ f, f ∈ features -> featureCode f ∈ map fst table) ->
  map fst (linkFeatures booleanIntersects features table) = map fst table /\
  occurrences b (getNeighbors (linkFeatures booleanIntersects features table) a)
  = (occurrences b (getNeighbors table a) + links booleanIntersects features a b)%nat.
Proof.
  revert table. induction features as [|f1 rest IH]; intros table Hkeys; simpl.
  - split; [done | lia].
  - destruct (link_inner f1 rest table a b) as [Hk Hc].
    + apply Hkeys. by apply elem_of_cons; left.
    + intros f Hf. apply Hkeys. by apply elem_of_cons; right.
    + destruct (IH (fold_left (linkPair booleanIntersects f1) rest table)) as [Hk' Hc'].
      * intros f Hf. rewrite Hk. apply Hkeys. by apply elem_of_cons; right.
      * rewrite Hk', Hc', Hk, Hc. split; [done | lia].
Qed.

Lemma initNeighbors_fold (features : list (Feature Geometry)) table :
  NoDup (map fst table) -> (∀ a, getNeighbors table a = []) ->
  let table' := fold_left (fun t f => setProp t (featureCode f) []) features table in
  NoDup (map fst table') /\
  (∀ c, c ∈ map fst table' <-> c ∈ map fst table \/ c ∈ map featureCode features) /\
  (∀ a, getNeighbors table' a = []).
Proof.
  revert table. induction features as [|f rest IH]; intros table Hnd Hempty; simpl.
  - split; [done |]. split; [| done]. intros c. split; [by left |].
    intros [H | H]; [done | by apply elem_of_nil in H].
  - destruct (IH (setProp table (featureCode f) [])) as (Hnd' & Hkeys & Hempty').
    + by apply setProp_NoDup.
    + intros a. unfold getNeighbors. rewrite getProp_setProp.
      case_bool_decide; [done | apply Hempty].
    + split; [done |]. split; [| done]. intros c. rewrite Hkeys, setProp_elem_keys.
      rewrite elem_of_cons. tauto.
Qed.

Lemma initNeighbors_spec (features : list (Feature Geometry)) :
  NoDup (map fst (initNeighbors features)) /\
  (∀ c, c ∈ map fst (initNeighbors features) <-> c ∈ map featureCode features) /\
  (∀ a, getNeighbors (initNeighbors features) a = []).
Proof.
  destruct (initNeighbors_fold features []) as (Hnd & Hkeys & Hempty);
    [constructor | done |].
  split; [done |]. split; [| done]. intros c. rewrite (Hkeys c). split; [| by right].
  intros [H | H]; [by apply elem_of_nil in H | done].
Qed.

Lemma computeNeighbors_count features a b :
  map fst (computeNeighbors booleanIntersects features) = map fst (initNeighbors features) /\
  occurrences b (getNeighbors (computeNeighbors booleanIntersects features) a)
  = links booleanIntersects features a b.
Proof.
  destruct (initNeighbors_spec features) as (_ & Hkeys & Hempty).
  destruct (link_outer features (initNeighbors features) a b) as [Hk Hc].
  { intros f Hf. apply Hkeys. by apply list_elem_of_fmap_2. }
  split; [done |]. unfold computeNeighbors. rewrite Hc, Hempty. done.
Qed.

Lemma linkCount_sym f1 f2 a b :
  linkCount booleanIntersects f1 f2 a b = linkCount booleanIntersects f1 f2 b a.
Proof.
  unfold linkCount. destruct (booleanIntersects f1 f2) as [[|]|]; try done.
  repeat case_bool_decide; try lia; exfalso; intuition congruence.
Qed.

Lemma links_sym features a b :
  links booleanIntersects features a b = links booleanIntersects features b a.
Proof.
  induction features as [|f1 rest IH]; simpl; [done |]. rewrite IH. f_equal.
  f_equal. apply map_ext. intros f2. apply linkCount_sym.
Qed.

(** X22.  The adjacency table that [computeNeighbors] builds is symmetric,
    whatever the features and whatever [booleanIntersects] answers (or
    throws): [b] stands in the list of [a] as often as [a] stands in the
    list of [b]. *)
Theorem computeNeighbors_symmetric features a b :
  let neighborsOf := getNeighbors (computeNeighbors booleanIntersects features) in
  occurrences b (neighborsOf a) = occurrences a (neighborsOf b) /\
  (b ∈ neighborsOf a <-> a ∈ neighborsOf b).
Proof.
  intros neighborsOf.
  assert (occurrences b (neighborsOf a) = occurrences a (neighborsOf b)) as Hocc.
  { unfold neighborsOf.
    destruct (computeNeighbors_count features a b) as [_ ->].
    destruct (computeNeighbors_count features b a) as [_ ->].
    apply links_sym. }
  split; [exact Hocc |]. rewrite !occurrences_elem. by rewrite Hocc.
Qed.

Lemma sum_list_pos {A} (g : A -> nat) l :
  (0 < sum_list (map g l))%nat <-> ∃ x, x ∈ l /\ (0 < g x)%nat.
Proof.
  induction l as [|y l IH]; simpl.
  - split; [lia | intros (x & Hx & _); by apply elem_of_nil in Hx].
  - split.
    + intros H. destruct (decide (0 < g y)%nat) as [Hy | Hy].
      * exists y. split; [by apply elem_of_cons; left | done].
      * destruct IH as [IH _]. destruct IH as (x & Hx & Hg); [lia |].
        exists x. split; [by apply elem_of_cons; right | done].
    + intros (x & Hx & Hg). apply elem_of_cons in Hx as [-> | Hx]; [lia |].
      destruct IH as [_ IH]. specialize (IH (ex_intro _ x (conj Hx Hg))). lia.
Qed.

Lemma linkCount_pos f1 f2 a b :
  (0 < linkCount booleanIntersects f1 f2 a b)%nat <->
  booleanIntersects f1 f2 = Some true /\
  ((featureCode f1 = a /\ featureCode f2 = b) \/
   (featureCode f2 = a /\ featureCode f1 = b)).
Proof.
  unfold linkCount. destruct (booleanIntersects f1 f2) as [[|]|].
  - split.
    + intros H. split; [done |].
      destruct (decide (featureCode f1 = a /\ featureCode f2 = b)) as [H1 | H1];
        [by left |].
      destruct (decide (featureCode f2 = a /\ featureCode f1 = b)) as [H2 | H2];
        [by right |].
      rewrite !bool_decide_eq_false_2 in H by done. lia.
    + intros [_ [H1 | H2]].
      * rewrite (bool_decide_eq_true_2 _ H1). lia.
      * rewrite (bool_decide_eq_true_2 _ H2). lia.
  - split; [lia | by intros [? _]].
  - split; [lia | by intros [? _]].
Qed.

Lemma links_intersecting features a b :
  (0 < links booleanIntersects features a b)%nat <->
  intersecting booleanIntersects features a b.
Proof.
  induction features as [|f1 rest IH]; simpl.
  - split; [lia |]. intros (front & g1 & middle & g2 & back & Heq & _).
    by destruct front.
  - split.
    + intros H.
      destruct (decide (0 < sum_list (map (fun f2 => linkCount booleanIntersects f1 f2 a b)
                                        rest))%nat) as [Hs | Hs].
      * apply sum_list_pos in Hs as (f2 & Hf2 & Hpos).
        apply linkCount_pos in Hpos as [Hint Hcodes].
        apply list_elem_of_split in Hf2 as (middle & back & ->).
        by exists [], f1, middle, f2, back.
      * destruct IH as [IH _].
        destruct IH as (front & g1 & middle & g2 & back & -> & Hint & Hcodes); [lia |].
        by exists (f1 :: front), g1, middle, g2, back.
    + intros (front & g1 & middle & g2 & back & Heq & Hint & Hcodes).
      destruct front as [|f front]; simpl in Heq; injection Heq as -> ->.
      * assert (0 < sum_list (map (fun f2 => linkCount booleanIntersects g1 f2 a b)
                                (middle ++ g2 :: back)))%nat; [| lia].
        apply sum_list_pos. exists g2. split.
        { apply elem_of_app. right. by apply elem_of_cons; left. }
        by apply linkCount_pos.
      * destruct IH as [_ IH].
        assert (0 < links booleanIntersects (front ++ g1 :: middle ++ g2 :: back) a b)%nat;
          [| lia].
        apply IH. by exists front, g1, middle, g2, back.
Qed.

Lemma intersecting_codes features a b :
  intersecting booleanIntersects features a b ->
  a ∈ map featureCode features /\ b ∈ map featureCode features.
Proof.
  intros (front & g1 & middle & g2 & back & -> & _ & Hcodes).
  assert (featureCode g1 ∈ map featureCode (front ++ g1 :: middle ++ g2 :: back)) as H1.
  { apply list_elem_of_fmap_2, elem_of_app. right. by apply elem_of_cons; left. }
  assert (featureCode g2 ∈ map featureCode (front ++ g1 :: middle ++ g2 :: back)) as H2.
  { apply list_elem_of_fmap_2, elem_of_app. right. apply elem_of_cons; right.
    apply elem_of_app. right. by apply elem_of_cons; left. }
  destruct Hcodes as [[<- <-] | [<- <-]]; done.
Qed.

Lemma links_absent features a b :
  (a ∉ map featureCode features) \/ (b ∉ map featureCode features) ->
  links booleanIntersects features a b = 0%nat.
Proof.
  intros Hnot. destruct (links booleanIntersects features a b) eqn:E; [done |].
  assert (0 < links booleanIntersects features a b)%nat as Hpos by lia.
  apply links_intersecting, intersecting_codes in Hpos as [Ha Hb].
  destruct Hnot; done.
Qed.

Lemma occurrences_cons b x l :
  occurrences b (x :: l)
  = ((if bool_decide (x = b) then 1 else 0) + occurrences b l)%nat.
Proof. unfold occurrences. simpl. by case_bool_decide. Qed.

Lemma occurrences_absent b l : b ∉ l -> occurrences b l = 0%nat.
Proof.
  intros Hnot. destruct (occurrences b l) eqn:E; [done |].
  exfalso. apply Hnot, occurrences_elem. lia.
Qed.

Lemma link_row_bound f1 rest a b :
  (sum_list (map (fun f2 => linkCount booleanIntersects f1 f2 a b) rest)
   <= (if bool_decide (featureCode f1 = a)
       then occurrences b (map featureCode rest) else 0)
      + (if bool_decide (featureCode f1 = b)
         then occurrences a (map featureCode rest) else 0))%nat.
Proof.
  induction rest as [|f2 rest IH]; simpl; [lia |].
  rewrite !occurrences_cons.
  assert (linkCount booleanIntersects f1 f2 a b
          <= (if bool_decide (featureCode f1 = a /\ featureCode f2 = b) then 1 else 0)
             + (if bool_decide (featureCode f2 = a /\ featureCode f1 = b) then 1 else 0))%nat
    as Hle.
  { unfold linkCount. destruct (booleanIntersects f1 f2) as [[|]|]; lia. }
  revert IH Hle. generalize (featureCode f1) (featureCode f2). intros c1 c2.
  destruct (decide (c1 = a)), (decide (c1 = b)), (decide (c2 = a)), (decide (c2 = b));
    repeat match goal with
    | |- context [bool_decide ?P] =>
        first [ rewrite (bool_decide_eq_true_2 P) by (intuition congruence)
              | rewrite (bool_decide_eq_false_2 P) by (intuition congruence) ]
    end; lia.
Qed.

Lemma links_distinct features a b :
  NoDup (map featureCode features) ->
  (links booleanIntersects features a b <= 1)%nat /\
  links booleanIntersects features a a = 0%nat.
Proof.
  induction features as [|f1 rest IH]; simpl; intros Hnd; [split; lia |].
  apply NoDup_cons in Hnd as [Hnot Hnd]. destruct (IH Hnd) as [IHle IHself].
  pose proof (link_row_bound f1 rest a b) as Hab.
  pose proof (link_row_bound f1 rest a a) as Haa.
  assert (occurrences a (map featureCode rest) <= 1)%nat as Hoa
    by (by apply occurrences_NoDup).
  assert (occurrences b (map featureCode rest) <= 1)%nat as Hob
    by (by apply occurrences_NoDup).
  split.
  - destruct (decide (featureCode f1 = a)) as [Ha | Ha].
    + rewrite (bool_decide_eq_true_2 _ Ha) in Hab.
      rewrite (links_absent rest a b) by (left; by rewrite <- Ha).
      assert (occurrences a (map featureCode rest) = 0)%nat as H0
        by (apply occurrences_absent; by rewrite <- Ha).
      rewrite H0 in Hab. destruct (bool_decide (featureCode f1 = b)); lia.
    + rewrite (bool_decide_eq_false_2 _ Ha) in Hab.
      destruct (decide (featureCode f1 = b)) as [Hb | Hb].
      * rewrite (bool_decide_eq_true_2 _ Hb) in Hab.
        rewrite (links_absent rest a b) by (right; by rewrite <- Hb). lia.
      * rewrite (bool_decide_eq_false_2 _ Hb) in Hab. lia.
  - rewrite IHself. destruct (decide (featureCode f1 = a)) as [Ha | Ha].
    + rewrite (bool_decide_eq_true_2 _ Ha) in Haa.
      assert (occurrences a (map featureCode rest) = 0)%nat as H0
        by (apply occurrences_absent; by rewrite <- Ha).
      rewrite H0 in Haa. lia.
    + rewrite (bool_decide_eq_false_2 _ Ha) in Haa. lia.
Qed.

Lemma computeNeighbors_keys features :
  NoDup (map fst (computeNeighbors booleanIntersects features)) /\
  ∀ c, c ∈ map fst (computeNeighbors booleanIntersects features)
       <-> c ∈ map featureCode features.
Proof.
  destruct (computeNeighbors_count features EmptyString EmptyString) as [-> _].
  destruct (initNeighbors_spec features) as (Hnd & Hkeys & _). done.
Qed.

Lemma computeNeighbors_elem features a b :
  b ∈ getNeighbors (computeNeighbors booleanIntersects features) a
  <-> intersecting booleanIntersects features a b.
Proof.
  rewrite occurrences_elem.
  destruct (computeNeighbors_count features a b) as [_ ->].
  apply links_intersecting.
Qed.

Lemma generateCountriesMetadata_fold (features : list (Feature Geometry)) table :
  NoDup (map fst table) ->
  (∀ key country, getProp table key = Some country ->
     code country = key /\ is_Some (aliases country)) ->
  let table' :=
    fold_left
      (fun t feature =>
         let c := featureCode feature in
         setProp t c
           (mkCountry c (featureName feature)
              (Some (match getProp COUNTRY_ALIASES c with
                     | Some als => als
                     | None => []
                     end))))
      features table in
  NoDup (map fst table') /\
  (∀ key country, getProp table' key = Some country ->
     code country = key /\ is_Some (aliases country)).
Proof.
  revert table. induction features as [|f rest IH]; intros table Hnd Hall; simpl;
    [done |].
  apply IH.
  - by apply setProp_NoDup.
  - intros key country. rewrite getProp_setProp. case_bool_decide as Hk.
    + intros [= <-]. simpl. split; [done | by eexists].
    + apply Hall.
Qed.

Lemma generateCountriesMetadata_keys (features : list (Feature Geometry))
    (t1 : CountryTable) (t2 : NeighborTable) :
  map fst t1 = map fst t2 ->
  map fst (fold_left
             (fun t feature =>
                let c := featureCode feature in
                setProp t c
                  (mkCountry c (featureName feature)
                     (Some (match getProp COUNTRY_ALIASES c with
                            | Some als => als
                            | None => []
                            end))))
             features t1)
  = map fst (fold_left (fun t f => setProp t (featureCode f) []) features t2).
Proof.
  revert t1 t2. induction features as [|f rest IH]; intros t1 t2 Heq; simpl; [done |].
  apply IH. by apply setProp_keys.
Qed.

Lemma getProp_of_elem {A} (table : list (string * A)) key v :
  NoDup (map fst table) -> (key, v) ∈ table -> getProp table key = Some v.
Proof.
  induction table as [|[k w] rest IH]; simpl; intros Hnd Hin.
  - by apply elem_of_nil in Hin.
  - apply NoDup_cons in Hnd as [Hnot Hnd].
    apply elem_of_cons in Hin as [[= -> ->] | Hin].
    + by rewrite bool_decide_eq_true_2.
    + case_bool_decide as Hk; [| by apply IH].
      subst. exfalso. apply Hnot.
      change key with (fst (key, v)). by apply list_elem_of_fmap_2.
Qed.

Lemma intersecting_sym features a b :
  intersecting booleanIntersects features a b ->
  intersecting booleanIntersects features b a.
Proof.
  intros (front & g1 & middle & g2 & back & Heq & Hint & Hcodes).
  exists front, g1, middle, g2, back. tauto.
Qed.

Lemma generated_keys features :
  map fst (generateCountriesMetadata features)
  = map fst (computeNeighbors booleanIntersects features).
Proof.
  destruct (computeNeighbors_count features EmptyString EmptyString) as [-> _].
  by apply generateCountriesMetadata_keys.
Qed.

Lemma generated_neighborsKnown features :
  neighborsKnown (generateCountriesMetadata features)
    (computeNeighbors booleanIntersects features).
Proof.
  intros key ns c Hin Hc. apply getProp_is_Some. rewrite generated_keys.
  destruct (computeNeighbors_keys features) as [Hndt Hkeys].
  assert (getNeighbors (computeNeighbors booleanIntersects features) key = ns) as Hns.
  { unfold getNeighbors. by rewrite (getProp_of_elem _ _ _ Hndt Hin). }
  rewrite <- Hns in Hc.
  apply computeNeighbors_elem, intersecting_codes in Hc as [_ Hc].
  by apply Hkeys.
Qed.

Lemma computeNeighbors_nodup features a :
  NoDup (map featureCode features) ->
  (a ∉ getNeighbors (computeNeighbors booleanIntersects features) a) /\
  NoDup (getNeighbors (computeNeighbors booleanIntersects features) a).
Proof.
  intros Hnd. split.
  - rewrite occurrences_elem.
    destruct (computeNeighbors_count features a a) as [_ ->].
    destruct (links_distinct features a a Hnd) as [_ ->]. lia.
  - apply occurrences_NoDup. intros b.
    destruct (computeNeighbors_count features a b) as [_ ->].
    by destruct (links_distinct features a b Hnd) as [Hle _].
Qed.

(** X23.  What [computeNeighbors] returns has one list for every feature
    code and no other, and [b] stands in the list of [a] exactly when two
    features with the codes [a] and [b] intersect; so every code in a list
    has a list of its own. *)
Theorem computeNeighbors_lists features :
  let table := computeNeighbors booleanIntersects features in
  NoDup (map fst table) /\
  (∀ c, c ∈ map fst table <-> c ∈ map featureCode features) /\
  (∀ a b, b ∈ getNeighbors table a <-> intersecting booleanIntersects features a b) /\
  (∀ a b, b ∈ getNeighbors table a -> a ∈ map fst table /\ b ∈ map fst table).
Proof.
  intros table. destruct (computeNeighbors_keys features) as [Hnd Hkeys].
  split; [done |]. split; [done |]. split.
  - intros a b. apply computeNeighbors_elem.
  - intros a b Hb. apply computeNeighbors_elem, intersecting_codes in Hb.
    unfold table. by rewrite !Hkeys.
Qed.

(** X24.  When the features have distinct codes, no country is its own
    neighbour in what [computeNeighbors] returns, no list names a country
    twice, and a list has at most one code fewer than there are features. *)
Theorem computeNeighbors_distinct features a :
  NoDup (map featureCode features) ->
  (a ∉ getNeighbors (computeNeighbors booleanIntersects features) a) /\
  NoDup (getNeighbors (computeNeighbors booleanIntersects features) a) /\
  (length (getNeighbors (computeNeighbors booleanIntersects features) a)
   <= length features - 1)%nat.
Proof.
  intros Hnd. destruct (computeNeighbors_nodup features a Hnd) as [Hself Hnodup].
  split; [done |]. split; [done |].
  destruct (decide (a ∈ map featureCode features)) as [Ha | Ha].
  - assert (a :: getNeighbors (computeNeighbors booleanIntersects features) a
            ⊆+ map featureCode features) as Hsub.
    { apply NoDup_submseteq; [by apply NoDup_cons |].
      intros c Hc. apply elem_of_cons in Hc as [-> | Hc]; [done |].
      by apply computeNeighbors_elem, intersecting_codes in Hc as [_ Hc]. }
    apply submseteq_length in Hsub. simpl in Hsub. rewrite length_map in Hsub. lia.
  - destruct (getNeighbors (computeNeighbors booleanIntersects features) a)
      as [|b l] eqn:E.
    + simpl. lia.
    + exfalso. apply Ha.
      assert (b ∈ getNeighbors (computeNeighbors booleanIntersects features) a) as Hb
        by (rewrite E; by apply elem_of_cons; left).
      by apply computeNeighbors_elem, intersecting_codes in Hb as [Hb _].
Qed.

(** X25.  The two tables that the data script writes fit together, and fit
    the game: [generateCountriesMetadata] gives the same keys as
    [computeNeighbors], each once; the [code] field of an entry is its
    key and its [aliases] field is a list; and every code in an adjacency
    list is a key of the country table. *)
Theorem generated_tables_fit features :
  let countries := generateCountriesMetadata features in
  let table := computeNeighbors booleanIntersects features in
  map fst countries = map fst table /\
  tableKeyed countries /\
  (∀ key country, (key, country) ∈ countries -> is_Some (aliases country)) /\
  neighborsKnown countries table.
Proof.
  intros countries table.
  destruct (generateCountriesMetadata_fold features []) as [Hnd Hall];
    [constructor | done |].
  fold countries in Hnd, Hall.
  split; [apply generated_keys |]. split; [| split].
  - split; [done |]. intros key country Hin.
    by destruct (Hall key country (getProp_of_elem _ _ _ Hnd Hin)).
  - intros key country Hin.
    by destruct (Hall key country (getProp_of_elem _ _ _ Hnd Hin)).
  - apply generated_neighborsKnown.
Qed.

End PrepareDataProofs.

(* ===================================================================== *)
(** ** scripts/prepare-data.js: the member states *)
(* ===================================================================== *)

Section FilterProofs.

Context {Geometry : Type}.

Lemma isUNMember_iso3 (feature : RawFeature Geometry) :
  isUNMember feature = true <->
  ∃ c, iso3 feature = Some c /\ c ∈ UN_MEMBER_STATES.
Proof.
  unfold isUNMember. destruct (iso3 feature) as [c |].
  - rewrite andb_true_iff, negb_true_iff, bool_decide_eq_false, bool_decide_eq_true.
    split.
    + intros [_ Hc]. exists c. split; [reflexivity | exact Hc].
    + intros (c' & [= <-] & Hc). split; [| done]. intros ->.
      revert Hc. apply (bool_decide_unpack _). vm_compute. exact I.
  - split; [done | by intros (c & ? & _)].
Qed.

Lemma normalizeProperties_code (feature : RawFeature Geometry) c :
  iso3 feature = Some c -> c ≠ EmptyString ->
  featureCode (normalizeProperties feature) = c /\
  featureId (normalizeProperties feature) = Some c /\
  iso_a3 (normalizeProperties feature) = c.
Proof.
  intros Hc Hne. unfold featureCode, normalizeProperties. simpl. rewrite Hc.
  by rewrite bool_decide_eq_false_2.
Qed.

Lemma member_not_empty c : c ∈ UN_MEMBER_STATES -> c ≠ EmptyString.
Proof.
  intros Hc ->. revert Hc. apply (bool_decide_unpack _). vm_compute. exact I.
Qed.

Lemma filterToUNMembers_elem (features : list (RawFeature Geometry)) f :
  f ∈ filterToUNMembers features <->
  ∃ raw c, raw ∈ features /\ iso3 raw = Some c /\ c ∈ UN_MEMBER_STATES /\
           f = normalizeProperties raw.
Proof.
  unfold filterToUNMembers. rewrite list_elem_of_fmap. split.
  - intros (raw & -> & Hraw).
    apply list_elem_of_In, filter_In in Hraw as [Hraw Hkeep].
    apply list_elem_of_In in Hraw.
    apply isUNMember_iso3 in Hkeep as (c & Hc & Hmem).
    exists raw, c. split; [exact Hraw |]. split; [exact Hc |].
    split; [exact Hmem | reflexivity].
  - intros (raw & c & Hraw & Hc & Hmem & ->). exists raw. split; [done |].
    apply list_elem_of_In, filter_In. split; [by apply list_elem_of_In |].
    apply isUNMember_iso3. exists c. split; [exact Hc | exact Hmem].
Qed.

Lemma filterToUNMembers_codes (features : list (RawFeature Geometry)) c :
  c ∈ map featureCode (filterToUNMembers features) -> c ∈ UN_MEMBER_STATES.
Proof.
  intros Hc. apply list_elem_of_fmap in Hc as (f & -> & Hf).
  apply filterToUNMembers_elem in Hf as (raw & c & _ & Hc & Hmem & ->).
  destruct (normalizeProperties_code raw c Hc (member_not_empty c Hmem)) as (-> & _).
  exact Hmem.
Qed.

(** X26.  [filterToUNMembers] keeps the features whose code ([ADM0_A3], or
    [ISO_A3] when that is missing or empty) is one of the member states,
    in their order and with their geometry, and drops the others; in a
    feature it returns, [id] and [iso_a3] are both that code, and the name
    is [NAME], or [ADMIN] when [NAME] is missing or empty. *)
Theorem filterToUNMembers_keeps (features : list (RawFeature Geometry)) :
  (∀ raw, raw ∈ features ->
     (normalizeProperties raw ∈ filterToUNMembers features
      <-> ∃ c, iso3 raw = Some c /\ c ∈ UN_MEMBER_STATES)) /\
  (∀ f, f ∈ filterToUNMembers features ->
     featureCode f ∈ UN_MEMBER_STATES /\
     featureId f = Some (featureCode f) /\
     iso_a3 f = featureCode f /\
     ∃ raw, raw ∈ features /\
            iso3 raw = Some (featureCode f) /\
            geometry f = rawGeometry raw /\
            featureName f = orElse (NAME raw) (ADMIN raw)) /\
  map geometry (filterToUNMembers features) `sublist_of` map rawGeometry features.
Proof.
  split; [| split].
  - intros raw Hraw. split.
    + intros Hin. apply filterToUNMembers_elem in Hin as (raw' & c & _ & Hc & Hmem & Heq).
      exists c. split; [| exact Hmem].
      assert (featureId (normalizeProperties raw) = featureId (normalizeProperties raw'))
        as Hid by (by rewrite Heq).
      simpl in Hid. by rewrite Hid.
    + intros (c & Hc & Hmem). apply filterToUNMembers_elem.
      exists raw, c. split; [exact Hraw |]. split; [exact Hc |].
      split; [exact Hmem | reflexivity].
  - intros f Hf. apply filterToUNMembers_elem in Hf as (raw & c & Hraw & Hc & Hmem & ->).
    destruct (normalizeProperties_code raw c Hc (member_not_empty c Hmem))
      as (-> & -> & ->).
    split; [exact Hmem |]. split; [reflexivity |]. split; [reflexivity |].
    exists raw. split; [exact Hraw |]. split; [exact Hc |].
    split; reflexivity.
  - unfold filterToUNMembers. rewrite map_map. simpl.
    induction features as [|raw rest IH]; simpl; [done |].
    destruct (isUNMember raw); simpl.
    + by apply sublist_skip.
    + by apply sublist_cons.
Qed.

(** X27.  Whatever the source file holds and whatever [booleanIntersects]
    answers, the tables that the script makes from [filterToUNMembers]
    name member states only: the country table has at most 193 entries,
    every key of it and every code of an adjacency list is a member state,
    and a code that is none has no entry; so the aliases that
    [COUNTRY_ALIASES] lists for PSE are never written. *)
Theorem generated_tables_members
    (booleanIntersects : Feature Geometry -> Feature Geometry -> option bool)
    (features : list (RawFeature Geometry)) :
  let members := filterToUNMembers features in
  let countries := generateCountriesMetadata members in
  let table := computeNeighbors booleanIntersects members in
  (length countries <= 193)%nat /\
  (∀ key, key ∈ map fst countries -> key ∈ UN_MEMBER_STATES) /\
  (∀ a b, b ∈ getNeighbors table a -> a ∈ UN_MEMBER_STATES /\ b ∈ UN_MEMBER_STATES) /\
  (∀ key, key ∉ UN_MEMBER_STATES -> getProp countries key = None) /\
  is_Some (getProp COUNTRY_ALIASES "PSE") /\
  getProp countries "PSE" = None.
Proof.
  intros members countries table.
  assert (∀ key, key ∈ map fst countries -> key ∈ UN_MEMBER_STATES) as Hkeys.
  { intros key Hkey. apply (filterToUNMembers_codes features).
    fold members. unfold countries in Hkey.
    rewrite (generated_keys booleanIntersects) in Hkey.
    by apply (computeNeighbors_keys booleanIntersects). }
  assert (∀ key, key ∉ UN_MEMBER_STATES -> getProp countries key = None) as Hnone.
  { intros key Hnot. destruct (getProp countries key) eqn:E; [| done].
    exfalso. apply Hnot, Hkeys, getProp_is_Some. by rewrite E. }
  split; [| split; [done | split; [| split; [done | split]]]].
  - destruct (generateCountriesMetadata_fold members []) as [Hnd _];
      [constructor | done |].
    fold countries in Hnd.
    assert (map fst countries ⊆+ UN_MEMBER_CODES) as Hsub.
    { apply NoDup_submseteq; [done |]. intros key Hkey.
      apply Hkeys in Hkey. unfold UN_MEMBER_STATES in Hkey.
      by apply elem_of_list_to_set in Hkey. }
    apply submseteq_length in Hsub. rewrite length_map in Hsub.
    exact Hsub.
  - intros a b Hb.
    apply (computeNeighbors_elem booleanIntersects), intersecting_codes in Hb as [Ha Hb].
    split; by apply (filterToUNMembers_codes features).
  - by eexists.
  - apply Hnone. apply (bool_decide_unpack _). vm_compute. exact I.
Qed.

End FilterProofs.

Example sample_filter :
  map featureCode (filterToUNMembers sampleRawFeatures) = ["FRA"; "ESP"; "ISL"]%string /\
  map featureName (filterToUNMembers sampleRawFeatures)
    = [js "France"; js "Spain"; js "Iceland"].
Proof. vm_compute. done. Qed.

Lemma target_neighbors_reachable cd nd st :
  Reachable cd nd st ->
  neighbors st = match targetCountryCode st with
                 | Some c => getNeighbors nd c
                 | None => []
                 end.
Proof.
  induction 1 as [|draw st _ IH|draw st _ IH|nm st _ IH|c st _ IH|st _ IH|st _ IH].
  - done.
  - unfold startNewRound.
    by destruct (getRandomCountryWithNeighbors cd nd draw).
  - unfold nextRound, startNewRound.
    by destruct (getRandomCountryWithNeighbors cd nd draw).
  - unfold addGuess. destruct (findCountryByName nm (Some cd)); [| done].
    by destruct (findGuess _ (guesses st)).
  - unfold removeGuess. by destruct (findGuessIndex c (guesses st)).
  - by destruct (submit_neighborCountries cd st) as (_ & -> & ->).
  - unfold reveal. simpl.
    pose proof (revealNeighbor_frame cd (neighbors st) (setRevealed true st))
      as ((_ & Ht & Hn & _) & _).
    simpl in Ht, Hn. by rewrite Ht, Hn.
Qed.

Example sample_tables :
  computeNeighbors sampleIntersects sampleFeatures
    = [("FRA", ["ESP"]); ("ESP", ["FRA"]); ("ISL", []); ("AND", [])]%string /\
  map fst (generateCountriesMetadata sampleFeatures)
    = ["FRA"; "ESP"; "ISL"; "AND"]%string /\
  targetCountryCode sampleRound = Some "FRA"%string /\
  neighbors sampleRound = ["ESP"%string].
Proof. vm_compute. done. Qed.

Lemma sampleFeatures_distinct : NoDup (map featureCode sampleFeatures).
Proof. apply (bool_decide_unpack _). vm_compute. exact I. Qed.

Lemma sampleRound_reachable :
  Reachable (generateCountriesMetadata sampleFeatures)
    (computeNeighbors sampleIntersects sampleFeatures) sampleRound.
Proof. apply reach_startNewRound, reach_reset. Qed.

Lemma sample_neighbors_FRA :
  getNeighbors (computeNeighbors sampleIntersects sampleFeatures) "FRA" = ["ESP"%string].
Proof. reflexivity. Qed.

Lemma computeNeighbors_symmetric_witness :
  "FRA"%string ∈ getNeighbors (computeNeighbors sampleIntersects sampleFeatures) "ESP".
Proof.
  destruct (computeNeighbors_symmetric sampleIntersects sampleFeatures "FRA" "ESP")
    as [_ Hiff].
  apply Hiff. rewrite sample_neighbors_FRA. apply list_elem_of_here.
Defined.

Lemma computeNeighbors_lists_witness :
  "FRA"%string ∈ map fst (computeNeighbors sampleIntersects sampleFeatures) /\
  "ESP"%string ∈ map fst (computeNeighbors sampleIntersects sampleFeatures).
Proof.
  destruct (computeNeighbors_lists sampleIntersects sampleFeatures)
    as (_ & _ & _ & Hkeys).
  apply Hkeys. rewrite sample_neighbors_FRA. apply list_elem_of_here.
Defined.

Lemma generated_tables_fit_witness :
  is_Some (getProp (generateCountriesMetadata sampleFeatures) "ESP").
Proof.
  destruct (generated_tables_fit sampleIntersects sampleFeatures)
    as (_ & _ & _ & Hknown).
  apply (Hknown "FRA"%string ["ESP"%string]).
  - assert (computeNeighbors sampleIntersects sampleFeatures
            = [("FRA", ["ESP"]); ("ESP", ["FRA"]); ("ISL", []); ("AND", [])]%string)
      as -> by reflexivity.
    apply list_elem_of_here.
  - apply list_elem_of_here.
Defined.

Lemma filterToUNMembers_keeps_witness :
  normalizeProperties
    (mkRawFeature (Some EmptyString) (Some "ESP"%string) (Some (js "Spain"))
       (Some (js "Kingdom of Spain")) (js "Spain") 2%nat)
    ∈ filterToUNMembers sampleRawFeatures.
Proof.
  destruct (filterToUNMembers_keeps sampleRawFeatures) as (Hkeep & _).
  apply Hkeep.
  - apply list_elem_of_further, list_elem_of_here.
  - exists "ESP"%string. split; [reflexivity |].
    apply (bool_decide_unpack _). vm_compute. exact I.
Defined.

Lemma generated_tables_members_witness :
  "FRA"%string ∈ UN_MEMBER_STATES /\ "ESP"%string ∈ UN_MEMBER_STATES.
Proof.
  destruct (generated_tables_members sampleIntersects sampleRawFeatures)
    as (_ & _ & Hlists & _).
  apply Hlists.
  assert (getNeighbors
            (computeNeighbors sampleIntersects (filterToUNMembers sampleRawFeatures))
            "FRA" = ["ESP"%string]) as -> by (vm_compute; reflexivity).
  apply list_elem_of_here.
Defined.

Lemma computeNeighbors_distinct_witness :
  ("FRA"%string ∉ getNeighbors (computeNeighbors sampleIntersects sampleFeatures) "FRA") /\
  NoDup (getNeighbors (computeNeighbors sampleIntersects sampleFeatures) "FRA") /\
  (length (getNeighbors (computeNeighbors sampleIntersects sampleFeatures) "FRA")
   <= length sampleFeatures - 1)%nat.
Proof.
  apply (computeNeighbors_distinct sampleIntersects sampleFeatures "FRA").
  exact sampleFeatures_distinct.
Defined.

(** X28.  In a game on the tables that the data script makes from features
    with distinct codes, every state has a neighbour list without
    duplicates, whose codes are all keys of the country table; the target
    is not among its own neighbours, and it is in the adjacency list of
    each of them. *)
Theorem generated_rounds {Geometry : Type}
    (booleanIntersects : Feature Geometry -> Feature Geometry -> option bool)
    (features : list (Feature Geometry)) st :
  NoDup (map featureCode features) ->
  Reachable (generateCountriesMetadata features)
    (computeNeighbors booleanIntersects features) st ->
  NoDup (neighbors st) /\
  answersKnown (generateCountriesMetadata features) st /\
  ∀ target, targetCountryCode st = Some target ->
    (target ∉ neighbors st) /\
    ∀ c, c ∈ neighbors st ->
         target ∈ getNeighbors (computeNeighbors booleanIntersects features) c.
Proof.
  intros Hnd Hreach.
  pose proof (target_neighbors_reachable _ _ _ Hreach) as Hn.
  split; [| split].
  - rewrite Hn. destruct (targetCountryCode st) as [target |]; [| constructor].
    by apply computeNeighbors_nodup.
  - apply (answersKnown_reachable _ (computeNeighbors booleanIntersects features)).
    + apply generated_neighborsKnown.
    + by apply reachable_consistent with (generateCountriesMetadata features).
  - intros target Ht. rewrite Hn, Ht. split.
    + by apply computeNeighbors_nodup.
    + intros c Hc. by apply computeNeighbors_elem, intersecting_sym, computeNeighbors_elem.
Qed.

Lemma generated_rounds_witness :
  NoDup (neighbors sampleRound) /\
  answersKnown (generateCountriesMetadata sampleFeatures) sampleRound /\
  ∀ target, targetCountryCode sampleRound = Some target ->
    (target ∉ neighbors sampleRound) /\
    ∀ c, c ∈ neighbors sampleRound ->
         target ∈ getNeighbors (computeNeighbors sampleIntersects sampleFeatures) c.
Proof.
  apply (generated_rounds sampleIntersects sampleFeatures sampleRound).
  - exact sampleFeatures_distinct.
  - exact sampleRound_reachable.
Defined.
